(** * simple-archiver: queue, matcher, dismissal pass, archive identity, capture pipeline

    A shallow embedding of the archiver script (the queue-driven variant with
    [PersistentQueue], [findMatchingClickableElements], [clickPopups],
    [makeArchiveId], [saveArchive], [runArchive] and [processQueue]) and the
    properties its specification states about it. *)

From Stdlib Require Import ZArith NArith QArith_base List Bool Lia String Ascii.
From Stdlib Require Import DecimalString Sorted.
From stdpp Require Import base numbers list gmap.

Local Open Scope N_scope.

(** ** JavaScript strings

    A JavaScript string is a sequence of UTF-16 code units; a code unit is a
    number. *)

Module JS.

Abbreviation str := (list N).

(** A string literal of the source, for literals in the ASCII range. *)
Definition lit (s : string) : str :=
  map N_of_ascii (list_ascii_of_string s).

(** [\s] of a regular expression and the characters [String.prototype.trim]
    strips: WhiteSpace and LineTerminator of ECMA-262. *)
Definition is_space (c : N) : bool :=
  ((9 <=? c) && (c <=? 13)) || (c =? 32) || (c =? 160) || (c =? 5760)
  || ((8192 <=? c) && (c <=? 8202)) || (c =? 8232) || (c =? 8233)
  || (c =? 8239) || (c =? 8287) || (c =? 12288) || (c =? 65279).

Definition is_digit (c : N) : bool := (48 <=? c) && (c <=? 57).
Definition is_upper (c : N) : bool := (65 <=? c) && (c <=? 90).
Definition is_lower (c : N) : bool := (97 <=? c) && (c <=? 122).

(** [\w] of a regular expression without the [u] flag: [A-Za-z0-9_]. *)
Definition is_word (c : N) : bool :=
  is_digit c || is_upper c || is_lower c || (c =? 95).

(** [String.prototype.toLowerCase] on the Basic Latin and Latin-1 Supplement
    blocks; code units of other blocks are returned as they are. *)
Definition lower_unit (c : N) : N :=
  if is_upper c then c + 32
  else if (192 <=? c) && (c <=? 222) && negb (c =? 215) then c + 32
  else c.

Definition toLowerCase (s : str) : str := map lower_unit s.

(** The strings of those two blocks: on them [toLowerCase] above is the
    method of the runtime. Outside them the runtime also lowers the letters
    of other scripts, and maps U+0130 to two units. *)
Definition latin1 (s : str) : bool := forallb (fun c => c <? 256) s.

Fixpoint trimStart (s : str) : str :=
  match s with
  | c :: r => if is_space c then trimStart r else s
  | [] => []
  end.

Definition trimEnd (s : str) : str := rev (trimStart (rev s)).

Definition trim (s : str) : str := trimEnd (trimStart s).

Definition starts_with_space (s : str) : bool :=
  match s with
  | c :: _ => is_space c
  | [] => false
  end.

(** [s.split(/\s+/)]: the pieces between maximal runs of white space; a run
    at either end leaves an empty piece there, and the empty string splits
    into one empty piece. *)
Fixpoint split_ws (s : str) : list str :=
  match s with
  | [] => [[]]
  | c :: r =>
      let ts := split_ws r in
      if is_space c then
        if starts_with_space r then ts else [] :: ts
      else
        match ts with
        | t :: ts' => (c :: t) :: ts'
        | [] => [[c]]
        end
  end.

(** [s.replace(/[^...]/g, " ")] and its like: every unit outside [keep]
    becomes [by]. *)
Definition replace_outside (keep : N -> bool) (by_ : N) (s : str) : str :=
  map (fun c => if keep c then c else by_) s.

Definition str_eqb (a b : str) : bool := bool_decide (a = b).

(** [a.includes(b)]. *)
Fixpoint starts_with (p s : str) : bool :=
  match p, s with
  | [], _ => true
  | x :: p', y :: s' => (x =? y) && starts_with p' s'
  | _ :: _, [] => false
  end.

Fixpoint includes (s p : str) : bool :=
  starts_with p s ||
  match s with
  | _ :: s' => includes s' p
  | [] => false
  end.

End JS.

Import JS.

(** ** Element matcher: text normalization and the term rule

    The callback that [findMatchingClickableElements] evaluates in a frame. *)

Module Matcher.

(** [[’‘']]: the two curly single quotes and the apostrophe. *)
Definition is_quote (c : N) : bool := (c =? 8217) || (c =? 8216) || (c =? 39).

(** [[\w\s']]: what the second replacement of [normalize] keeps. *)
Definition keeps (c : N) : bool := is_word c || is_space c || (c =? 39).

(** [const normalize = s => s.toLowerCase().replace(/[’‘']/g, "'")
      .replace(/[^\w\s']/g, " ").trim()]. *)
Definition normalize (s : str) : str :=
  trim (replace_outside keeps 32
          (map (fun c => if is_quote c then 39 else c) (toLowerCase s))).

(** *** The regular expressions the matcher builds

    The matcher compiles [new RegExp(`\b${t.replace(/\s+/g, "\s+")}\b`, "i")].
    The pattern sources it can build from a term without syntax characters
    consist of three kinds of atoms. *)
Inductive atom : Type :=
  | Boundary            (* \b *)
  | SpacePlus           (* \s+ *)
  | Lit (c : N).        (* a pattern character *)

(** [t.replace(/\s+/g, by)]: every maximal run of white space becomes [by_]. *)
Fixpoint replace_ws_runs (by_ : str) (s : str) : str :=
  match s with
  | [] => []
  | c :: r =>
      if is_space c then
        if starts_with_space r then replace_ws_runs by_ r
        else by_ ++ replace_ws_runs by_ r
      else c :: replace_ws_runs by_ r
  end.

Definition pattern_source (t : str) : str :=
  lit "\b" ++ replace_ws_runs (lit "\s+") t ++ lit "\b".

(** SyntaxCharacter of ECMA-262: [^ $ \ . * + ? ( ) [ ] { } |]. *)
Definition is_syntax_char (c : N) : bool :=
  (c =? 94) || (c =? 36) || (c =? 92) || (c =? 46) || (c =? 42) || (c =? 43)
  || (c =? 63) || (c =? 40) || (c =? 41) || (c =? 91) || (c =? 93)
  || (c =? 123) || (c =? 125) || (c =? 124).

(** The RegExp constructor on the sources made of [\b], [\s+] and pattern
    characters; [None] on every other source (it holds an operator this
    development does not interpret, or is a syntax error). *)
Fixpoint compile (src : str) : option (list atom) :=
  match src with
  | [] => Some []
  | c :: r =>
      if c =? 92 then
        match r with
        | d :: r' =>
            if d =? 98 then cons Boundary <$> compile r'
            else if d =? 115 then
              match r' with
              | e :: r'' => if e =? 43 then cons SpacePlus <$> compile r'' else None
              | [] => None
              end
            else None
        | [] => None
        end
      else if is_syntax_char c then None
      else cons (Lit c) <$> compile r
  end.

(** Canonicalize of ECMA-262 for the [i] flag (without [u]): the upper-case
    unit, on the blocks [toLowerCase] is modelled on. *)
Definition canonicalize (c : N) : N :=
  if is_lower c then c - 32
  else if (224 <=? c) && (c <=? 254) && negb (c =? 247) then c - 32
  else c.

Definition is_word_opt (o : option N) : bool :=
  match o with
  | Some c => is_word c
  | None => false
  end.

(** [\b] holds between [prev] and [next] when exactly one of them is a word
    character; the ends of the input count as non-word. *)
Definition at_boundary (prev next : option N) : bool :=
  xorb (is_word_opt prev) (is_word_opt next).

(** Backtracking match of the atoms at the start of [s], the unit before
    [s] being [prev]; [\s+] is greedy and gives units back. *)
Fixpoint match_here (p : list atom) : option N -> str -> bool :=
  match p with
  | [] => fun _ _ => true
  | Boundary :: p' => fun prev s =>
      at_boundary prev (head s) && match_here p' prev s
  | Lit c :: p' => fun _ s =>
      match s with
      | x :: s' => (canonicalize c =? canonicalize x) && match_here p' (Some x) s'
      | [] => false
      end
  | SpacePlus :: p' => fun _ s =>
      (fix plus (s : str) : bool :=
         match s with
         | x :: s' => is_space x && (plus s' || match_here p' (Some x) s')
         | [] => false
         end) s
  end.

(** [pattern.test(s)] without the [g] flag: a match at some start index. *)
Fixpoint search (p : list atom) (prev : option N) (s : str) : bool :=
  match_here p prev s ||
  match s with
  | x :: s' => search p (Some x) s'
  | [] => false
  end.

Definition RegExp_test (p : list atom) (s : str) : bool := search p None s.

(** [w.localeCompare(t, undefined, { sensitivity: "accent" }) === 0] as
    equality up to case. That is what the comparison comes to on strings of
    printable ASCII characters, in a locale whose collation gives each of
    them a weight of its own (the root collation and those of the European
    languages); on other strings a collation can ignore units (U+200B,
    U+00AD) or equate letters this definition tells apart. *)
Definition locale_equal (w t : str) : bool :=
  str_eqb (toLowerCase w) (toLowerCase t).

(** The callback of [terms.some] on one term of [terms]; [txt] is the
    normalized text. [None] when the pattern of a long term is outside the
    sources [compile] interprets. *)
Definition term_matches (txt term : str) : option bool :=
  let t := trim (toLowerCase term) in
  if (N.of_nat (length t) <=? 3) then
    Some (existsb (fun w => locale_equal w t) (split_ws txt))
  else
    match compile (pattern_source t) with
    | Some p => Some (RegExp_test p txt)
    | None => None
    end.

(** [terms.some(term => ...)], which stops at the first term that matches. *)
Fixpoint some_term (txt : str) (terms : list str) : option bool :=
  match terms with
  | [] => Some false
  | term :: rest =>
      match term_matches txt term with
      | Some true => Some true
      | Some false => some_term txt rest
      | None => None
      end
  end.

End Matcher.

(** *** The term rule in the specification's words *)

Module MatcherSpec.

Import Matcher.

(** The words of a phrase, in order, with a non-empty run of white space
    between each two: the phrase with elastic internal white space. *)
Inductive joined : list str -> str -> Prop :=
  | joined_one w : joined [w] w
  | joined_more w g ws m :
      g <> [] -> forallb is_space g = true -> joined ws m ->
      joined (w :: ws) (w ++ g ++ m).

Definition phrase_instance (t m : str) : Prop := joined (split_ws t) m.

(** [m] occurs in [txt] with a word boundary on either side. *)
Definition occurs_word_bounded (t txt : str) : Prop :=
  exists pre m post,
    txt = pre ++ m ++ post /\ phrase_instance t m /\
    at_boundary (last pre) (head (m ++ post)) = true /\
    at_boundary (last (pre ++ m)) (head post) = true.

(** The term equals one of the pieces of the text, up to case. *)
Definition equals_a_token (t txt : str) : Prop :=
  exists w, In w (split_ws txt) /\ toLowerCase w = toLowerCase t.

(** An end of the text, or a unit of white space. *)
Definition space_or_end (o : option N) : bool :=
  match o with
  | Some c => is_space c
  | None => true
  end.

(** [t] stands in [txt] as a whole word: it holds no white space, and where
    it stands there is white space or an end of the text on either side.
    The empty term stands in the empty text only. *)
Definition whole_token (t txt : str) : Prop :=
  forallb (fun c => negb (is_space c)) t = true /\
  match t with
  | [] => txt = []
  | _ :: _ =>
      exists pre post,
        txt = pre ++ t ++ post /\
        space_or_end (last pre) = true /\ space_or_end (head post) = true
  end.

(** A term of printable ASCII characters. *)
Definition ascii_term (t : str) : bool :=
  forallb (fun c => (32 <=? c) && (c <? 127)) t.

(** A term none of whose units is a syntax character of regular
    expressions. *)
Definition plain (t : str) : Prop := forallb (fun c => negb (is_syntax_char c)) t = true.

End MatcherSpec.

Import Matcher MatcherSpec.

(** *** Auxiliary notions for the proofs about the matcher *)

Module MatcherAux.

Import Matcher.

(** The atoms of the pattern source of a plain term, without the two [\b]. *)
Fixpoint atoms_of (t : str) : list atom :=
  match t with
  | [] => []
  | c :: r =>
      if is_space c then
        if starts_with_space r then atoms_of r else SpacePlus :: atoms_of r
      else Lit c :: atoms_of r
  end.

(** The unit before a position that lies [m] after a position whose
    previous unit is [prev]. *)
Definition last_or (prev : option N) (m : str) : option N :=
  match last m with
  | Some x => Some x
  | None => prev
  end.

(** A unit [toLowerCase] can return. *)
Definition lowered (c : N) : bool :=
  negb (is_upper c) && negb ((192 <=? c) && (c <=? 222) && negb (c =? 215)).

(** A unit [normalize] can return. *)
Definition normchar (x : N) : bool := keeps x && negb (is_upper x).

End MatcherAux.

Import MatcherAux.

(** ** Configuration *)

Module Config.

Definition SEARCH_TERMS : list str :=
  map lit ["close"; "dismiss"; "Don't Allow"; "don't allow"; "dont allow";
           "Later"; "ok"; "Reject"; "decline"; "no thanks"; "I'll Give Later"]%string.

Definition BLACKLIST_TERMS : list str :=
  map lit ["Watch later"; "facebook"; "print ad"; "bookmark"; "sign in";
           "login"]%string.

End Config.

(** ** The scan of one frame: [findMatchingClickableElements] *)

Module Scan.

Import Matcher.

(** [el.value]: a string on the form controls, a number on [li], [meter]
    and [progress], undefined on the other elements. *)
Inductive dom_value : Type :=
  | VUndefined
  | VString (s : str)
  | VNumber (q : Q).

(** What the callback reads of a DOM element. *)
Record element : Type := {
  tagName : str;
  has_onclick : bool;            (* el.hasAttribute("onclick") *)
  role : option str;             (* el.getAttribute("role") *)
  tabIndex : Z;
  textContent : str;
  value : dom_value;
  rect_left : Q; rect_top : Q; rect_width : Q; rect_height : Q
}.

Record frame : Type := {
  elements : list element;       (* document order *)
  scrollX : Q; scrollY : Q
}.

Record MatchedElement : Type := {
  tag : str;
  text : str;
  x : Q;
  y : Q
}.

Definition isClickable (el : element) : bool :=
  let tag := toLowerCase (tagName el) in
  existsb (str_eqb tag) (map lit ["button"; "a"; "input"]%string)
  || has_onclick el
  || match role el with Some r => str_eqb r (lit "button") | None => false end
  || (0 <=? tabIndex el)%Z.

(** [(a || b || "").trim()]: the first truthy operand, trimmed. Undefined,
    the empty string and zero are falsy; on a number other than zero there
    is no [trim] to call and the expression throws a TypeError ([None]). *)
Definition or_trim (a : str) (b : dom_value) : option str :=
  match a, b with
  | _ :: _, _ => Some (trim a)
  | [], VString b' => Some (trim b')
  | [], VNumber q => if (Qnum q =? 0)%Z then Some [] else None
  | [], VUndefined => Some []
  end.

Definition half (q : Q) : Q := Qdiv q (Qmake 2 1).

(** The body of the loop over the elements of a frame: the matches the
    element adds to [results]; [None] when the body throws, which ends the
    whole scan of the frame, or when a term's pattern is one [compile] does
    not interpret. *)
Definition scan_element (terms blacklistTerms : list str) (fr : frame)
    (el : element) : option (list MatchedElement) :=
  if negb (isClickable el) then Some []
  else if str_eqb (toLowerCase (tagName el)) (lit "a")
          && (20 <? length (trim (textContent el)))%nat then Some []
  else
    match or_trim (textContent el) (value el) with
    | None => None
    | Some [] => Some []
    | Some text =>
        match some_term (normalize text) terms with
        | None => None
        | Some false => Some []
        | Some true =>
            let lowerText := toLowerCase text in
            if existsb (fun bad => includes lowerText (toLowerCase bad)) blacklistTerms
            then Some []
            else Some [ {| tag := toLowerCase (tagName el);
                           text := text;
                           x := Qplus (Qplus (rect_left el) (half (rect_width el))) (scrollX fr);
                           y := Qplus (Qplus (rect_top el) (half (rect_height el))) (scrollY fr) |} ]
        end
    end.

Fixpoint scan_elements (terms blacklistTerms : list str) (fr : frame)
    (els : list element) : option (list MatchedElement) :=
  match els with
  | [] => Some []
  | el :: rest =>
      match scan_element terms blacklistTerms fr el with
      | None => None
      | Some found =>
          match scan_elements terms blacklistTerms fr rest with
          | None => None
          | Some more => Some (found ++ more)
          end
      end
  end.

Definition findMatchingClickableElements (fr : frame) (searchTerms : list str)
    : option (list MatchedElement) :=
  scan_elements (map toLowerCase searchTerms) Config.BLACKLIST_TERMS fr (elements fr).

End Scan.

(** ** The matcher of [integrated.js]

    The older script has a callback of its own for the scan of a frame (the
    first of the two scripts in [find-cancel-elements.js] has the same). *)

Module Integrated.

Import Scan.

Definition SEARCH_TERMS : list str :=
  map lit ["cancel"; "close"; "dismiss"; "reject"; "decline"; "no thanks"]%string.

(** The body of the loop of that callback: the text is not normalized, and
    a term matches where the lower-case text contains it; there is no test
    for long anchors and no blacklist. *)
Definition scan_element (terms : list str) (fr : frame) (el : element)
    : option (list MatchedElement) :=
  if negb (isClickable el) then Some []
  else
    match or_trim (textContent el) (value el) with
    | None => None
    | Some [] => Some []
    | Some text =>
        if existsb (fun t => includes (toLowerCase text) t) terms
        then Some [ {| tag := toLowerCase (tagName el);
                       text := text;
                       x := Qplus (Qplus (rect_left el) (half (rect_width el))) (scrollX fr);
                       y := Qplus (Qplus (rect_top el) (half (rect_height el))) (scrollY fr) |} ]
        else Some []
    end.

Fixpoint scan_elements (terms : list str) (fr : frame) (els : list element)
    : option (list MatchedElement) :=
  match els with
  | [] => Some []
  | el :: rest =>
      match scan_element terms fr el with
      | None => None
      | Some found =>
          match scan_elements terms fr rest with
          | None => None
          | Some more => Some (found ++ more)
          end
      end
  end.

Definition findMatchingClickableElements (fr : frame) (searchTerms : list str)
    : option (list MatchedElement) :=
  scan_elements (map toLowerCase searchTerms) fr (elements fr).

End Integrated.

(** ** The browser: calls, outcomes, traces *)

Module Browser.

Import Scan.

(** The functions the script evaluates in the page. *)
Inductive script : Type :=
  | DismissSlidedown             (* dismissOneSignalSlidedown *)
  | RemoveBell                   (* removeOneSignalBell *)
  | InstallNavBlock              (* clickElements: the click and beforeunload guards *)
  | DispatchClick (text : str)   (* clickElements: a control looked up by text, events on it *)
  | RemoveNavBlock               (* clickElements: the patch flag deleted *)
  | LazyScroll                   (* triggerLazyLoadScroll *)
  | FooterButton                 (* clickBottomFooterButton *)
  | RemoveAds                    (* removeAllGoogleAds, page mode *)
  | ExpandClick                  (* clickExpandableContent: find and click *)
  | ExpandVerify                 (* clickExpandableContent: paragraph count *)
  | ReadMore                     (* clickReadMore *)
  | LayoutFix                    (* transform / overflow / height reset, white background *)
  | Settle                       (* scroll to top and wait a frame *)
  | AntiClip                     (* overflow visible, fixed and sticky to static *)
  | Metrics
  | UserAgent.

(** The calls the script awaits, and its synchronous file-system calls. *)
Inductive op : Type :=
  | Launch | NewPage | SetUserAgent | SetExtraHTTPHeaders | SetViewport
  | Goto (url : str)
  | Evaluate (s : script)
  | ScanFrame (i : nat)          (* frame.$$eval("*", ...) on the i-th frame *)
  | Content                      (* page.content() *)
  | WaitForNetworkIdle
  | Screenshot | EmulateMediaType | Pdf
  | Mkdir
  | WriteFile (name : str)
  | Close.

(** The world outside the script. Calls are numbered in the order the
    script makes them; the world decides whether the [n]-th call rejects,
    what the page holds when it is made, and the truth value it returns. *)
Record world : Type := {
  rejects : nat -> op -> bool;
  frames : nat -> list frame;    (* page.frames() and their documents *)
  truthy : nat -> bool           (* a returned value read as a condition *)
}.

Record state : Type := {
  tick : nat;                    (* calls made so far *)
  trace : list op                (* calls that completed, oldest first *)
}.

Inductive result (A : Type) : Type :=
  | Ok (a : A)
  | Throw.
Arguments Ok {A} a.
Arguments Throw {A}.

Definition M (A : Type) : Type := world -> state -> state * result A.

Definition ret {A} (a : A) : M A := fun _ s => (s, Ok a).

Definition bind {A B} (m : M A) (k : A -> M B) : M B :=
  fun w s =>
    match m w s with
    | (s', Ok a) => k a w s'
    | (s', Throw) => (s', Throw)
    end.

(** [try { body } catch { handler }]. *)
Definition try_catch {A} (body handler : M A) : M A :=
  fun w s =>
    match body w s with
    | (s', Ok a) => (s', Ok a)
    | (s', Throw) => handler w s'
    end.

(** [try { body } finally { cleanup }]. *)
Definition try_finally {A} (body : M A) (cleanup : M unit) : M A :=
  fun w s =>
    match body w s with
    | (s', r) =>
        match cleanup w s' with
        | (s'', Ok _) => (s'', r)
        | (s'', Throw) => (s'', Throw)
        end
    end.

(** One awaited call. *)
Definition call (o : op) : M unit :=
  fun w s =>
    if rejects w (tick s) o
    then ({| tick := S (tick s); trace := trace s |}, Throw)
    else ({| tick := S (tick s); trace := trace s ++ [o] |}, Ok tt).

(** A call whose returned value the script tests. *)
Definition call_truthy (o : op) : M bool :=
  fun w s =>
    if rejects w (tick s) o
    then ({| tick := S (tick s); trace := trace s |}, Throw)
    else ({| tick := S (tick s); trace := trace s ++ [o] |}, Ok (truthy w (tick s))).

(** [promise.catch(() => {})]. *)
Definition swallow (m : M unit) : M unit := try_catch m (ret tt).

Definition get_frames : M (list frame) := fun w s => (s, Ok (frames w (tick s))).

End Browser.

Declare Scope browser_scope.
Delimit Scope browser_scope with browser.
Notation "x <- m ;; k" := (Browser.bind m (fun x => k))
  (at level 100, m at next level, right associativity) : browser_scope.
Notation "m ;; k" := (Browser.bind m (fun _ => k))
  (at level 100, right associativity) : browser_scope.

(** ** Dismissal pass and capture pipeline *)

Module Archiver.

Import Scan Browser.
Local Open Scope browser_scope.

(** [frame.$$eval("*", callback, searchTerms, BLACKLIST_TERMS)] on the
    [i]-th frame: the call rejects when the world says so, when the frame is
    gone, and when the callback throws. *)
Definition scan_frame (i : nat) (searchTerms : list str) : M (list MatchedElement) :=
  fun w s =>
    if rejects w (tick s) (ScanFrame i)
    then ({| tick := S (tick s); trace := trace s |}, Throw)
    else
      match nth_error (frames w (tick s)) i with
      | Some fr =>
          match findMatchingClickableElements fr searchTerms with
          | Some found =>
              ({| tick := S (tick s); trace := trace s ++ [ScanFrame i] |}, Ok found)
          | None => ({| tick := S (tick s); trace := trace s |}, Throw)
          end
      | None => ({| tick := S (tick s); trace := trace s |}, Throw)
      end.

(** The loop of [findAllMatchingElements] over [page.frames()]; a frame that
    throws is skipped. *)
Fixpoint scan_frames (searchTerms : list str) (i : nat) (frs : list frame)
    : M (list MatchedElement) :=
  match frs with
  | [] => ret []
  | _ :: rest =>
      found <- try_catch (scan_frame i searchTerms) (ret []) ;;
      more <- scan_frames searchTerms (S i) rest ;;
      ret (found ++ more)
  end.

Definition findAllMatchingElements (searchTerms : list str) : M (list MatchedElement) :=
  frs <- get_frames ;; scan_frames searchTerms 0 frs.

(** [clickElements]: per element, a long anchor is skipped; otherwise three
    functions are evaluated in the page, one after the other: the one that
    installs the navigation guard, the one that looks for a control with the
    element's text and dispatches pointer and click events on it if there
    is one, and the one that deletes the patch flag. Here they are calls;
    what they do in the page is the subject of [ClickPage] below. A failure
    ends that element only. *)
Fixpoint clickElements (els : list MatchedElement) : M unit :=
  match els with
  | [] => ret tt
  | el :: rest =>
      swallow
        (if str_eqb (tag el) (lit "a") && (15 <? length (text el))%nat
         then ret tt
         else
           call (Evaluate InstallNavBlock) ;;
           call (Evaluate (DispatchClick (text el))) ;;
           call (Evaluate RemoveNavBlock)) ;;
      clickElements rest
  end.

(** The key [clickPopups] deduplicates on: [(el.text || "").trim().toLowerCase()]. *)
Definition text_key (el : MatchedElement) : str := toLowerCase (trim (text el)).

(** The loop that fills [unique], with the set [seen]. *)
Fixpoint unique_loop (seen : gset str) (matches : list MatchedElement)
    : list MatchedElement :=
  match matches with
  | [] => []
  | el :: rest =>
      let key := text_key el in
      if bool_decide (key ∉ seen) && negb (str_eqb key [])
      then el :: unique_loop ({[ key ]} ∪ seen) rest
      else unique_loop seen rest
  end.

Definition unique_by_text (matches : list MatchedElement) : list MatchedElement :=
  unique_loop ∅ matches.

Definition clickPopups : M unit :=
  matches <- findAllMatchingElements Config.SEARCH_TERMS ;;
  match matches with
  | [] => ret tt
  | _ :: _ =>
      match unique_by_text matches with
      | [] => ret tt
      | first :: _ => clickElements [first]
      end
  end.

Definition dismissOneSignalSlidedown : M unit := call (Evaluate DismissSlidedown).
Definition removeOneSignalBell : M unit := call (Evaluate RemoveBell).
Definition triggerLazyLoadScroll : M unit := call (Evaluate LazyScroll).
Definition clickBottomFooterButton : M unit := call (Evaluate FooterButton).
Definition removeAllGoogleAds : M unit := call (Evaluate RemoveAds).

Definition clickExpandableContent : M unit :=
  clicked <- call_truthy (Evaluate ExpandClick) ;;
  if clicked then call (Evaluate ExpandVerify) else ret tt.

Definition clickReadMore : M unit :=
  _ <- call_truthy (Evaluate ReadMore) ;; ret tt.

(** [saveArchive(page, url)]; file names are relative to the archive
    directory. *)
Definition saveArchive : M unit :=
  call Mkdir ;;
  call Content ;;
  call (WriteFile (lit "page_raw.html")) ;;
  dismissOneSignalSlidedown ;;
  removeOneSignalBell ;;
  clickPopups ;;
  triggerLazyLoadScroll ;;
  call Content ;;
  clickBottomFooterButton ;;
  removeAllGoogleAds ;;
  call (WriteFile (lit "page.html")) ;;
  clickExpandableContent ;;
  call (Evaluate LayoutFix) ;;
  call (Evaluate Settle) ;;
  swallow (call WaitForNetworkIdle) ;;
  call Screenshot ;;
  triggerLazyLoadScroll ;;
  swallow (call WaitForNetworkIdle) ;;
  call (Evaluate AntiClip) ;;
  call (Evaluate LayoutFix) ;;
  call SetViewport ;;
  call EmulateMediaType ;;
  call Pdf ;;
  call (Evaluate Metrics) ;;
  call (Evaluate UserAgent) ;;
  call (WriteFile (lit "meta.json")).

(** [runArchive(url)]: [true] when the archive was saved, [false] when
    anything between [newPage] and the end of [saveArchive] threw. *)
Definition runArchive (url : str) : M bool :=
  call Launch ;;
  try_finally
    (try_catch
       (call NewPage ;;
        call SetUserAgent ;;
        call SetExtraHTTPHeaders ;;
        call SetViewport ;;
        call (Goto url) ;;
        clickExpandableContent ;;
        clickReadMore ;;
        clickBottomFooterButton ;;
        removeAllGoogleAds ;;
        saveArchive ;;
        ret true)
       (ret false))
    (call Close).

Definition start : state := {| tick := 0; trace := [] |}.

End Archiver.

(** ** The job queue: [PersistentQueue] *)

Module Queue.

(** A row of table [queue]; the columns the script never writes are left
    out. [status] is a TEXT column. *)
Record row : Type := {
  id : N;
  url : str;
  status : str;
  added_at : Z;
  started_at : option Z;
  completed_at : option Z;
  error_message : option str;
  retry_count : N
}.

(** The table in rowid order, and the counter AUTOINCREMENT keeps for it
    in [sqlite_sequence]: no rowid in use or used before exceeds it. *)
Record db : Type := {
  rows : list row;
  seq : N
}.

Definition pending : str := lit "pending".
Definition processing : str := lit "processing".
Definition completed : str := lit "completed".
Definition failed : str := lit "failed".

(** [INSERT OR IGNORE INTO queue (url,status) VALUES (?, 'pending')] under
    [UNIQUE(url)], and the test of [res.changes]. [now] is CURRENT_TIMESTAMP.
    The rowid is allotted before the uniqueness check, so an ignored insert
    leaves the rows as they are and still advances the counter. *)
Definition addJob (now : Z) (u : str) (d : db) : bool * db :=
  if existsb (fun r => str_eqb (url r) u) (rows d)
  then (false, {| rows := rows d; seq := seq d + 1 |})
  else
    (true,
     {| rows := rows d ++
          [ {| id := seq d + 1; url := u; status := pending; added_at := now;
               started_at := None; completed_at := None;
               error_message := None; retry_count := 0 |} ];
        seq := seq d + 1 |}).

(** [SELECT ... FROM queue WHERE status='pending' ORDER BY key LIMIT 1];
    among equal keys the row met first in rowid order. *)
Fixpoint least_pending (key : row -> Z) (rs : list row) (best : option row)
    : option row :=
  match rs with
  | [] => best
  | r :: rest =>
      if str_eqb (status r) pending then
        match best with
        | Some b =>
            if (key r <? key b)%Z then least_pending key rest (Some r)
            else least_pending key rest best
        | None => least_pending key rest (Some r)
        end
      else least_pending key rest best
  end.

(** [SELECT * FROM queue WHERE status='pending' ORDER BY added_at ASC LIMIT 1]. *)
Definition select_pending (d : db) : option row :=
  least_pending added_at (rows d) None.

Definition update_where (i : N) (f : row -> row) (d : db) : db :=
  {| rows := map (fun r => if id r =? i then f r else r) (rows d); seq := seq d |}.

(** [UPDATE queue SET status='processing', started_at=CURRENT_TIMESTAMP WHERE id=?]. *)
Definition mark_processing (now : Z) (i : N) (d : db) : db :=
  update_where i
    (fun r => {| id := id r; url := url r; status := processing;
                 added_at := added_at r; started_at := Some now;
                 completed_at := completed_at r;
                 error_message := error_message r;
                 retry_count := retry_count r |}) d.

(** [getNextJob()] when nothing runs between its two statements. *)
Definition getNextJob (now : Z) (d : db) : option row * db :=
  match select_pending d with
  | None => (None, d)
  | Some r => (Some r, mark_processing now (id r) d)
  end.

(** [getNextJob()] awaits its SELECT and then its UPDATE; other callers can
    run in between. Where one call stands: *)
Inductive claim_pc : Type :=
  | AtSelect
  | AtUpdate (r : row)
  | Returned (res : option row).

Definition claim_step (now : Z) (d : db) (pc : claim_pc) : db * claim_pc :=
  match pc with
  | AtSelect =>
      match select_pending d with
      | None => (d, Returned None)
      | Some r => (d, AtUpdate r)
      end
  | AtUpdate r => (mark_processing now (id r) d, Returned (Some r))
  | Returned res => (d, Returned res)
  end.

(** Two callers of [getNextJob()] on one database, and a schedule saying
    whose statement runs next ([false]: the first caller). *)
Record claimers : Type := {
  store : db;
  first_caller : claim_pc;
  second_caller : claim_pc
}.

Definition schedule_step (now : Z) (c : claimers) (who : bool) : claimers :=
  if who then
    let '(d, pc) := claim_step now (store c) (second_caller c) in
    {| store := d; first_caller := first_caller c; second_caller := pc |}
  else
    let '(d, pc) := claim_step now (store c) (first_caller c) in
    {| store := d; first_caller := pc; second_caller := second_caller c |}.

Fixpoint run_schedule (now : Z) (sched : list bool) (c : claimers) : claimers :=
  match sched with
  | [] => c
  | who :: rest => run_schedule now rest (schedule_step now c who)
  end.

(** The claim of the sibling worker script ([claimPending]), which runs its
    SELECT ([pickPending], ordered by id) and its UPDATE ([markProcessing],
    on this table: the status alone) inside one [db.transaction]. *)
Definition pickPending (d : db) : option row :=
  least_pending (fun r => Z.of_N (id r)) (rows d) None.

Definition markProcessing (i : N) (d : db) : db :=
  update_where i
    (fun r => {| id := id r; url := url r; status := processing;
                 added_at := added_at r; started_at := started_at r;
                 completed_at := completed_at r;
                 error_message := error_message r;
                 retry_count := retry_count r |}) d.

Definition claimPending (d : db) : option row * db :=
  match pickPending d with
  | None => (None, d)
  | Some r => (Some r, markProcessing (id r) d)
  end.

(** [updateJobStatus(id, status, error = null)]. *)
Definition updateJobStatus (now : Z) (i : N) (st : str) (error : option str)
    (d : db) : db :=
  if str_eqb st completed then
    update_where i
      (fun r => {| id := id r; url := url r; status := st;
                   added_at := added_at r; started_at := started_at r;
                   completed_at := Some now; error_message := error;
                   retry_count := retry_count r |}) d
  else
    update_where i
      (fun r => {| id := id r; url := url r; status := st;
                   added_at := added_at r; started_at := started_at r;
                   completed_at := completed_at r; error_message := error;
                   retry_count := retry_count r |}) d.

(** [SELECT status, COUNT( * ) ... GROUP BY status] into the [stats] object. *)
Definition count_status (st : str) (d : db) : N :=
  N.of_nat (length (filter (fun r => status r = st) (rows d))).

(** [stats[key] = count] on the object literal [stats], whose own keys are
    the map's. The name [__proto__] is the accessor the object inherits, and
    the accessor ignores a number: that assignment writes no own key. *)
Definition set_stat (key : str) (count : N) (stats : gmap str N) : gmap str N :=
  if str_eqb key (lit "__proto__") then stats else <[ key := count ]> stats.

Definition getStats (d : db) : gmap str N :=
  <[ lit "total" := N.of_nat (length (rows d)) ]>
    (foldr (fun r m => set_stat (status r) (count_status (status r) d) m)
       (list_to_map [(lit "total", 0); (pending, 0); (processing, 0);
                     (completed, 0); (failed, 0)])
       (rows d)).

Definition lookup_job (i : N) (d : db) : option row :=
  find (fun r => id r =? i) (rows d).

Definition count_url (u : str) (d : db) : nat :=
  length (filter (fun r => url r = u) (rows d)).

End Queue.

(** ** The worker: [processQueue] *)

Module Worker.

Import Queue.

(** Outcome of [runArchive(job.url)] for the job with a given id: each job
    gets a browser of its own. *)
Definition run_job (worlds : N -> Browser.world) (job : row) : Browser.result bool :=
  snd (Archiver.runArchive (url job) (worlds (id job)) Archiver.start).

(** The loop of [processQueue]; [claim_time k] and [finish_time k] are
    CURRENT_TIMESTAMP at the claim and at the status update of the [k]-th
    iteration. [None]: out of fuel; [Throw]: [runArchive] threw and the loop
    was left with the job still claimed. *)
Fixpoint processQueue_loop (worlds : N -> Browser.world)
    (claim_time finish_time : nat -> Z) (fuel k : nat) (d : db)
    : option (Browser.result unit * db) :=
  match fuel with
  | O => None
  | S fuel' =>
      match getNextJob (claim_time k) d with
      | (None, d1) => Some (Browser.Ok tt, d1)
      | (Some job, d1) =>
          match run_job worlds job with
          | Browser.Throw => Some (Browser.Throw, d1)
          | Browser.Ok ok =>
              let d2 :=
                updateJobStatus (finish_time k) (id job)
                  (if ok then lit "complete" else lit "failed")
                  (if ok then None else Some (lit "Archive failed")) d1 in
              processQueue_loop worlds claim_time finish_time fuel' (S k) d2
          end
      end
  end.

Definition processQueue (worlds : N -> Browser.world)
    (claim_time finish_time : nat -> Z) (d : db)
    : option (Browser.result unit * db) :=
  processQueue_loop worlds claim_time finish_time
    (S (length (filter (fun r => status r = pending) (rows d)))) 0 d.

End Worker.

(** ** MD5 (RFC 1321), as [crypto.createHash("md5")] computes it *)

Module MD5.

Local Open Scope Z_scope.

Definition mask32 (x : Z) : Z := Z.land x 0xFFFFFFFF.
Definition add32 (a b : Z) : Z := mask32 (a + b).
Definition not32 (x : Z) : Z := Z.lxor x 0xFFFFFFFF.
Definition rotl32 (x c : Z) : Z :=
  mask32 (Z.lor (Z.shiftl x c) (Z.shiftr x (32 - c))).

Definition T : list Z :=
  [ 0xd76aa478; 0xe8c7b756; 0x242070db; 0xc1bdceee;
    0xf57c0faf; 0x4787c62a; 0xa8304613; 0xfd469501;
    0x698098d8; 0x8b44f7af; 0xffff5bb1; 0x895cd7be;
    0x6b901122; 0xfd987193; 0xa679438e; 0x49b40821;
    0xf61e2562; 0xc040b340; 0x265e5a51; 0xe9b6c7aa;
    0xd62f105d; 0x02441453; 0xd8a1e681; 0xe7d3fbc8;
    0x21e1cde6; 0xc33707d6; 0xf4d50d87; 0x455a14ed;
    0xa9e3e905; 0xfcefa3f8; 0x676f02d9; 0x8d2a4c8a;
    0xfffa3942; 0x8771f681; 0x6d9d6122; 0xfde5380c;
    0xa4beea44; 0x4bdecfa9; 0xf6bb4b60; 0xbebfbc70;
    0x289b7ec6; 0xeaa127fa; 0xd4ef3085; 0x04881d05;
    0xd9d4d039; 0xe6db99e5; 0x1fa27cf8; 0xc4ac5665;
    0xf4292244; 0x432aff97; 0xab9423a7; 0xfc93a039;
    0x655b59c3; 0x8f0ccc92; 0xffeff47d; 0x85845dd1;
    0x6fa87e4f; 0xfe2ce6e0; 0xa3014314; 0x4e0811a1;
    0xf7537e82; 0xbd3af235; 0x2ad7d2bb; 0xeb86d391 ].

Definition shifts : list Z :=
  [ 7; 12; 17; 22; 7; 12; 17; 22; 7; 12; 17; 22; 7; 12; 17; 22;
    5; 9; 14; 20; 5; 9; 14; 20; 5; 9; 14; 20; 5; 9; 14; 20;
    4; 11; 16; 23; 4; 11; 16; 23; 4; 11; 16; 23; 4; 11; 16; 23;
    6; 10; 15; 21; 6; 10; 15; 21; 6; 10; 15; 21; 6; 10; 15; 21 ].

Definition md5_state : Type := (Z * Z * Z * Z)%type.

Definition md5_init : md5_state :=
  (0x67452301, 0xefcdab89, 0x98badcfe, 0x10325476).

(** Step [i] of the 64 steps on one block of 16 words. *)
Definition md5_step (block : list Z) (st : md5_state) (i : nat) : md5_state :=
  let '(a, b, c, d) := st in
  let iz := Z.of_nat i in
  let '(f, g) :=
    if (i <? 16)%nat then (Z.lor (Z.land b c) (Z.land (not32 b) d), iz)
    else if (i <? 32)%nat then
      (Z.lor (Z.land d b) (Z.land (not32 d) c), (5 * iz + 1) mod 16)
    else if (i <? 48)%nat then (Z.lxor (Z.lxor b c) d, (3 * iz + 5) mod 16)
    else (Z.lxor c (Z.lor b (not32 d)), (7 * iz) mod 16) in
  let f' := add32 (add32 (add32 f a) (nth i T 0)) (nth (Z.to_nat g) block 0) in
  (d, add32 b (rotl32 f' (nth i shifts 0)), b, c).

Definition md5_block (st : md5_state) (block : list Z) : md5_state :=
  let '(a, b, c, d) := st in
  let '(a', b', c', d') := fold_left (md5_step block) (seq 0 64) st in
  (add32 a a', add32 b b', add32 c c', add32 d d').

(** Little-endian bytes of a word, and back. *)
Definition le_bytes (n : nat) (x : Z) : list Z :=
  map (fun k => Z.land (Z.shiftr x (8 * Z.of_nat k)) 0xFF) (seq 0 n).

Fixpoint le_word (bs : list Z) : Z :=
  match bs with
  | [] => 0
  | b :: rest => b + 256 * le_word rest
  end.

Fixpoint words (n : nat) (bs : list Z) : list Z :=
  match n with
  | O => []
  | S n' => le_word (firstn 4 bs) :: words n' (skipn 4 bs)
  end.

Fixpoint blocks (n : nat) (bs : list Z) : list (list Z) :=
  match n with
  | O => []
  | S n' => words 16 (firstn 64 bs) :: blocks n' (skipn 64 bs)
  end.

Definition pad (msg : list Z) : list Z :=
  let len := Z.of_nat (length msg) in
  msg ++ [0x80] ++ repeat 0 (Z.to_nat ((55 - len) mod 64)) ++ le_bytes 8 (8 * len).

Definition md5 (msg : list Z) : list Z :=
  let padded := pad msg in
  let '(a, b, c, d) :=
    fold_left md5_block (blocks (Nat.div (length padded) 64) padded) md5_init in
  le_bytes 4 a ++ le_bytes 4 b ++ le_bytes 4 c ++ le_bytes 4 d.

(** [digest("hex")]. *)
Definition hex_digit (n : Z) : N :=
  if n <? 10 then Z.to_N (48 + n) else Z.to_N (87 + n).

Definition hex_byte (b : Z) : str := [hex_digit (b / 16); hex_digit (b mod 16)].

Definition hex (bs : list Z) : str := flat_map hex_byte bs.

(** The UTF-8 bytes of a JavaScript string, as [hash.update(string)] takes
    them: a surrogate pair is one code point, a lone surrogate is U+FFFD. *)
Definition utf8_point (p : Z) : list Z :=
  if p <? 0x80 then [p]
  else if p <? 0x800 then [0xC0 + p / 64; 0x80 + p mod 64]
  else if p <? 0x10000 then
    [0xE0 + p / 4096; 0x80 + (p / 64) mod 64; 0x80 + p mod 64]
  else
    [0xF0 + p / 262144; 0x80 + (p / 4096) mod 64; 0x80 + (p / 64) mod 64;
     0x80 + p mod 64].

Definition is_high (c : Z) : bool := (0xD800 <=? c) && (c <=? 0xDBFF).
Definition is_low (c : Z) : bool := (0xDC00 <=? c) && (c <=? 0xDFFF).

Fixpoint utf8_units (s : list Z) : list Z :=
  match s with
  | [] => []
  | c :: rest =>
      if is_high c then
        match rest with
        | c' :: rest' =>
            if is_low c'
            then utf8_point (0x10000 + (c - 0xD800) * 1024 + (c' - 0xDC00))
                   ++ utf8_units rest'
            else utf8_point 0xFFFD ++ utf8_units rest
        | [] => utf8_point 0xFFFD
        end
      else if is_low c then utf8_point 0xFFFD ++ utf8_units rest
      else utf8_point c ++ utf8_units rest
  end.

Definition utf8 (s : str) : list Z := utf8_units (map Z.of_N s).

Definition md5_hex (s : str) : str := hex (md5 (utf8 s)).

End MD5.

(** ** Archive identity: [normalizeUrl], [slugifyTitle], [md5Hash], [makeArchiveId] *)

Module ArchiveId.

(** The part of the runtime's [URL] class that [normalizeUrl] uses. *)
Record URLClass : Type := {
  URL : Type;
  URL_new : str -> option URL;          (* new URL(s); None: it throws TypeError *)
  set_hash_empty : URL -> URL;          (* u.hash = "" *)
  set_search_empty : URL -> URL;        (* u.search = "" *)
  URL_toString : URL -> str;            (* u.toString() *)
  URL_hash : URL -> str;                (* u.hash *)
  URL_search : URL -> str               (* u.search *)
}.

Section WithURL.

Context (U : URLClass).

(** The URL objects a program can hold: made by the constructor, changed by
    the two setters. *)
Inductive built : URL U -> Prop :=
  | built_new s u : URL_new U s = Some u -> built u
  | built_hash u : built u -> built (set_hash_empty U u)
  | built_search u : built u -> built (set_search_empty U u).

(** What the URL Standard guarantees of these objects. *)
Record URLLaws : Prop := {
  parse_toString : forall u, built u -> URL_new U (URL_toString U u) = Some u;
  toString_trimmed : forall u, built u -> trim (URL_toString U u) = URL_toString U u;
  hash_set_hash : forall u, built u -> URL_hash U (set_hash_empty U u) = [];
  search_set_search : forall u, built u -> URL_search U (set_search_empty U u) = [];
  hash_set_search : forall u, built u ->
    URL_hash U (set_search_empty U u) = URL_hash U u;
  set_hash_idem : forall u, built u ->
    set_hash_empty U (set_hash_empty U u) = set_hash_empty U u;
  set_search_idem : forall u, built u ->
    set_search_empty U (set_search_empty U u) = set_search_empty U u;
  set_hash_search : forall u, built u ->
    set_hash_empty U (set_search_empty U u) = set_search_empty U (set_hash_empty U u)
}.

Definition normalizeUrl (rawUrl : str) : str :=
  match URL_new U (trim rawUrl) with
  | Some u => URL_toString U (set_search_empty U (set_hash_empty U u))
  | None => trim rawUrl
  end.

Definition slug_unit (c : N) : bool := is_lower c || is_digit c || (c =? 45).

(** [s.replace(/[^a-z0-9\-]+/g, "-")]. *)
Fixpoint dash_runs (s : str) : str :=
  match s with
  | [] => []
  | c :: r =>
      if slug_unit c then c :: dash_runs r
      else
        match r with
        | c' :: _ => if slug_unit c' then 45 :: dash_runs r else dash_runs r
        | [] => [45]
        end
  end.

Fixpoint drop_dashes (s : str) : str :=
  match s with
  | c :: r => if c =? 45 then drop_dashes r else s
  | [] => []
  end.

(** [s.replace(/^-+|-+$/g, "")]. *)
Definition strip_dashes (s : str) : str := rev (drop_dashes (rev (drop_dashes s))).

Definition slugifyTitle (title : str) : str :=
  match title with
  | [] => lit "untitled"
  | _ :: _ => strip_dashes (dash_runs (toLowerCase title))
  end.

Definition md5Hash (input : str) (length : nat) : str :=
  firstn length (MD5.md5_hex input).

Definition makeArchiveId (url title : str) : str :=
  let normalized := normalizeUrl url in
  let urlHash := md5Hash normalized 8 in
  let slug := slugifyTitle title in
  slug ++ lit "_" ++ urlHash.

End WithURL.

(** [[0-9a-f]]. *)
Definition is_lower_hex (c : N) : bool := is_digit c || ((97 <=? c) && (c <=? 102)).

(** *** A small implementation of the interface

    It accepts [scheme:rest?query#fragment] written in printable ASCII
    without spaces, after stripping what the URL parser strips at the two
    ends, and keeps the four parts as they are, the scheme in lower case. It
    is here to run the definitions above and to show the laws consistent. *)

Record simple_url : Type := {
  scheme : str;
  rest : str;
  query : option str;
  fragment : option str
}.

Definition is_c0_space (c : N) : bool := c <=? 32.

Fixpoint strip_c0_start (s : str) : str :=
  match s with
  | c :: r => if is_c0_space c then strip_c0_start r else s
  | [] => []
  end.

Definition strip_c0 (s : str) : str := rev (strip_c0_start (rev (strip_c0_start s))).

Definition printable (c : N) : bool := (33 <=? c) && (c <=? 126).

Definition is_alpha (c : N) : bool := is_upper c || is_lower c.

Definition scheme_unit (c : N) : bool :=
  is_alpha c || is_digit c || (c =? 43) || (c =? 45) || (c =? 46).

(** Split at the first unit satisfying [p]. *)
Fixpoint break_at (p : N -> bool) (s : str) : str * option str :=
  match s with
  | [] => ([], None)
  | c :: r =>
      if p c then ([], Some r)
      else let '(a, b) := break_at p r in (c :: a, b)
  end.

Definition simple_parse (s : str) : option simple_url :=
  let s := strip_c0 s in
  if negb (forallb printable s) then None
  else
    match break_at (fun c => c =? 58) s with
    | (sch, Some after) =>
        match sch with
        | c :: _ =>
            if is_alpha c && forallb scheme_unit sch then
              let '(before, frag) := break_at (fun c => c =? 35) after in
              let '(path, qry) := break_at (fun c => c =? 63) before in
              Some {| scheme := toLowerCase sch; rest := path;
                      query := qry; fragment := frag |}
            else None
        | [] => None
        end
    | (_, None) => None
    end.

Definition simple_toString (u : simple_url) : str :=
  scheme u ++ [58] ++ rest u
  ++ match query u with Some q => 63 :: q | None => [] end
  ++ match fragment u with Some f => 35 :: f | None => [] end.

Definition simple_part (mark : N) (o : option str) : str :=
  match o with
  | Some (c :: r) => mark :: c :: r
  | _ => []
  end.

Definition SimpleURL : URLClass := {|
  URL := simple_url;
  URL_new := simple_parse;
  set_hash_empty := fun u =>
    {| scheme := scheme u; rest := rest u; query := query u; fragment := None |};
  set_search_empty := fun u =>
    {| scheme := scheme u; rest := rest u; query := None; fragment := fragment u |};
  URL_toString := simple_toString;
  URL_hash := fun u => simple_part 35 (fragment u);
  URL_search := fun u => simple_part 63 (query u)
|}.

End ArchiveId.

(** *** Auxiliary notions for the proofs about the small URL implementation *)

Module ArchiveIdAux.

Import ArchiveId.

(** The records the small parser builds. *)
Definition simple_wf (u : simple_url) : Prop :=
  match scheme u with c :: _ => is_alpha c = true | [] => False end /\
  forallb scheme_unit (scheme u) = true /\
  toLowerCase (scheme u) = scheme u /\
  forallb printable (simple_toString u) = true /\
  forallb (fun c => negb (c =? 63)) (rest u) = true /\
  forallb (fun c => negb (c =? 35)) (rest u) = true /\
  match query u with Some q => forallb (fun c => negb (c =? 35)) q = true | None => True end.

End ArchiveIdAux.

Import ArchiveIdAux.

(** *** Notions the statements about the queue use *)

Module QueueSpec.

Import Queue.

(** The statements a client of the queue can run against the table. *)
Inductive queue_op : Type :=
  | Add (now : Z) (u : str)                              (* addJob *)
  | Claim (now : Z)                                      (* getNextJob *)
  | Mark (now : Z) (i : N)                               (* the UPDATE of getNextJob alone *)
  | Update (now : Z) (i : N) (st : str) (error : option str).  (* updateJobStatus *)

Definition apply_op (d : db) (o : queue_op) : db :=
  match o with
  | Add now u => snd (addJob now u d)
  | Claim now => snd (getNextJob now d)
  | Mark now i => mark_processing now i d
  | Update now i st error => updateJobStatus now i st error d
  end.

Definition apply_ops (d : db) (ops : list queue_op) : db := fold_left apply_op ops d.

Definition terminal (r : row) : Prop := status r = completed \/ status r = failed.

(** What [updateJobStatus] writes into a row. *)
Definition with_status (now : Z) (st : str) (error : option str) (r : row) : row :=
  {| id := id r; url := url r; status := st; added_at := added_at r;
     started_at := started_at r;
     completed_at := if str_eqb st completed then Some now else completed_at r;
     error_message := error; retry_count := retry_count r |}.

Definition pending_count (d : db) : nat :=
  length (filter (fun r => status r = pending) (rows d)).

End QueueSpec.

Import QueueSpec.

(** ** Worlds and tables to run the definitions on *)

Module Samples.

Import Browser Queue.

(** Every call succeeds, the page has no frames, every tested value is falsy. *)
Definition quiet : world :=
  {| rejects := fun _ _ => false; frames := fun _ => []; truthy := fun _ => false |}.

(** As [quiet], except that the page function of [removeAllGoogleAds] throws. *)
Definition ads_throw : world :=
  {| rejects := fun _ o => match o with Evaluate RemoveAds => true | _ => false end;
     frames := fun _ => [];
     truthy := fun _ => false |}.

(** As [quiet], except that the page function of [removeAllGoogleAds]
    throws when [saveArchive] calls it: that is the 19th call of the run. *)
Definition ads_throw_late : world :=
  {| rejects := fun n o =>
       match o with Evaluate RemoveAds => (18 <=? n)%nat | _ => false end;
     frames := fun _ => [];
     truthy := fun _ => false |}.

(** One job, submitted at time 10. *)
Definition one_pending : db :=
  snd (addJob 10 (lit "https://example.com/a") {| rows := []; seq := 0 |}).

(** One job, claimed at 11 and completed at 12. *)
Definition one_completed : db :=
  updateJobStatus 12 1 completed None (snd (getNextJob 11 one_pending)).

End Samples.

(** *** Notions the statements about the dismissal pass and the pipeline use *)

Module ArchiverSpec.

Import Browser.

(** The texts the completed dispatch calls of a trace were given. *)
Definition dispatched (tr : list op) : list str :=
  flat_map (fun o => match o with Evaluate (DispatchClick t) => [t] | _ => [] end) tr.

Definition is_scan (o : op) : bool :=
  match o with ScanFrame _ => true | _ => false end.

(** The calls that change the document: dismissal, removal, expansion
    clicks, style resets. *)
Definition mutates (o : op) : bool :=
  match o with
  | Evaluate DismissSlidedown | Evaluate RemoveBell | Evaluate (DispatchClick _)
  | Evaluate FooterButton | Evaluate RemoveAds | Evaluate ExpandClick
  | Evaluate ReadMore | Evaluate LayoutFix | Evaluate AntiClip => true
  | _ => false
  end.

(** The ordering of the specification, on a trace: there are positions
    [raw < html < shot < pdf] holding the serialization of the raw HTML, the
    serialization of the sanitized HTML, the screenshot and the PDF, such
    that every call that changes the document lies strictly between [raw]
    and [html]. *)
Definition ordering_as_stated (tr : list op) : Prop :=
  exists raw html shot pdf : nat,
    nth_error tr raw = Some Content /\
    nth_error tr html = Some Content /\
    nth_error tr shot = Some Screenshot /\
    nth_error tr pdf = Some Pdf /\
    (raw < html)%nat /\ (html < shot)%nat /\ (shot < pdf)%nat /\
    forall j o, nth_error tr j = Some o -> mutates o = true ->
                (raw < j)%nat /\ (j < html)%nat.

(** The two visual captures. *)
Definition is_capture (o : op) : bool :=
  match o with Screenshot | Pdf => true | _ => false end.

(** The calls one dismissal pass appends after its scan. *)
Definition click_events (t : str) : list (list op) :=
  [ [];
    [Evaluate InstallNavBlock];
    [Evaluate InstallNavBlock; Evaluate (DispatchClick t)];
    [Evaluate InstallNavBlock; Evaluate (DispatchClick t); Evaluate RemoveNavBlock] ].

(** The calls of [clickPopups]. *)
Definition popup_op (o : op) : bool :=
  match o with
  | ScanFrame _ | Evaluate InstallNavBlock | Evaluate (DispatchClick _)
  | Evaluate RemoveNavBlock => true
  | _ => false
  end.

(** The calls a completed [saveArchive] appends, given what its dismissal
    pass, its expansion stage and its two waits for network idle appended. *)
Definition saveArchive_events (dismissal expand idle1 idle2 : list op) : list op :=
  [Mkdir; Content; WriteFile (lit "page_raw.html");
   Evaluate DismissSlidedown; Evaluate RemoveBell]
  ++ dismissal
  ++ [Evaluate LazyScroll; Content; Evaluate FooterButton; Evaluate RemoveAds;
      WriteFile (lit "page.html")]
  ++ expand
  ++ [Evaluate LayoutFix; Evaluate Settle]
  ++ idle1
  ++ [Screenshot; Evaluate LazyScroll]
  ++ idle2
  ++ [Evaluate AntiClip; Evaluate LayoutFix; SetViewport; EmulateMediaType; Pdf;
      Evaluate Metrics; Evaluate UserAgent; WriteFile (lit "meta.json")].

End ArchiverSpec.

Import ArchiverSpec.

(** *** Notions the statements about whole tables use *)

Module QueueAux.

Import Queue.

(** The table [init] creates. *)
Definition empty : db := {| rows := []; seq := 0 |}.

(** What the schema promises of a table: [id] is a primary key handed out
    by AUTOINCREMENT, [url] is UNIQUE. *)
Definition well_formed (d : db) : Prop :=
  NoDup (map id (rows d)) /\ NoDup (map url (rows d)) /\
  Forall (fun r => 0 < id r <= seq d) (rows d).

(** The row [addJob] inserts. *)
Definition fresh_row (now : Z) (i : N) (u : str) : row :=
  {| id := i; url := u; status := pending; added_at := now;
     started_at := None; completed_at := None;
     error_message := None; retry_count := 0 |}.

(** What the UPDATE of [getNextJob] writes into a row. *)
Definition claimed (now : Z) (r : row) : row :=
  {| id := id r; url := url r; status := processing; added_at := added_at r;
     started_at := Some now; completed_at := completed_at r;
     error_message := error_message r; retry_count := retry_count r |}.

(** The keys the [stats] object starts with. *)
Definition known_statuses : list str := [pending; processing; completed; failed].

End QueueAux.

Import QueueAux.

(** *** Notions the statements about the worker use *)

Module WorkerSpec.

Import Queue.

(** What an iteration of [processQueue] that ran to its end leaves of the
    row [r] it claimed at time [t]. *)
Definition finished (worlds : N -> Browser.world) (r r' : row) : Prop :=
  exists (t : Z) (ok : bool),
    Worker.run_job worlds r = Browser.Ok ok /\
    r' = {| id := id r; url := url r;
            status := if ok then lit "complete" else lit "failed";
            added_at := added_at r; started_at := Some t;
            completed_at := completed_at r;
            error_message := if ok then None else Some (lit "Archive failed");
            retry_count := retry_count r |}.

(** One finished iteration, row by row. *)
Definition iteration_step (worlds : N -> Browser.world) (x y : row) : Prop :=
  y = x \/ (status x = pending /\ finished worlds x y).

(** The statements that submit and hand out jobs. *)
Definition add_or_claim (o : queue_op) : bool :=
  match o with
  | Add _ _ | Claim _ => true
  | _ => false
  end.

End WorkerSpec.

Import WorkerSpec.

(** ** Further worlds to run the definitions on *)

Module Cases.

Import Browser.

(** As [Samples.quiet], except that the browser cannot be launched. *)
Definition launch_fails : world :=
  {| rejects := fun _ o => match o with Launch => true | _ => false end;
     frames := fun _ => [];
     truthy := fun _ => false |}.

End Cases.

(** *** Notions the statements about whole runs use *)

Module PipelineSpec.

Import Scan Browser.

(** The calls that leave a file in the archive directory. *)
Definition is_artifact (o : op) : bool :=
  match o with
  | WriteFile _ | Screenshot | Pdf => true
  | _ => false
  end.

Definition artifacts (tr : list op) : list op := List.filter is_artifact tr.

(** The files of a complete archive, in the order [saveArchive] writes them. *)
Definition all_artifacts : list op :=
  [WriteFile (lit "page_raw.html"); WriteFile (lit "page.html"); Screenshot; Pdf;
   WriteFile (lit "meta.json")].

(** Starting and ending the browser. *)
Definition is_session (o : op) : bool :=
  match o with
  | Launch | Close => true
  | _ => false
  end.

(** Whatever the world does, [m] appends to the trace, and only calls that
    satisfy [P]. *)
Definition emits {A} (P : op -> bool) (m : M A) : Prop :=
  forall w s, exists evs,
    trace (fst (m w s)) = trace s ++ evs /\ forallb P evs = true.

(** Whatever the world does, a run of [m] that returns has written the
    artifacts [post], and one that throws has written some of them, in
    order from the first. *)
Definition writes {A} (m : M A) (post : list op) : Prop :=
  forall w s, exists evs,
    trace (fst (m w s)) = trace s ++ evs /\
    match snd (m w s) with
    | Ok _ => artifacts evs = post
    | Throw => exists rest, post = artifacts evs ++ rest
    end.

(** As [writes], and a run that throws has not written the last of [post]. *)
Definition writes_all {A} (m : M A) (post : list op) : Prop :=
  forall w s, exists evs,
    trace (fst (m w s)) = trace s ++ evs /\
    match snd (m w s) with
    | Ok _ => artifacts evs = post
    | Throw => exists rest, rest <> [] /\ post = artifacts evs ++ rest
    end.

(** [m] returns no value but [v]. *)
Definition returns_only {A} (v : A) (m : M A) : Prop :=
  forall w s a, snd (m w s) = Ok a -> a = v.

(** The test of [clickElements] for an anchor it does not click. *)
Definition long_anchor (el : MatchedElement) : bool :=
  str_eqb (tag el) (lit "a") && (15 <? length (text el))%nat.

(** The calls of [clickElements]. *)
Definition click_op (o : op) : bool :=
  match o with
  | Evaluate InstallNavBlock | Evaluate (DispatchClick _)
  | Evaluate RemoveNavBlock => true
  | _ => false
  end.

(** Every dispatch call comes directly after a call that installs the
    navigation guard; [prev] is the call before the list. *)
Fixpoint guarded (prev : option op) (evs : list op) : bool :=
  match evs with
  | [] => true
  | o :: rest =>
      match o with
      | Evaluate (DispatchClick _) =>
          match prev with
          | Some (Evaluate InstallNavBlock) => true
          | _ => false
          end
      | _ => true
      end && guarded (Some o) rest
  end.

End PipelineSpec.

Import PipelineSpec.

(** *** Notions the statements about the scan use *)

Module ScanSpec.

Import Matcher Scan.

(** The text the callback reads off an element, when reading it does not
    throw. *)
Definition element_text (el : element) : option str :=
  or_trim (textContent el) (value el).

(** An element on which the callback throws: a clickable one with no text
    of its own and a number other than zero for its value. *)
Definition trims_number (el : element) : bool :=
  isClickable el &&
  match textContent el, value el with
  | [], VNumber q => negb (Qnum q =? 0)%Z
  | _, _ => false
  end.

(** The names and texts of the element are within the blocks on which
    [toLowerCase] is modelled. *)
Definition latin1_element (el : element) : bool :=
  latin1 (tagName el) && latin1 (textContent el) &&
  match value el with VString v => latin1 v | _ => true end.

(** The RegExp constructor accepts the pattern of the term, or the term is
    short enough not to need one. *)
Definition term_compiles (term : str) : bool :=
  let t := trim (toLowerCase term) in
  (N.of_nat (length t) <=? 3)
  || match compile (pattern_source t) with Some _ => true | None => false end.

(** What the callback has checked of an element before it reports it. *)
Definition reported (terms blacklistTerms : list str)
    (el : element) (m : MatchedElement) : Prop :=
  isClickable el = true /\
  tag m = toLowerCase (tagName el) /\
  element_text el = Some (text m) /\
  text m <> [] /\
  (tag m = lit "a" -> (length (trim (textContent el)) <= 20)%nat) /\
  some_term (normalize (text m)) terms = Some true /\
  (forall bad, In bad blacklistTerms ->
     includes (toLowerCase (text m)) (toLowerCase bad) = false).

End ScanSpec.

Import ScanSpec.

(** *** Sample documents *)

Module Pages.

Import Scan Browser.

(** An element with the given tag name and text, focusable, without a
    value, at the origin. *)
Definition control (name txt : string) : element :=
  {| tagName := lit name; has_onclick := false; role := None; tabIndex := 0;
     textContent := lit txt; value := VUndefined;
     rect_left := Qmake 0 1; rect_top := Qmake 0 1;
     rect_width := Qmake 0 1; rect_height := Qmake 0 1 |}.

(** A focusable element without text whose value is the number [n], as an
    [li] with a [tabindex] has. *)
Definition numbered_item (name : string) (n : Z) : element :=
  {| tagName := lit name; has_onclick := false; role := None; tabIndex := 0;
     textContent := []; value := VNumber (Qmake n 1);
     rect_left := Qmake 0 1; rect_top := Qmake 0 1;
     rect_width := Qmake 0 1; rect_height := Qmake 0 1 |}.

Definition document (els : list element) : frame :=
  {| elements := els; scrollX := Qmake 0 1; scrollY := Qmake 0 1 |}.


End Pages.

(** *** The click of a dismissal pass, as the specification words it *)

Module PopupSpec.

Import Scan Browser Archiver ArchiverSpec.


End PopupSpec.


(** ** The resuming worker of [puppeteer-archiver.mjs]

    The worker of the sibling script, on the table [PersistentQueue]
    creates, which has none of the optional columns ([tries], [last_error],
    [outdir], [archived_at]) its statements test for. *)

Module Resume.

Import Queue.

Definition set_status (st : str) (r : row) : row :=
  {| id := id r; url := url r; status := st; added_at := added_at r;
     started_at := started_at r; completed_at := completed_at r;
     error_message := error_message r; retry_count := retry_count r |}.

(** [UPDATE queue SET status='completed' WHERE id=?]. *)
Definition markCompleted (i : N) (d : db) : db := update_where i (set_status completed) d.

(** [UPDATE queue SET status='failed' WHERE id=?]. *)
Definition markFailed (i : N) (d : db) : db := update_where i (set_status failed) d.

(** [SELECT id, url FROM queue WHERE status='processing' ORDER BY id LIMIT 1]. *)
Fixpoint least_processing (rs : list row) (best : option row) : option row :=
  match rs with
  | [] => best
  | r :: rest =>
      if str_eqb (status r) processing then
        match best with
        | Some b =>
            if id r <? id b then least_processing rest (Some r)
            else least_processing rest best
        | None => least_processing rest (Some r)
        end
      else least_processing rest best
  end.

Definition pickProcessing (d : db) : option row := least_processing (rows d) None.

(** The options the loop reads; [limit] is [None] for [null] and for the
    NaN of an unreadable number, both falsy. *)
Record args : Type := {
  limit : option Z;
  mode : str;
  noClaim : bool
}.

(** [args.limit && handled >= args.limit]. *)
Definition limit_reached (a : args) (handled : nat) : bool :=
  match limit a with
  | Some l => negb (l =? 0)%Z && (l <=? Z.of_nat handled)%Z
  | None => false
  end.

(** The row an iteration works on: a row left processing, in the modes
    [processing] and [auto]; otherwise, unless the mode is [processing] or
    claiming is off, the next pending row, claimed. *)
Definition next_row (a : args) (d : db) : option row * db :=
  match
    (if str_eqb (mode a) (lit "processing") || str_eqb (mode a) (lit "auto")
     then pickProcessing d else None)
  with
  | Some r => (Some r, d)
  | None =>
      if negb (str_eqb (mode a) (lit "processing")) && negb (noClaim a)
      then claimPending d
      else (None, d)
  end.

(** The [while (true)] loop of the database mode. [archiveOne k u] is the
    outcome of [archiveOne(browser, u)] after [k] handled items: [Ok ok] for
    the field [ok] of what it returns, [Throw] when it throws (making the
    directory or opening the page failed). The result is the final value of
    [handled], or [Throw] when the loop was left by the exception. *)
Fixpoint db_loop (archiveOne : nat -> str -> Browser.result bool) (a : args)
    (fuel handled : nat) (d : db) : option (Browser.result nat * db) :=
  match fuel with
  | O => None
  | S fuel' =>
      match next_row a d with
      | (None, d1) => Some (Browser.Ok handled, d1)
      | (Some r, d1) =>
          match archiveOne handled (url r) with
          | Browser.Throw => Some (Browser.Throw, d1)
          | Browser.Ok ok =>
              let d2 := if ok then markCompleted (id r) d1 else markFailed (id r) d1 in
              if limit_reached a (S handled) then Some (Browser.Ok (S handled), d2)
              else db_loop archiveOne a fuel' (S handled) d2
          end
      end
  end.

(** A row that still asks for work. *)
Definition is_active (r : row) : bool :=
  str_eqb (status r) pending || str_eqb (status r) processing.

Definition active_count (d : db) : nat := length (List.filter is_active (rows d)).

Definition db_main (archiveOne : nat -> str -> Browser.result bool) (a : args)
    (d : db) : option (Browser.result nat * db) :=
  db_loop archiveOne a (S (active_count d)) 0 d.

(** The defaults of [parseArgs]. *)
Definition default_args : args := {| limit := None; mode := lit "auto"; noClaim := false |}.

(** What a handled item leaves of its row. *)
Definition settled (x y : row) : Prop :=
  y = x \/
  (is_active x = true /\ (y = set_status completed x \/ y = set_status failed x)).

(** What handling a row that was left processing leaves of it. *)
Definition resumed (x y : row) : Prop :=
  y = x \/
  (status x = processing /\ (y = set_status completed x \/ y = set_status failed x)).

End Resume.

(** *** Notions the statements about archive names use *)

Module NameSpec.

(** A unit of an archive identifier: [[a-z0-9_-]]. Neither a path
    separator, nor a dot, nor white space. *)
Definition name_unit (c : N) : bool := ArchiveId.slug_unit c || (c =? 95).

End NameSpec.

Import NameSpec.

(** ** The page function of [triggerLazyLoadScroll]

    [for (let y = 0; y < totalHeight; y += viewport / 2) window.scrollTo(0, y)]
    and the final [window.scrollTo(0, 0)]. [document.body.scrollHeight] and
    [window.innerHeight] are non-negative integers, so every [y] is a whole
    number of half pixels; positions are counted in half pixels. *)

Module LazyScroll.

(** The arguments of the calls of [scrollTo], in order; [None] when the
    loop has not ended within [fuel] iterations. [y2] is twice [y]. *)
Fixpoint scroll_loop (fuel : nat) (totalHeight viewport y2 : N) : option (list N) :=
  match fuel with
  | O => None
  | S fuel' =>
      if y2 <? 2 * totalHeight
      then cons y2 <$> scroll_loop fuel' totalHeight viewport (y2 + viewport)
      else Some [0]
  end.

Definition scroll_positions (fuel : nat) (totalHeight viewport : N) : option (list N) :=
  scroll_loop fuel totalHeight viewport 0.

End LazyScroll.

(** ** File sizes for the log: [humanFileSize]

    [bytes] is the size [fs.statSync] reports, a non-negative integer below
    2^53. Dividing it by a power of two is exact, so [toFixed(1)] rounds the
    true quotient to the nearest tenth, upwards at a tie. *)

Module HumanSize.

(** [String(n)] for a non-negative integer. *)
Definition decimal (n : N) : str :=
  lit (DecimalString.NilZero.string_of_uint (N.to_uint n)).

(** The number of tenths [(bytes / unit).toFixed(1)] shows. *)
Definition tenths (bytes unit : N) : N := (10 * bytes + unit / 2) / unit.

(** [(bytes / unit).toFixed(1)]. *)
Definition toFixed1 (bytes unit : N) : str :=
  decimal (tenths bytes unit / 10) ++ lit "." ++ decimal (tenths bytes unit mod 10).

Definition humanFileSize (bytes : N) : str :=
  if bytes <? 1024 then decimal bytes ++ lit " B"
  else if bytes <? 1048576 then toFixed1 bytes 1024 ++ lit " KB"
  else toFixed1 bytes 1048576 ++ lit " MB".

End HumanSize.

(** ** Directory names of the resuming worker: [slugFromUrl] of
    [puppeteer-archiver.mjs] *)

Module PageSlug.

Import ArchiveId.

Definition is_alnum (c : N) : bool := is_upper c || is_lower c || is_digit c.

(** [s.replace(/https?:\/\//, "")]: the first occurrence goes. *)
Fixpoint remove_scheme (s : str) : str :=
  match s with
  | [] => []
  | c :: r =>
      if starts_with (lit "https://") s then skipn 8 s
      else if starts_with (lit "http://") s then skipn 7 s
      else c :: remove_scheme r
  end.

(** [s.replace(/[^a-z0-9]+/gi, "-")]. *)
Fixpoint dash_non_alnum (s : str) : str :=
  match s with
  | [] => []
  | c :: r =>
      if is_alnum c then c :: dash_non_alnum r
      else
        match r with
        | c' :: _ => if is_alnum c' then 45 :: dash_non_alnum r else dash_non_alnum r
        | [] => [45]
        end
  end.

Section WithParts.

(** [const { hostname, pathname } = new URL(u)]; [None] when the
    constructor throws. *)
Context (URL_parts : str -> option (str * str)).

Definition slugFromUrl (u : str) : str :=
  match URL_parts u with
  | None => lit "page"
  | Some (hostname, pathname) =>
      let s :=
        toLowerCase
          (strip_dashes (dash_non_alnum (remove_scheme (hostname ++ pathname)))) in
      match firstn 80 s with
      | [] => lit "page"
      | c :: r => c :: r
      end
  end.

End WithParts.

(** Two adjacent dashes somewhere in a string. *)
Definition has_double_dash (s : str) : Prop := exists a b, s = a ++ 45 :: 45 :: b.

End PageSlug.

(** ** The title of an archive: [slugFromUrl] of the archiver *)

Module UrlSlug.

(** [s.split("/")], for the separator [sep]. *)
Fixpoint split_on (sep : N) (s : str) : list str :=
  match s with
  | [] => [[]]
  | c :: r =>
      if c =? sep then [] :: split_on sep r
      else
        match split_on sep r with
        | t :: ts => (c :: t) :: ts
        | [] => [[c]]
        end
  end.

(** [Boolean(p)] on a string. *)
Definition non_empty (p : str) : bool :=
  match p with
  | [] => false
  | _ :: _ => true
  end.

Definition skip : list str := map lit ["news"; "article"; "post"; "view"; "en"]%string.

(** [ps.join(sep)]. *)
Fixpoint join (sep : str) (ps : list str) : str :=
  match ps with
  | [] => []
  | p :: rest =>
      match rest with
      | [] => p
      | _ :: _ => p ++ sep ++ join sep rest
      end
  end.

(** [[\w\s-]]: what the first replacement keeps. *)
Definition keeps (c : N) : bool := is_word c || is_space c || (c =? 45).

(** [s.replace(/-+/g, "-")]. *)
Fixpoint squeeze_dashes (s : str) : str :=
  match s with
  | [] => []
  | c :: r =>
      if (c =? 45) && match r with c' :: _ => c' =? 45 | [] => false end
      then squeeze_dashes r
      else c :: squeeze_dashes r
  end.

Definition drop_one_dash (s : str) : str :=
  match s with
  | c :: r => if c =? 45 then r else s
  | [] => []
  end.

(** [s.replace(/^-|-$/g, "")]. *)
Definition trim_one_dash (s : str) : str :=
  rev (drop_one_dash (rev (drop_one_dash s))).

Section WithParts.

(** [new URL(url)] read through [hostname] and [pathname]; [None] when the
    constructor throws. *)
Context (URL_parts : str -> option (str * str)).

Definition slugFromUrl (url : str) : str :=
  match URL_parts url with
  | None => lit "untitled"
  | Some (hostname, pathname) =>
      let parts := List.filter non_empty (split_on 47 pathname) in
      match parts with
      | [] => hostname
      | _ :: _ =>
          let filtered :=
            List.filter (fun p => negb (existsb (str_eqb (toLowerCase p)) skip)) parts in
          let joined :=
            match join (lit "-") filtered with
            | [] => hostname
            | c :: r => c :: r
            end in
          trim_one_dash (squeeze_dashes (List.filter keeps joined))
      end
  end.

End WithParts.

End UrlSlug.

(** *** Claims one after another *)

Module ClaimSpec.

Import Queue.

(** [n] calls of [getNextJob], one after the other, at the times [now k]:
    the rows they returned, oldest call first, and the table they leave.
    The calls after one that returns null return null as well. *)
Fixpoint next_jobs (now : nat -> Z) (n k : nat) (d : db) : list row * db :=
  match n with
  | O => ([], d)
  | S n' =>
      match getNextJob (now k) d with
      | (None, d1) => ([], d1)
      | (Some r, d1) =>
          let '(rs, d') := next_jobs now n' (S k) d1 in (r :: rs, d')
      end
  end.

(** [n] calls of [claimPending], one after the other. *)
Fixpoint claims (n : nat) (d : db) : list row * db :=
  match n with
  | O => ([], d)
  | S n' =>
      match claimPending d with
      | (None, d1) => ([], d1)
      | (Some r, d1) => let '(rs, d') := claims n' d1 in (r :: rs, d')
      end
  end.

End ClaimSpec.

Import ClaimSpec.

(** ** The command line of the resuming worker: [parseArgs] *)

Module Cli.

Import ArchiveId.

(** The object [parseArgs] fills. A field that is [undefined] is [None];
    [limit] is [None] for [null] and for NaN, which the script does not
    tell apart. *)
Record cli : Type := {
  positional : list str;         (* args._ *)
  file : option str;
  db : option str;
  limit : option Z;
  mode : str;
  noClaim : bool;
  drain : bool
}.

Definition defaults : cli :=
  {| positional := []; file := None; db := None; limit := None;
     mode := lit "auto"; noClaim := false; drain := false |}.

(** The decimal digits at the start of [s], read as a number; [acc] is what
    has been read. *)
Fixpoint digits_prefix (s : str) (acc : option N) : option N :=
  match s with
  | c :: r =>
      if is_digit c
      then digits_prefix r
             (Some (10 * match acc with Some n => n | None => 0 end + (c - 48)))
      else acc
  | [] => acc
  end.

(** [parseInt(s, 10)], for numbers below 2^53; [None] is NaN. *)
Definition parseInt (s : str) : option Z :=
  match trimStart s with
  | c :: r =>
      if c =? 45 then (fun n => Z.opp (Z.of_N n)) <$> digits_prefix r None
      else if c =? 43 then Z.of_N <$> digits_prefix r None
      else Z.of_N <$> digits_prefix (c :: r) None
  | [] => None
  end.

(** [a.split("=")[1]] for an [a] that holds an equals sign: what stands
    between the first equals sign and the second. *)
Definition split_eq_1 (a : str) : str :=
  match break_at (fun c => c =? 61) a with
  | (_, Some after) => fst (break_at (fun c => c =? 61) after)
  | (_, None) => []
  end.

(** [v || fallback] for a string or [undefined]. *)
Definition or_default (v : option str) (fallback : str) : str :=
  match v with
  | Some (c :: r) => c :: r
  | _ => fallback
  end.

Definition set_file (v : option str) (a : cli) : cli :=
  {| positional := positional a; file := v; db := db a; limit := limit a;
     mode := mode a; noClaim := noClaim a; drain := drain a |}.

Definition set_db (v : option str) (a : cli) : cli :=
  {| positional := positional a; file := file a; db := v; limit := limit a;
     mode := mode a; noClaim := noClaim a; drain := drain a |}.

Definition set_limit (v : option Z) (a : cli) : cli :=
  {| positional := positional a; file := file a; db := db a; limit := v;
     mode := mode a; noClaim := noClaim a; drain := drain a |}.

Definition set_mode (v : str) (a : cli) : cli :=
  {| positional := positional a; file := file a; db := db a; limit := limit a;
     mode := v; noClaim := noClaim a; drain := drain a |}.

Definition set_noClaim (a : cli) : cli :=
  {| positional := positional a; file := file a; db := db a; limit := limit a;
     mode := mode a; noClaim := true; drain := drain a |}.

Definition set_drain (a : cli) : cli :=
  {| positional := positional a; file := file a; db := db a; limit := limit a;
     mode := mode a; noClaim := noClaim a; drain := true |}.

Definition push (x : str) (a : cli) : cli :=
  {| positional := positional a ++ [x]; file := file a; db := db a;
     limit := limit a; mode := mode a; noClaim := noClaim a; drain := drain a |}.

(** The loop over [argv] from index 2 on; [argv[++i]] takes the next
    argument when there is one and is [undefined] otherwise. *)
Fixpoint parse (argv : list str) (a : cli) : cli :=
  match argv with
  | [] => a
  | x :: rest =>
      if str_eqb x (lit "--file") then
        match rest with
        | v :: rest' => parse rest' (set_file (Some v) a)
        | [] => set_file None a
        end
      else if starts_with (lit "--file=") x then
        parse rest (set_file (Some (split_eq_1 x)) a)
      else if str_eqb x (lit "--db") then
        match rest with
        | v :: rest' => parse rest' (set_db (Some v) a)
        | [] => set_db None a
        end
      else if starts_with (lit "--db=") x then
        parse rest (set_db (Some (split_eq_1 x)) a)
      else if str_eqb x (lit "--limit") then
        match rest with
        | v :: rest' => parse rest' (set_limit (parseInt (or_default (Some v) (lit "0"))) a)
        | [] => set_limit (parseInt (or_default None (lit "0"))) a
        end
      else if starts_with (lit "--limit=") x then
        parse rest (set_limit (parseInt (or_default (Some (split_eq_1 x)) (lit "0"))) a)
      else if str_eqb x (lit "--mode") then
        match rest with
        | v :: rest' => parse rest' (set_mode (toLowerCase (or_default (Some v) (lit "auto"))) a)
        | [] => set_mode (toLowerCase (or_default None (lit "auto"))) a
        end
      else if starts_with (lit "--mode=") x then
        parse rest (set_mode (toLowerCase (split_eq_1 x)) a)
      else if str_eqb x (lit "--no-claim") then parse rest (set_noClaim a)
      else if str_eqb x (lit "--drain") then parse rest (set_drain a)
      else parse rest (push x a)
  end.

Definition parseArgs (argv : list str) : cli := parse (skipn 2 argv) defaults.

End Cli.

(** ** The navigation blocker written into the sanitized HTML

    The lines of [saveArchive] that put a literal script element into the
    serialized document before it is written to [page.html]. *)

Module Injection.

Import Matcher.

Definition injectionId : str := lit "__injected_nav_blocker_fe__".

Definition injectionScript : str :=
  lit "<script id=" ++ [34] ++ injectionId ++ [34] ++ lit ">"
  ++ [10] ++ lit "    try {"
  ++ [10] ++ lit "      if (window.navigation) {"
  ++ [10] ++ lit "        try {"
  ++ [10] ++ lit "          window.navigation.onnavigate = e => {"
  ++ [10] ++ lit "            if (e.sourceElement) return;"
  ++ [10] ++ lit "            e.preventDefault();"
  ++ [10] ++ lit "          };"
  ++ [10] ++ lit "        } catch (err) {"
  ++ [10] ++ lit "          try {"
  ++ [10] ++ lit "            window.navigation.addEventListener?.('navigate', ev => {"
  ++ [10] ++ lit "              if (ev.sourceElement) return;"
  ++ [10] ++ lit "              ev.preventDefault();"
  ++ [10] ++ lit "            });"
  ++ [10] ++ lit "          } catch (__) {}"
  ++ [10] ++ lit "        }"
  ++ [10] ++ lit "      }"
  ++ [10] ++ lit "    } catch (ignore) {}"
  ++ [10] ++ lit "  </script>".

(** The class of the two quotes, double and single. *)
Definition is_attr_quote (c : N) : bool := (c =? 34) || (c =? 39).

(** The marker pattern at the start of [s]: [id=], a quote, the
    injection id, a quote. *)
Definition marker_at (s : str) : bool :=
  starts_with (lit "id=") s
  && match skipn 3 s with
     | q :: r =>
         is_attr_quote q && starts_with injectionId r
         && match skipn (length injectionId) r with
            | q' :: _ => is_attr_quote q'
            | [] => false
            end
     | [] => false
     end.

(** The test of the marker pattern on [s]: a match at some index. *)
Fixpoint has_marker (s : str) : bool :=
  marker_at s
  || match s with
     | _ :: r => has_marker r
     | [] => false
     end.

(** A literal prefix matched under the [i] flag: what follows it. *)
Fixpoint starts_with_ci (p s : str) : option str :=
  match p, s with
  | [], _ => Some s
  | x :: p', y :: s' =>
      if canonicalize x =? canonicalize y then starts_with_ci p' s' else None
  | _ :: _, [] => None
  end.

(** [[^>]*>] at the start of [s]: what it matches and what follows. *)
Fixpoint until_gt (s : str) : option (str * str) :=
  match s with
  | [] => None
  | c :: r =>
      if c =? 62 then Some ([c], r)
      else
        match until_gt r with
        | Some (m, rest) => Some (c :: m, rest)
        | None => None
        end
  end.

(** [/<name[^>]*>/i] at the start of [s]. *)
Definition tag_at (name s : str) : option (str * str) :=
  match starts_with_ci (60 :: name) s with
  | Some after =>
      match until_gt after with
      | Some (m, rest) => Some (firstn (S (length name)) s ++ m, rest)
      | None => None
      end
  | None => None
  end.

(** The leftmost match of [/<name[^>]*>/i] in [s]: what precedes it, the
    match, what follows. *)
Fixpoint find_tag (name s : str) : option (str * str * str) :=
  match tag_at name s with
  | Some (m, rest) => Some ([], m, rest)
  | None =>
      match s with
      | [] => None
      | c :: r =>
          match find_tag name r with
          | Some (pre, m, post) => Some (c :: pre, m, post)
          | None => None
          end
      end
  end.

(** What is written to [page.html], given the serialized document. *)
Definition inject (modifiedHtml : str) : str :=
  if has_marker modifiedHtml then modifiedHtml
  else
    match find_tag (lit "head") modifiedHtml with
    | Some (pre, m, post) => pre ++ (m ++ [10] ++ injectionScript) ++ post
    | None =>
        match find_tag (lit "html") modifiedHtml with
        | Some (pre, m, post) =>
            pre ++ (m ++ [10] ++ lit "<head>" ++ [10] ++ injectionScript ++ [10]
                      ++ lit "</head>" ++ [10]) ++ post
        | None => injectionScript ++ [10] ++ modifiedHtml
        end
    end.

End Injection.

(** ** The page functions of [clickElements]

    What the three functions [clickElements] evaluates do in the page, as
    far as the listeners of [window] and the target of the events go. *)

Module ClickPage.

(** A listener of [window] as [addEventListener] keeps it: the type of
    event, the capture flag and the callback. A callback is a function
    object, known by its identity: every evaluation of a function
    expression makes a new one, and they are numbered here in the order
    they are made. The last two fields say what the callback does with an
    event. *)
Record listener : Type := {
  on : str;
  capture : bool;
  callback : nat;
  stops : bool;                  (* it calls stopImmediatePropagation *)
  prevents : bool                (* it calls preventDefault *)
}.

Record window : Type := {
  listeners : list listener;     (* in the order they were added *)
  patch : bool;                  (* window.__cancelNavigationPatch__ *)
  onbeforeunload : option nat;   (* the two handler attributes *)
  onunload : option nat;
  functions : nat                (* function objects made so far *)
}.

Definition same_listener (type : str) (cap : bool) (cb : nat) (l : listener) : bool :=
  str_eqb (on l) type && Bool.eqb (capture l) cap && (callback l =? cb)%nat.

(** [addEventListener] adds nothing when the list holds a listener of the
    same type, capture flag and callback. *)
Definition addEventListener (l : listener) (ls : list listener) : list listener :=
  if existsb (same_listener (on l) (capture l) (callback l)) ls then ls
  else ls ++ [l].

(** [removeEventListener] takes out the listener of that type, capture flag
    and callback. *)
Definition removeEventListener (type : str) (cap : bool) (cb : nat)
    (ls : list listener) : list listener :=
  List.filter (fun l => negb (same_listener type cap cb l)) ls.

(** The first function: the flag, the click guard, the beforeunload guard,
    the two handler attributes set to null. *)
Definition install (w : window) : window :=
  let f := functions w in
  {| listeners :=
       addEventListener
         {| on := lit "beforeunload"; capture := true; callback := S f;
            stops := false; prevents := true |}
         (addEventListener
            {| on := lit "click"; capture := true; callback := f;
               stops := true; prevents := true |}
            (listeners w));
     patch := true;
     onbeforeunload := None;
     onunload := None;
     functions := S (S f) |}.

(** The third function: under the flag, [removeEventListener] with a
    function expression of its own, and the flag deleted. *)
Definition remove (w : window) : window :=
  if patch w then
    {| listeners := removeEventListener (lit "click") true (functions w) (listeners w);
       patch := false;
       onbeforeunload := onbeforeunload w;
       onunload := onunload w;
       functions := S (functions w) |}
  else w.

(** What the second function reads of a candidate, one of the elements
    [querySelectorAll] returns for [button, a, input, div[role='button']],
    in document order. *)
Record control : Type := {
  innerText : option str;
  value : option str
}.

(** [(b.innerText || b.value || "").trim()]. *)
Definition shown_text (b : control) : str :=
  trim match innerText b with
       | Some (c :: t) => c :: t
       | _ => match value b with
              | Some v => v
              | None => []
              end
       end.

(** [candidates.find(b => ... === text.toLowerCase())]. *)
Definition find_target (candidates : list control) (text : str) : option control :=
  find (fun b => str_eqb (toLowerCase (shown_text b)) (toLowerCase text)) candidates.

Definition event_types : list str :=
  map lit ["pointerdown"; "mousedown"; "pointerup"; "mouseup"; "click"]%string.

(** An event dispatched on an element of the document goes to the capture
    listeners of [window] first, in the order they were added; when one of
    them stops it, no listener after that one is called, so none of the
    target. *)
Definition stopped_at_window (w : window) (type : str) : bool :=
  existsb (fun l => str_eqb (on l) type && capture l && stops l) (listeners w).

(** The second function: the control the events are dispatched on, if one
    is found, and the types of those that [window] lets through. *)
Definition dispatch (candidates : list control) (text : str) (w : window)
    : option (control * list str) :=
  match find_target candidates text with
  | Some target =>
      Some (target,
            List.filter (fun type => negb (stopped_at_window w type)) event_types)
  | None => None
  end.

(** Evaluations of the first and the third function, in any order. *)
Inductive page_call : Type :=
  | Install
  | Remove.

Definition run (calls : list page_call) (w : window) : window :=
  fold_left (fun w c => match c with Install => install w | Remove => remove w end)
    calls w.

Definition installs (calls : list page_call) : nat :=
  length (List.filter (fun c => match c with Install => true | Remove => false end) calls).

(** Every callback of a listener is a function object made before. *)
Definition numbered (w : window) : Prop :=
  Forall (fun l => (callback l < functions w)%nat) (listeners w).

Definition blank : window :=
  {| listeners := []; patch := false; onbeforeunload := None; onunload := None;
     functions := 0 |}.

End ClickPage.

(** * Properties *)

(** Boolean tests on code units, as arithmetic facts. *)
Ltac b2p H :=
  repeat first
    [ rewrite andb_true_iff in H | rewrite orb_true_iff in H
    | rewrite negb_true_iff in H | rewrite andb_false_iff in H
    | rewrite orb_false_iff in H | rewrite negb_false_iff in H
    | rewrite N.leb_le in H | rewrite N.leb_gt in H
    | rewrite N.eqb_eq in H | rewrite N.eqb_neq in H ].

Ltac unit_arith :=
  repeat match goal with
         | H : _ = true |- _ => progress b2p H
         | H : _ = false |- _ => progress b2p H
         end;
  repeat first
    [ rewrite orb_true_iff | rewrite andb_true_iff | rewrite negb_true_iff
    | rewrite orb_false_iff | rewrite andb_false_iff | rewrite negb_false_iff
    | rewrite N.leb_le | rewrite N.leb_gt | rewrite N.eqb_eq | rewrite N.eqb_neq ];
  lia.

(** ** Strings *)

Section StringFacts.

Lemma trimStart_no_space (s : str) :
  starts_with_space s = false -> trimStart s = s.
Proof. destruct s as [|c r]; simpl; [done|]. by intros ->. Qed.

Lemma trimStart_head (s : str) : starts_with_space (trimStart s) = false.
Proof.
  induction s as [|c r IH]; simpl; [done|].
  destruct (is_space c) eqn:E; [done|]. simpl. by rewrite E.
Qed.

Lemma trimStart_idem (s : str) : trimStart (trimStart s) = trimStart s.
Proof. apply trimStart_no_space, trimStart_head. Qed.

Lemma trimEnd_idem (s : str) : trimEnd (trimEnd s) = trimEnd s.
Proof. unfold trimEnd. by rewrite rev_involutive, trimStart_idem. Qed.

Lemma trimStart_app_keep (s : str) (x : N) :
  is_space x = false -> trimStart (s ++ [x]) = trimStart s ++ [x].
Proof.
  intros Hx. induction s as [|c r IH]; simpl.
  - by rewrite Hx.
  - destruct (is_space c); [done|done].
Qed.

(** [trimEnd] keeps the first unit of what it leaves. *)
Lemma trimEnd_head (s : str) :
  starts_with_space s = false -> starts_with_space (trimEnd s) = false.
Proof.
  unfold trimEnd. destruct s as [|c r]; simpl; [done|].
  intros Hc. rewrite trimStart_app_keep by done.
  rewrite rev_app_distr. simpl. by rewrite Hc.
Qed.

Theorem trim_idem (s : str) : trim (trim s) = trim s.
Proof.
  unfold trim.
  rewrite (trimStart_no_space (trimEnd (trimStart s))).
  - apply trimEnd_idem.
  - apply trimEnd_head, trimStart_head.
Qed.

End StringFacts.

(** ** The matcher's term rule *)

Section MatcherFacts.

Lemma split_ws_cons_shape (s : str) : exists w ws, split_ws s = w :: ws.
Proof.
  induction s as [|c r (w & ws & E)]; simpl; [by eexists _, _|].
  rewrite E. destruct (is_space c), (starts_with_space r); by eexists _, _.
Qed.

Lemma joined_unit_inv c w ws m :
  joined ((c :: w) :: ws) m <-> exists m', m = c :: m' /\ joined (w :: ws) m'.
Proof.
  split.
  - intros H. inversion H; subst.
    + exists w. split; [done|constructor].
    + eexists. split; [reflexivity|]. by constructor.
  - intros (m' & -> & H). inversion H; subst.
    + constructor.
    + change (c :: w ++ g ++ m) with ((c :: w) ++ g ++ m). by constructor.
Qed.

Lemma joined_gap_inv w ws m :
  joined ([] :: w :: ws) m <->
  exists g m', m = g ++ m' /\ g <> [] /\ forallb is_space g = true /\
               joined (w :: ws) m'.
Proof.
  split.
  - intros H. inversion H; subst. by exists g, m0.
  - intros (g & m' & -> & Hg & Hsp & H).
    change (g ++ m') with ([] ++ g ++ m'). by constructor.
Qed.

Lemma phrase_nil m : phrase_instance [] m <-> m = [].
Proof.
  unfold phrase_instance; simpl. split.
  - intros H. inversion H; subst; [done|]. match goal with H' : joined [] _ |- _ => inversion H' end.
  - intros ->. constructor.
Qed.

Lemma phrase_unit c r m :
  is_space c = false ->
  phrase_instance (c :: r) m <-> exists m', m = c :: m' /\ phrase_instance r m'.
Proof.
  intros Hc. unfold phrase_instance; simpl. rewrite Hc.
  destruct (split_ws_cons_shape r) as (w & ws & ->). apply joined_unit_inv.
Qed.

Lemma phrase_skip c r m :
  is_space c = true -> starts_with_space r = true ->
  phrase_instance (c :: r) m <-> phrase_instance r m.
Proof. intros Hc Hr. unfold phrase_instance; simpl. by rewrite Hc, Hr. Qed.

Lemma phrase_gap c r m :
  is_space c = true -> starts_with_space r = false ->
  phrase_instance (c :: r) m <->
  exists g m', m = g ++ m' /\ g <> [] /\ forallb is_space g = true /\
               phrase_instance r m'.
Proof.
  intros Hc Hr. unfold phrase_instance; simpl. rewrite Hc, Hr.
  destruct (split_ws_cons_shape r) as (w & ws & ->). apply joined_gap_inv.
Qed.

(** [split_ws] is the split at runs of white space: the pieces hold no
    white space, and the string is its pieces with a non-empty run of white
    space between each two. *)
Lemma split_ws_no_space (s : str) :
  Forall (fun w => forallb (fun c => negb (is_space c)) w = true) (split_ws s).
Proof.
  induction s as [|c r IH]; simpl; [by repeat constructor|].
  destruct (is_space c) eqn:Sc.
  - destruct (starts_with_space r); [done|by constructor].
  - destruct (split_ws r) as [|w ws].
    + repeat constructor. simpl. by rewrite Sc.
    + inversion IH; subst. constructor; [|done]. simpl. by rewrite Sc.
Qed.

Lemma split_ws_leading_space (r : str) :
  starts_with_space r = true -> exists w ws, split_ws r = [] :: w :: ws.
Proof.
  induction r as [|c r IH]; simpl; [done|]. intros Sc. rewrite Sc.
  destruct (starts_with_space r) eqn:Sr; [by apply IH|].
  destruct (split_ws_cons_shape r) as (w & ws & ->). by exists w, ws.
Qed.

Lemma split_ws_joined (s : str) : phrase_instance s s.
Proof.
  induction s as [|c r IH]; [by apply phrase_nil|].
  destruct (is_space c) eqn:Sc.
  - destruct (starts_with_space r) eqn:Sr.
    + apply phrase_skip; [done|done|]. unfold phrase_instance in *.
      destruct (split_ws_leading_space r Sr) as (w & ws & E). rewrite E in *.
      apply joined_gap_inv in IH as (g & m' & -> & Hg & Hsp & IH).
      apply joined_gap_inv. exists (c :: g), m'. split_and!; try done.
      simpl. by rewrite Sc, Hsp.
    + apply phrase_gap; [done|done|]. exists [c], r. split_and!; try done.
      simpl. by rewrite Sc.
  - apply phrase_unit; [done|]. by exists r.
Qed.

Lemma last_or_cons prev x m : last_or prev (x :: m) = last_or (Some x) m.
Proof.
  unfold last_or. destruct m as [|y m]; [done|].
  change (last (x :: y :: m)) with (last (y :: m)).
  destruct (last (y :: m)) eqn:E; [done|].
  by apply last_None in E.
Qed.

Lemma last_or_app prev g m : last_or prev (g ++ m) = last_or (last_or prev g) m.
Proof.
  revert prev. induction g as [|x g IH]; intros prev; [done|].
  simpl. by rewrite !last_or_cons, IH.
Qed.

Lemma last_or_last prev g : g <> [] -> last_or prev g = last g.
Proof.
  intros Hg. unfold last_or. destruct (last g) eqn:E; [done|].
  by apply last_None in E.
Qed.

Lemma last_or_None m : last_or None m = last m.
Proof. unfold last_or. by destruct (last m). Qed.

Lemma last_app_or (pre m : str) : last (pre ++ m) = last_or (last pre) m.
Proof. by rewrite <- (last_or_None (pre ++ m)), last_or_app, last_or_None. Qed.

Lemma match_plus_spec q prev s :
  match_here (SpacePlus :: q) prev s = true <->
  exists g rest, s = g ++ rest /\ g <> [] /\ forallb is_space g = true /\
                 match_here q (last g) rest = true.
Proof.
  simpl. induction s as [|x s IH].
  - split; [done|]. intros (g & rest & E & Hg & _). by destruct g.
  - rewrite andb_true_iff, orb_true_iff, IH. split.
    + intros [Hx [(g & rest & -> & Hg & Hsp & Hm)|Hm]].
      * exists (x :: g), rest. simpl. rewrite Hx, Hsp.
        split_and!; try done. by destruct g.
      * exists [x], s. simpl. by rewrite Hx.
    + intros (g & rest & E & Hg & Hsp & Hm).
      destruct g as [|y g]; [done|]. simpl in E. injection E as <- ->.
      simpl in Hsp. apply andb_true_iff in Hsp as [Hx Hsp]. split; [done|].
      destruct g as [|z g]; [by right|]. left.
      exists (z :: g), rest. by split_and!.
Qed.

Lemma canonicalize_inj c x :
  lowered c = true -> normchar x = true ->
  canonicalize c = canonicalize x -> c = x.
Proof.
  unfold lowered, normchar, keeps, canonicalize, is_word, is_space,
    is_upper, is_lower, is_digit.
  intros Hc Hx. b2p Hc. b2p Hx.
  destruct ((97 <=? c) && (c <=? 122)) eqn:E1;
  destruct ((224 <=? c) && (c <=? 254) && negb (c =? 247)) eqn:E2;
  destruct ((97 <=? x) && (x <=? 122)) eqn:E3;
  destruct ((224 <=? x) && (x <=? 254) && negb (x =? 247)) eqn:E4;
  b2p E1; b2p E2; b2p E3; b2p E4; lia.
Qed.

Lemma lower_unit_lowered c : lowered (lower_unit c) = true.
Proof.
  unfold lowered, lower_unit, is_upper.
  destruct ((65 <=? c) && (c <=? 90)) eqn:E1;
  [|destruct ((192 <=? c) && (c <=? 222) && negb (c =? 215)) eqn:E2];
  b2p E1; try b2p E2;
  repeat first [ rewrite andb_true_iff | rewrite negb_true_iff
    | rewrite andb_false_iff | rewrite N.leb_gt | rewrite N.eqb_eq 
    | rewrite N.leb_le | rewrite N.eqb_neq  | rewrite negb_false_iff ]; lia.
Qed.

Lemma forallb_trimStart (P : N -> bool) s :
  forallb P s = true -> forallb P (trimStart s) = true.
Proof.
  induction s as [|c r IH]; simpl; [done|].
  intros [Hc Hr]%andb_true_iff. destruct (is_space c); [auto|].
  simpl. by rewrite Hc, Hr.
Qed.

Lemma forallb_rev (P : N -> bool) s :
  forallb P s = true -> forallb P (rev s) = true.
Proof.
  rewrite !forallb_forall. intros H x Hx. apply H. by apply in_rev.
Qed.

Lemma forallb_trim (P : N -> bool) s :
  forallb P s = true -> forallb P (trim s) = true.
Proof.
  intros H. unfold trim, trimEnd.
  by apply forallb_rev, forallb_trimStart, forallb_rev, forallb_trimStart.
Qed.

Lemma lowered_term term : forallb lowered (trim (toLowerCase term)) = true.
Proof.
  apply forallb_trim. unfold toLowerCase. apply forallb_forall.
  intros x [c [<- _]]%in_map_iff. apply lower_unit_lowered.
Qed.

Lemma is_upper_lower_unit c : is_upper (lower_unit c) = false.
Proof.
  pose proof (lower_unit_lowered c) as H. unfold lowered in H.
  apply andb_true_iff in H as [H _]. by apply negb_true_iff in H.
Qed.

Lemma normalize_normchar text : forallb normchar (normalize text) = true.
Proof.
  unfold normalize. apply forallb_trim. unfold replace_outside, toLowerCase.
  rewrite !map_map. apply forallb_forall.
  intros y [c [<- _]]%in_map_iff. unfold normchar.
  destruct (is_quote (lower_unit c)) eqn:Q.
  - reflexivity.
  - destruct (keeps (lower_unit c)) eqn:K; [|reflexivity].
    by rewrite K, is_upper_lower_unit.
Qed.

Lemma match_atoms_spec t : forall q prev s,
  forallb lowered t = true -> forallb normchar s = true ->
  match_here (atoms_of t ++ q) prev s = true <->
  exists m rest, s = m ++ rest /\ phrase_instance t m /\
                 match_here q (last_or prev m) rest = true.
Proof.
  induction t as [|c r IH]; intros q prev s Ht Hs.
  - simpl. split.
    + intros H. exists [], s. split_and!; [done| by apply phrase_nil |done].
    + intros (m & rest & -> & ->%phrase_nil & H). done.
  - simpl in Ht. apply andb_true_iff in Ht as [Hc Hr].
    simpl atoms_of. destruct (is_space c) eqn:Sc.
    + destruct (starts_with_space r) eqn:Sr.
      * rewrite IH by done. by setoid_rewrite (phrase_skip c r _ Sc Sr).
      * change ((SpacePlus :: atoms_of r) ++ q) with (SpacePlus :: (atoms_of r ++ q)).
        rewrite match_plus_spec. split.
        -- intros (g & rest & -> & Hg & Hsp & Hm).
           rewrite forallb_app in Hs. apply andb_true_iff in Hs as [_ Hs].
           apply IH in Hm as (m & rest' & -> & Hp & Hq); [|done|done].
           exists (g ++ m), rest'. rewrite <- app_assoc. split_and!; [done| |].
           ++ apply phrase_gap; [done|done|]. by exists g, m.
           ++ by rewrite last_or_app, (last_or_last prev g).
        -- intros (m & rest & -> & Hp & Hq).
           apply phrase_gap in Hp as (g & m' & -> & Hg & Hsp & Hp); [|done|done].
           exists g, (m' ++ rest). rewrite <- app_assoc. split_and!; try done.
           rewrite <- app_assoc, forallb_app in Hs.
           apply andb_true_iff in Hs as [_ Hs].
           apply IH; [done|done|]. exists m', rest. split_and!; try done.
           by rewrite last_or_app, (last_or_last prev g) in Hq.
    + simpl. destruct s as [|x s].
      * split; [done|]. intros (m & rest & E & Hp & _).
        apply phrase_unit in Hp as (m' & -> & _); [|done]. done.
      * simpl in Hs. apply andb_true_iff in Hs as [Hx Hs].
        rewrite andb_true_iff, N.eqb_eq, IH by done. split.
        -- intros [E (m & rest & -> & Hp & Hq)].
           apply canonicalize_inj in E; [|done|done]. subst x.
           exists (c :: m), rest. split_and!; [done| |by rewrite last_or_cons].
           apply phrase_unit; [done|]. by exists m.
        -- intros (m & rest & E & Hp & Hq).
           apply phrase_unit in Hp as (m' & -> & Hp); [|done].
           simpl in E. injection E as -> ->. split; [done|].
           exists m', rest. split_and!; try done. by rewrite last_or_cons in Hq.
Qed.

Lemma search_spec p : forall s prev,
  search p prev s = true <->
  exists pre s', s = pre ++ s' /\ match_here p (last_or prev pre) s' = true.
Proof.
  induction s as [|x s IH]; intros prev; simpl; rewrite orb_true_iff.
  - split.
    + intros [H|H]; [|done]. by exists [], [].
    + intros (pre & s' & E & H). left.
      symmetry in E. apply app_eq_nil in E as [-> ->]. done.
  - rewrite IH. split.
    + intros [H|(pre & s' & -> & H)].
      * by exists [], (x :: s).
      * exists (x :: pre), s'. by rewrite last_or_cons.
    + intros (pre & s' & E & H). destruct pre as [|y pre].
      * left. simpl in E. by subst s'.
      * right. simpl in E. injection E as -> ->.
        exists pre, s'. by rewrite last_or_cons in H.
Qed.

Lemma compile_atoms t : forall tail atail,
  plain t -> compile tail = Some atail ->
  compile (replace_ws_runs (lit "\s+") t ++ tail) = Some (atoms_of t ++ atail).
Proof.
  unfold plain. change (lit "\s+") with [92; 115; 43].
  induction t as [|c r IH]; intros tail atail Ht Htail; [done|].
  simpl in Ht. apply andb_true_iff in Ht as [Hc Hr].
  apply negb_true_iff in Hc.
  simpl. destruct (is_space c) eqn:Sc.
  - destruct (starts_with_space r); [by apply IH|].
    simpl. by rewrite (IH tail atail).
  - simpl. assert ((c =? 92) = false) as ->.
    { unfold is_syntax_char in Hc. b2p Hc. apply N.eqb_neq. lia. }
    by rewrite Hc, (IH tail atail).
Qed.

Lemma compile_pattern_source t :
  plain t -> compile (pattern_source t) = Some (Boundary :: atoms_of t ++ [Boundary]).
Proof.
  intros Ht. unfold pattern_source. change (lit "\b") with [92; 98].
  simpl. by rewrite (compile_atoms t [92; 98] [Boundary]).
Qed.

Lemma RegExp_test_spec t txt :
  forallb lowered t = true -> forallb normchar txt = true ->
  RegExp_test (Boundary :: atoms_of t ++ [Boundary]) txt = true <->
  occurs_word_bounded t txt.
Proof.
  intros Ht Htxt. unfold RegExp_test, occurs_word_bounded.
  rewrite search_spec. split.
  - intros (pre & s' & -> & H). rewrite last_or_None in H.
    simpl in H. apply andb_true_iff in H as [Hb H].
    rewrite forallb_app in Htxt. apply andb_true_iff in Htxt as [_ Hs].
    apply match_atoms_spec in H as (m & post & -> & Hp & Hq); [|done|done].
    exists pre, m, post. split_and!; try done.
    simpl in Hq. rewrite andb_true_r in Hq.
    by rewrite last_app_or.
  - intros (pre & m & post & -> & Hp & Hb1 & Hb2).
    exists pre, (m ++ post). split; [done|]. rewrite last_or_None. simpl.
    rewrite Hb1. simpl.
    rewrite forallb_app in Htxt. apply andb_true_iff in Htxt as [_ Hs].
    apply match_atoms_spec; [done|done|].
    exists m, post. split_and!; try done. simpl. rewrite andb_true_r.
    by rewrite <- last_app_or.
Qed.

End MatcherFacts.

Section TermRule.

Import Scan.

Lemma locale_equal_spec w t :
  locale_equal w t = true <-> toLowerCase w = toLowerCase t.
Proof. unfold locale_equal, str_eqb. apply bool_decide_eq_true. Qed.

Lemma short_rule txt t :
  existsb (fun w => locale_equal w t) (split_ws txt) = true <->
  equals_a_token t txt.
Proof.
  unfold equals_a_token. rewrite existsb_exists.
  by setoid_rewrite locale_equal_spec.
Qed.

(** Every configured search term is free of syntax characters, so its
    pattern is one [compile] interprets. *)
Lemma search_terms_plain :
  Forall (fun term => plain (trim (toLowerCase term))) Config.SEARCH_TERMS.
Proof. repeat constructor. Qed.

Lemma last_cons_some (c x : N) (l : str) : last l = Some x -> last (c :: l) = Some x.
Proof. destruct l as [|y l]; [discriminate | intros H; exact H]. Qed.

(** Where the pieces of [split_ws] stand in the string: the first at its
    start, every later one after a unit of white space, each before white
    space or the end; an empty later piece means that the string ends in
    white space, an empty first piece that it is empty or starts with
    white space. *)
Lemma split_ws_pieces (s : str) : forall t ts,
  split_ws s = t :: ts ->
  (exists post, s = t ++ post /\ space_or_end (head post) = true) /\
  (forall w, In w ts -> w <> [] ->
     exists pre post,
       s = pre ++ w ++ post /\
       (exists c, last pre = Some c /\ is_space c = true) /\
       space_or_end (head post) = true) /\
  (In [] ts -> exists c, last s = Some c /\ is_space c = true) /\
  (t = [] -> s = [] \/ starts_with_space s = true).
Proof.
  induction s as [|c r IH]; intros t ts E; cbn [split_ws] in E.
  - injection E as <- <-. split_and!.
    + exists []. split; reflexivity.
    + intros w [].
    + intros [].
    + intros _. left. reflexivity.
  - destruct (split_ws_cons_shape r) as (t0 & ts0 & E0). rewrite E0 in E.
    destruct (IH _ _ E0) as (Hfirst & Hrest & Hempty & Hnil).
    assert (Hrest' : forall w, In w ts0 -> w <> [] ->
      exists pre post,
        c :: r = pre ++ w ++ post /\
        (exists x, last pre = Some x /\ is_space x = true) /\
        space_or_end (head post) = true).
    { intros w Hw Hne.
      destruct (Hrest w Hw Hne) as (pre & post & -> & (x & Hl & Hx) & Hp).
      exists (c :: pre), post. split; [reflexivity |].
      split; [exists x; split; [apply last_cons_some, Hl | exact Hx] | exact Hp]. }
    assert (Hempty' : In [] ts0 -> exists x, last (c :: r) = Some x /\ is_space x = true).
    { intros Hin. destruct (Hempty Hin) as (x & Hl & Hx).
      exists x. split; [apply last_cons_some, Hl | exact Hx]. }
    destruct (is_space c) eqn:Sc.
    + destruct (starts_with_space r) eqn:Sr.
      * injection E as <- <-.
        destruct (split_ws_leading_space r Sr) as (w' & ws' & E').
        rewrite E0 in E'. injection E' as -> ->.
        split_and!.
        -- exists (c :: r). split; [reflexivity | exact Sc].
        -- exact Hrest'.
        -- exact Hempty'.
        -- intros _. right. exact Sc.
      * injection E as <- <-. split_and!.
        -- exists (c :: r). split; [reflexivity | exact Sc].
        -- intros w [<-|Hw] Hne; [| apply Hrest'; assumption].
           destruct Hfirst as (post & -> & Hp).
           exists [c], post. split; [reflexivity |].
           split; [exists c; split; [reflexivity | exact Sc] | exact Hp].
        -- intros [->|Hin]; [| apply Hempty', Hin].
           destruct (Hnil eq_refl) as [->|Hs]; [| congruence].
           exists c. split; [reflexivity | exact Sc].
        -- intros _. right. exact Sc.
    + injection E as <- <-. split_and!.
      * destruct Hfirst as (post & -> & Hp). exists post. split; [reflexivity | exact Hp].
      * exact Hrest'.
      * exact Hempty'.
      * discriminate.
Qed.

(** A piece without white space that stands at the start of the string,
    before white space or the end, is the first piece of the split. *)
Lemma split_ws_first (w post : str) :
  forallb (fun c => negb (is_space c)) w = true ->
  space_or_end (head post) = true ->
  exists ts, split_ws (w ++ post) = w :: ts.
Proof.
  intros Hw Hp. induction w as [|c w IH]; cbn [app].
  - destruct post as [|c r]; [exists []; reflexivity |].
    cbn [head space_or_end] in Hp. cbn [split_ws]. rewrite Hp.
    destruct (starts_with_space r) eqn:Sr.
    + destruct (split_ws_leading_space r Sr) as (w' & ws' & ->). eauto.
    + eauto.
  - cbn [forallb] in Hw. apply andb_true_iff in Hw as [Hc Hw].
    apply negb_true_iff in Hc. destruct (IH Hw) as (ts & E).
    cbn [split_ws]. rewrite Hc, E. eauto.
Qed.

(** And one that stands after a unit of white space is a later piece. *)
Lemma split_ws_later (pre w post : str) :
  w <> [] ->
  forallb (fun c => negb (is_space c)) w = true ->
  (exists c, last pre = Some c /\ is_space c = true) ->
  space_or_end (head post) = true ->
  exists t ts, split_ws (pre ++ w ++ post) = t :: ts /\ In w ts.
Proof.
  intros Hne Hw Hpre Hp. induction pre as [|c pre IH].
  - destruct Hpre as (x & Hx & _). discriminate Hx.
  - destruct pre as [|c' pre'].
    + destruct Hpre as (x & [= <-] & Hx).
      destruct (split_ws_first w post Hw Hp) as (ts & E).
      cbn [app split_ws]. rewrite Hx, E.
      assert (starts_with_space (w ++ post) = false) as ->.
      { destruct w as [|y w']; [contradiction |].
        cbn [forallb] in Hw. apply andb_true_iff in Hw as [Hy _].
        apply negb_true_iff in Hy. exact Hy. }
      exists [], (w :: ts). split; [reflexivity | left; reflexivity].
    + destruct IH as (t & ts & E & Hin).
      { destruct Hpre as (x & Hx & Hs). exists x. split; [exact Hx | exact Hs]. }
      change ((c :: c' :: pre') ++ w ++ post) with (c :: ((c' :: pre') ++ w ++ post)).
      cbn [split_ws]. rewrite E.
      destruct (is_space c); [destruct (starts_with_space _) |]; eauto using in_cons.
Qed.

(** On a string that neither starts nor ends with white space, the pieces
    of [split_ws] are the words of [whole_token]. *)
Lemma split_ws_whole_token (txt w : str) :
  starts_with_space txt = false ->
  (forall c, last txt = Some c -> is_space c = false) ->
  In w (split_ws txt) <-> whole_token w txt.
Proof.
  intros Hs He. split.
  - intros Hin.
    assert (Hw : forallb (fun c => negb (is_space c)) w = true).
    { pose proof (split_ws_no_space txt) as HF. rewrite List.Forall_forall in HF.
      apply HF, Hin. }
    split; [exact Hw |].
    destruct (split_ws_cons_shape txt) as (t & ts & E).
    destruct (split_ws_pieces txt t ts E) as (Hfirst & Hrest & Hempty & Hnil).
    rewrite E in Hin. destruct Hin as [<-|Hin].
    + destruct t as [|x t'].
      * destruct (Hnil eq_refl) as [->|H]; [reflexivity | congruence].
      * destruct Hfirst as (post & -> & Hp). exists [], post.
        split_and!; [reflexivity | reflexivity | exact Hp].
    + destruct w as [|x w'].
      * destruct (Hempty Hin) as (c & Hl & Hc). rewrite (He c Hl) in Hc. discriminate.
      * destruct (Hrest _ Hin) as (pre & post & -> & (c & Hl & Hc) & Hp); [discriminate |].
        exists pre, post. split_and!; [reflexivity | rewrite Hl; exact Hc | exact Hp].
  - intros [Hw H]. destruct w as [|x w'].
    + subst txt. left. reflexivity.
    + destruct H as (pre & post & -> & Hpre & Hp).
      destruct (last pre) as [c|] eqn:Hl.
      * destruct (split_ws_later pre (x :: w') post) as (t & ts & E & Hin);
          [discriminate | exact Hw | exists c; split; [exact Hl | exact Hpre] | exact Hp |].
        rewrite E. right. exact Hin.
      * apply last_None in Hl. subst pre.
        destruct (split_ws_first (x :: w') post Hw Hp) as (ts & E).
        cbn [app] in *. rewrite E. left. reflexivity.
Qed.

Lemma trim_last (s : str) c : last (trim s) = Some c -> is_space c = false.
Proof.
  unfold trim, trimEnd. intros H.
  pose proof (trimStart_head (rev (trimStart s))) as Hh.
  destruct (trimStart (rev (trimStart s))) as [|y l]; [discriminate H |].
  cbn [rev] in H. rewrite last_snoc in H. injection H as <-. exact Hh.
Qed.

Lemma trim_head (s : str) : starts_with_space (trim s) = false.
Proof. unfold trim. apply trimEnd_head, trimStart_head. Qed.

Lemma lowered_fixed c : lowered c = true -> lower_unit c = c.
Proof.
  unfold lowered, lower_unit. intros H. apply andb_true_iff in H as [H1 H2].
  apply negb_true_iff in H1, H2. rewrite H1, H2. reflexivity.
Qed.

Lemma lowered_str_fixed (s : str) : forallb lowered s = true -> toLowerCase s = s.
Proof.
  induction s as [|c s IH]; [reflexivity |]. cbn [forallb]. intros H.
  apply andb_true_iff in H as [Hc H]. unfold toLowerCase in *. cbn [map].
  rewrite (lowered_fixed c Hc), (IH H). reflexivity.
Qed.

Lemma normchar_lowered c : normchar c = true -> lowered c = true.
Proof.
  unfold normchar, lowered, keeps, is_word, is_digit, is_upper, is_lower, is_space.
  intros H. unit_arith.
Qed.

Lemma split_ws_forallb (P : N -> bool) (s : str) :
  forallb P s = true -> Forall (fun w => forallb P w = true) (split_ws s).
Proof.
  induction s as [|c r IH]; cbn [split_ws forallb]; [repeat constructor |].
  intros H. apply andb_true_iff in H as [Hc H]. specialize (IH H).
  destruct (is_space c).
  - destruct (starts_with_space r); [exact IH | constructor; [reflexivity | exact IH]].
  - destruct (split_ws r) as [|w ws].
    + repeat constructor. cbn [forallb]. rewrite Hc. reflexivity.
    + inversion IH; subst. constructor; [| assumption].
      cbn [forallb]. rewrite Hc. assumption.
Qed.

(** On a normalized text and a lower-cased term, being equal to a piece up
    to case is standing in the text as a whole word. *)
Lemma token_rule text term :
  equals_a_token (trim (toLowerCase term)) (normalize text) <->
  whole_token (trim (toLowerCase term)) (normalize text).
Proof.
  rewrite <- split_ws_whole_token;
    [| apply trim_head | apply trim_last].
  unfold equals_a_token. rewrite (lowered_str_fixed _ (lowered_term term)).
  pose proof (split_ws_forallb normchar _ (normalize_normchar text)) as HF.
  rewrite List.Forall_forall in HF. split.
  - intros (w & Hin & E). rewrite lowered_str_fixed in E; [subst w; exact Hin |].
    specialize (HF w Hin). clear - HF. induction w as [|c w IH]; [reflexivity |].
    cbn [forallb] in *. apply andb_true_iff in HF as [Hc HF].
    rewrite (normchar_lowered c Hc), (IH HF). reflexivity.
  - intros Hin. exists (trim (toLowerCase term)). split; [exact Hin |].
    apply lowered_str_fixed, lowered_term.
Qed.

(** C4, on the code. The two scripts, on a page whose one button reads
    [no thanksgiving], for their configured terms, [no thanks] among them.
    The callback of [integrated.js] tests whether the lower-case text
    contains the term, and reports the button. The callback of the queue
    script, which follows the term rule, reports nothing: its test of the
    term on the normalized text is false, as the rule asks, the phrase not
    standing between word boundaries. *)
Theorem integrated_matches_inside_words :
  let page := Pages.document [Pages.control "BUTTON" "no thanksgiving"] in
  option_map (map text)
    (Integrated.findMatchingClickableElements page Integrated.SEARCH_TERMS)
  = Some [lit "no thanksgiving"] /\
  In (lit "no thanks") Integrated.SEARCH_TERMS /\
  In (lit "no thanks") Config.SEARCH_TERMS /\
  findMatchingClickableElements page Config.SEARCH_TERMS = Some [] /\
  term_matches (normalize (lit "no thanksgiving")) (lit "no thanks") = Some false /\
  ~ occurs_word_bounded (lit "no thanks") (normalize (lit "no thanksgiving")).
Proof.
  cbv zeta. split_and!; try (vm_compute; reflexivity).
  - vm_compute. tauto.
  - vm_compute. tauto.
  - intros H.
    apply (RegExp_test_spec (lit "no thanks") (normalize (lit "no thanksgiving")))
      in H; [| reflexivity | apply normalize_normchar].
    vm_compute in H. discriminate H.
Qed.

(** X24. The term rule of the queue script's matcher, for every element
    text within Basic Latin and Latin-1 and every term of printable ASCII
    characters: with [t] the lower-cased, trimmed term and [txt] the
    normalized text, a term of at most 3 units matches exactly when it
    stands in [txt] as a whole word, white space or an end of the text on
    either side (the text and the term being in lower case by then, this
    is equality with a word up to case); a longer term (free of syntax
    characters of regular expressions, as every configured term is) matches
    exactly when its words occur in [txt] in order, separated by non-empty
    runs of white space, with a word boundary on either side. So "ok"
    matches "OK, got it" and not "bookmark"; "no thanks" matches
    "No thanks!" and not "no thanksgiving". *)
Theorem term_rule :
  (forall text term : str,
     latin1 text = true -> ascii_term term = true ->
     let txt := normalize text in
     let t := trim (toLowerCase term) in
     ((length t <= 3)%nat ->
        exists b, term_matches txt term = Some b /\
                  (b = true <-> whole_token t txt)) /\
     ((3 < length t)%nat -> plain t ->
        exists b, term_matches txt term = Some b /\
                  (b = true <-> occurs_word_bounded t txt))) /\
  term_matches (normalize (lit "OK, got it")) (lit "ok") = Some true /\
  term_matches (normalize (lit "bookmark")) (lit "ok") = Some false /\
  term_matches (normalize (lit "No thanks!")) (lit "no thanks") = Some true /\
  term_matches (normalize (lit "no thanksgiving")) (lit "no thanks") = Some false.
Proof.
  split; [|by vm_compute].
  intros text term _ _ txt t. unfold term_matches. fold t. split.
  - intros Hlen.
    assert ((N.of_nat (length t) <=? 3) = true) as -> by (apply N.leb_le; lia).
    eexists. split; [reflexivity|]. rewrite short_rule. apply token_rule.
  - intros Hlen Hplain.
    assert ((N.of_nat (length t) <=? 3) = false) as -> by (apply N.leb_gt; lia).
    rewrite (compile_pattern_source t Hplain).
    eexists. split; [reflexivity|].
    apply RegExp_test_spec; [apply lowered_term | apply normalize_normchar].
Qed.

Lemma term_rule_witness :
  whole_token (trim (toLowerCase (lit "OK"))) (normalize (lit "OK, got it")) /\
  occurs_word_bounded (trim (toLowerCase (lit "no thanks")))
                      (normalize (lit "No thanks!")).
Proof.
  split.
  - destruct (proj1 term_rule (lit "OK, got it") (lit "OK") eq_refl eq_refl)
      as [Hshort _].
    destruct Hshort as (b & Hb & Hiff); [vm_compute; lia |].
    apply Hiff. vm_compute in Hb. congruence.
  - destruct (proj1 term_rule (lit "No thanks!") (lit "no thanks") eq_refl eq_refl)
      as [_ Hlong].
    destruct Hlong as (b & Hb & Hiff); [vm_compute; lia | by vm_compute |].
    apply Hiff. vm_compute in Hb. congruence.
Defined.

End TermRule.

(** ** Archive identity *)

Section ArchiveIdFacts.

Import ArchiveId.

(** The test suite of RFC 1321, section A.5 (three of its entries). *)
Lemma md5_test_suite :
  MD5.md5_hex (lit "") = lit "d41d8cd98f00b204e9800998ecf8427e" /\
  MD5.md5_hex (lit "abc") = lit "900150983cd24fb0d6963f7d28e17f72" /\
  MD5.md5_hex (lit "12345678901234567890123456789012345678901234567890123456789012345678901234567890")
  = lit "57edf4a22be3c955ac49da2e2107b67a".
Proof. split_and!; by vm_compute. Qed.

Lemma hex_digit_lower n : (0 <= n < 16)%Z -> is_lower_hex (MD5.hex_digit n) = true.
Proof.
  intros Hn. unfold MD5.hex_digit, is_lower_hex, is_digit.
  destruct (Z.ltb_spec n 10).
  - apply orb_true_iff. left. apply andb_true_iff. split; apply N.leb_le; lia.
  - apply orb_true_iff. right. apply andb_true_iff. split; apply N.leb_le; lia.
Qed.

Lemma hex_byte_lower b :
  (0 <= b < 256)%Z -> forallb is_lower_hex (MD5.hex_byte b) = true.
Proof.
  intros Hb. unfold MD5.hex_byte. simpl.
  rewrite !hex_digit_lower; [done| |].
  - apply Z.mod_pos_bound. lia.
  - split; [apply Z.div_pos; lia | apply Z.div_lt_upper_bound; lia].
Qed.

Lemma le_bytes_range n x : Forall (fun b => (0 <= b < 256)%Z) (MD5.le_bytes n x).
Proof.
  unfold MD5.le_bytes. apply Forall_map, Forall_forall. intros k _. simpl.
  change 255%Z with (Z.ones 8). rewrite Z.land_ones by lia.
  apply Z.mod_pos_bound. lia.
Qed.

Lemma le_bytes_length n x : length (MD5.le_bytes n x) = n.
Proof. unfold MD5.le_bytes. by rewrite length_map, length_seq. Qed.

Lemma md5_bytes msg :
  length (MD5.md5 msg) = 16%nat /\ Forall (fun b => (0 <= b < 256)%Z) (MD5.md5 msg).
Proof.
  unfold MD5.md5.
  destruct (fold_left _ _ _) as [[[a b] c] d]. split.
  - by rewrite !length_app, !le_bytes_length.
  - rewrite !Forall_app. split_and!; apply le_bytes_range.
Qed.

Lemma hex_length bs : length (MD5.hex bs) = (2 * length bs)%nat.
Proof.
  unfold MD5.hex. induction bs as [|b bs IH]; [done|].
  simpl. rewrite IH. lia.
Qed.

Lemma hex_lower bs :
  Forall (fun b => (0 <= b < 256)%Z) bs -> forallb is_lower_hex (MD5.hex bs) = true.
Proof.
  unfold MD5.hex. induction 1 as [|b bs Hb _ IH]; [done|].
  cbn [flat_map]. rewrite forallb_app, IH, hex_byte_lower; done.
Qed.

Lemma md5_hex_shape s :
  length (MD5.md5_hex s) = 32%nat /\ forallb is_lower_hex (MD5.md5_hex s) = true.
Proof.
  unfold MD5.md5_hex. destruct (md5_bytes (MD5.utf8 s)) as [Hl Hr]. split.
  - by rewrite hex_length, Hl.
  - by apply hex_lower.
Qed.

Lemma forallb_firstn {A} (P : A -> bool) n (l : list A) :
  forallb P l = true -> forallb P (firstn n l) = true.
Proof.
  revert l. induction n as [|n IH]; intros [|x l]; simpl; try done.
  intros [-> H]%andb_true_iff. by apply IH.
Qed.

Lemma md5Hash_shape input :
  length (md5Hash input 8) = 8%nat /\ forallb is_lower_hex (md5Hash input 8) = true.
Proof.
  unfold md5Hash. destruct (md5_hex_shape input) as [Hl Hh]. split.
  - rewrite length_firstn, Hl. done.
  - by apply forallb_firstn.
Qed.

(** C10. [normalizeUrl] is a total function of its string argument: where
    the URL constructor throws on the trimmed input, that trimmed input is
    the result. [makeArchiveId] is therefore defined on every pair of
    strings, and its result is never empty: it is the slug, an underscore
    and exactly 8 lower-case hexadecimal digits; the slug of the empty title
    is "untitled". *)
Theorem makeArchiveId_shape (U : URLClass) (url title : str) :
  (URL_new U (trim url) = None -> normalizeUrl U url = trim url) /\
  (exists h, makeArchiveId U url title = slugifyTitle title ++ lit "_" ++ h /\
             length h = 8%nat /\ forallb is_lower_hex h = true) /\
  makeArchiveId U url title <> [] /\
  (title = [] -> slugifyTitle title = lit "untitled").
Proof.
  split_and!.
  - intros H. unfold normalizeUrl. by rewrite H.
  - exists (md5Hash (normalizeUrl U url) 8). split; [done|]. apply md5Hash_shape.
  - unfold makeArchiveId. intros H. apply app_eq_nil in H as [_ H]. done.
  - by intros ->.
Qed.

Lemma makeArchiveId_shape_witness :
  normalizeUrl SimpleURL (lit " not a url ") = lit "not a url" /\
  slugifyTitle [] = lit "untitled".
Proof.
  destruct (makeArchiveId_shape SimpleURL (lit " not a url ") []) as (H1 & _ & _ & H4).
  split; [apply H1; by vm_compute | by apply H4].
Defined.

Lemma built_clear U (u : URL U) :
  built U u -> built U (set_search_empty U (set_hash_empty U u)).
Proof. intros H. by apply built_search, built_hash. Qed.

Lemma clear_idem U (L : URLLaws U) (u : URL U) :
  built U u ->
  set_search_empty U (set_hash_empty U (set_search_empty U (set_hash_empty U u)))
  = set_search_empty U (set_hash_empty U u).
Proof.
  intros H.
  rewrite (set_hash_search U L) by (by apply built_hash).
  rewrite (set_hash_idem U L) by done.
  rewrite (set_search_idem U L) by (by apply built_hash). done.
Qed.

Lemma normalizeUrl_idem U (L : URLLaws U) s :
  normalizeUrl U (normalizeUrl U s) = normalizeUrl U s.
Proof.
  unfold normalizeUrl at 2 3. destruct (URL_new U (trim s)) as [u|] eqn:E.
  - assert (Hb : built U u) by (by eapply built_new).
    unfold normalizeUrl.
    rewrite (toString_trimmed U L) by (by apply built_clear).
    rewrite (parse_toString U L) by (by apply built_clear).
    by rewrite clear_idem.
  - unfold normalizeUrl. by rewrite trim_idem, E.
Qed.

(** C7. For every string the URL constructor accepts, [normalizeUrl]
    returns a URL whose fragment and query are empty; on every string it is
    idempotent. [makeArchiveId] gives equal identifiers for equal URL and
    title, and for two URLs that differ only in query string or fragment
    (that agree once both are removed). *)
Theorem normalizeUrl_makeArchiveId (U : URLClass) (L : URLLaws U) :
  (forall s u, URL_new U (trim s) = Some u ->
     exists v, URL_new U (normalizeUrl U s) = Some v /\
               URL_hash U v = [] /\ URL_search U v = []) /\
  (forall s, normalizeUrl U (normalizeUrl U s) = normalizeUrl U s) /\
  (forall s1 s2 t1 t2, s1 = s2 -> t1 = t2 ->
     makeArchiveId U s1 t1 = makeArchiveId U s2 t2) /\
  (forall s1 s2 u1 u2 t,
     URL_new U (trim s1) = Some u1 -> URL_new U (trim s2) = Some u2 ->
     set_search_empty U (set_hash_empty U u1) = set_search_empty U (set_hash_empty U u2) ->
     makeArchiveId U s1 t = makeArchiveId U s2 t).
Proof.
  split_and!.
  - intros s u E. assert (Hb : built U u) by (by eapply built_new).
    exists (set_search_empty U (set_hash_empty U u)).
    unfold normalizeUrl. rewrite E. split_and!.
    + apply (parse_toString U L). by apply built_clear.
    + rewrite (hash_set_search U L) by (by apply built_hash).
      by apply (hash_set_hash U L).
    + apply (search_set_search U L). by apply built_hash.
  - apply normalizeUrl_idem, L.
  - by intros s1 s2 t1 t2 -> ->.
  - intros s1 s2 u1 u2 t E1 E2 E. unfold makeArchiveId, normalizeUrl.
    by rewrite E1, E2, E.
Qed.

End ArchiveIdFacts.

(** *** The small URL implementation satisfies the laws *)

Section SimpleURLFacts.

Import ArchiveId.

Lemma break_at_hit (p : N -> bool) a c b :
  forallb (fun x => negb (p x)) a = true -> p c = true ->
  break_at p (a ++ c :: b) = (a, Some b).
Proof.
  intros Ha Hc. induction a as [|x a IH]; simpl.
  - by rewrite Hc.
  - simpl in Ha. apply andb_true_iff in Ha as [Hx Ha].
    apply negb_true_iff in Hx. by rewrite Hx, IH.
Qed.

Lemma break_at_miss (p : N -> bool) a :
  forallb (fun x => negb (p x)) a = true -> break_at p a = (a, None).
Proof.
  induction a as [|x a IH]; simpl; [done|].
  intros [Hx Ha]%andb_true_iff. apply negb_true_iff in Hx.
  by rewrite Hx, IH.
Qed.

Lemma break_at_spec (p : N -> bool) s a ob :
  break_at p s = (a, ob) ->
  forallb (fun x => negb (p x)) a = true /\
  match ob with
  | Some b => exists c, p c = true /\ s = a ++ c :: b
  | None => s = a
  end.
Proof.
  revert a ob. induction s as [|x s IH]; simpl; intros a ob E.
  - by injection E as <- <-.
  - destruct (p x) eqn:Hx.
    + injection E as <- <-. split; [done|]. by exists x.
    + destruct (break_at p s) as [a' ob'] eqn:E'. injection E as <- <-.
      destruct (IH a' ob' eq_refl) as [Ha Hob]. split.
      * simpl. by rewrite Hx, Ha.
      * destruct ob' as [b|]; [|by rewrite Hob].
        destruct Hob as (c & Hc & ->). by exists c.
Qed.

Lemma strip_c0_start_id s :
  match s with c :: _ => is_c0_space c = false | [] => True end ->
  strip_c0_start s = s.
Proof. destruct s as [|c r]; simpl; [done|]. by intros ->. Qed.

Lemma printable_not_c0 c : printable c = true -> is_c0_space c = false.
Proof.
  unfold printable, is_c0_space. intros [H _]%andb_true_iff.
  apply N.leb_le in H. apply N.leb_gt. lia.
Qed.

Lemma printable_not_space c : printable c = true -> is_space c = false.
Proof.
  unfold printable, is_space. intros [H1 H2]%andb_true_iff.
  apply N.leb_le in H1. apply N.leb_le in H2.
  repeat (apply orb_false_iff; split);
    first [ apply N.eqb_neq; lia
          | apply andb_false_iff; first [ left; apply N.leb_gt; lia
                                        | right; apply N.leb_gt; lia ] ].
Qed.

Lemma head_of_rev_printable s :
  forallb printable s = true ->
  match rev s with c :: _ => printable c = true | [] => True end.
Proof.
  intros H. destruct (rev s) as [|c r] eqn:E; [done|].
  rewrite forallb_forall in H. apply H, in_rev. rewrite E. by left.
Qed.

Lemma strip_c0_printable s : forallb printable s = true -> strip_c0 s = s.
Proof.
  intros H. unfold strip_c0.
  rewrite (strip_c0_start_id s).
  - rewrite strip_c0_start_id; [apply rev_involutive|].
    pose proof (head_of_rev_printable s H) as Hr.
    destruct (rev s); [done|]. by apply printable_not_c0.
  - destruct s as [|c r]; [done|]. simpl in H.
    apply andb_true_iff in H as [H _]. by apply printable_not_c0.
Qed.

Lemma trim_printable s : forallb printable s = true -> trim s = s.
Proof.
  intros H. unfold trim, trimEnd.
  rewrite (trimStart_no_space s).
  - rewrite trimStart_no_space; [apply rev_involutive|].
    pose proof (head_of_rev_printable s H) as Hr.
    destruct (rev s); [done|]. by apply printable_not_space.
  - destruct s as [|c r]; [done|]. simpl in H.
    apply andb_true_iff in H as [H _]. by apply printable_not_space.
Qed.

End SimpleURLFacts.

Section SimpleURLLaws.

Import ArchiveId.

Lemma lower_unit_scheme c :
  scheme_unit c = true ->
  scheme_unit (lower_unit c) = true /\ printable (lower_unit c) = true /\
  (is_alpha c = true -> is_alpha (lower_unit c) = true) /\
  lower_unit (lower_unit c) = lower_unit c /\ (c =? 58) = false.
Proof.
  intros H.
  assert (Hl : lower_unit c = (if is_upper c then c + 32 else c)).
  { unfold lower_unit. destruct (is_upper c); [done|].
    destruct ((192 <=? c) && (c <=? 222) && negb (c =? 215)) eqn:E; [|done].
    unfold scheme_unit, is_alpha, is_upper, is_lower, is_digit in H. unit_arith. }
  assert (Hi : lower_unit (lower_unit c) = lower_unit c).
  { pose proof (lower_unit_lowered c) as Hlow. unfold lowered in Hlow.
    apply andb_true_iff in Hlow as [H1 H2].
    apply negb_true_iff in H1. apply negb_true_iff in H2.
    unfold lower_unit at 1. by rewrite H1, H2. }
  rewrite Hi, Hl. clear Hi Hl.
  unfold scheme_unit, printable, is_alpha, is_upper, is_lower, is_digit in *.
  destruct ((65 <=? c) && (c <=? 90)) eqn:E; split_and!; try done; try intros Ha; unit_arith.
Qed.

End SimpleURLLaws.

Section SimpleURLLaws2.

Import ArchiveId.

Lemma toLowerCase_scheme sch :
  forallb scheme_unit sch = true ->
  forallb scheme_unit (toLowerCase sch) = true /\
  forallb printable (toLowerCase sch) = true /\
  toLowerCase (toLowerCase sch) = toLowerCase sch /\
  forallb (fun c => negb (c =? 58)) (toLowerCase sch) = true.
Proof.
  induction sch as [|c r IH]; simpl; [done|].
  intros [Hc Hr]%andb_true_iff.
  destruct (IH Hr) as (I1 & I2 & I3 & I4).
  destruct (lower_unit_scheme c Hc) as (L1 & L2 & _ & L4 & _).
  destruct (lower_unit_scheme (lower_unit c) L1) as (_ & _ & _ & _ & L5).
  rewrite L1, L2, L4, L5, I1, I2, I3, I4. done.
Qed.

Lemma part_printable (mark : N) (o : option str) :
  forallb printable (match o with Some q => mark :: q | None => [] end) = true ->
  match o with Some q => forallb printable q = true | None => True end.
Proof. destruct o; simpl; [|done]. by intros [_ H]%andb_true_iff. Qed.

Lemma simple_parse_wf s u : simple_parse s = Some u -> simple_wf u.
Proof.
  unfold simple_parse. set (s' := strip_c0 s).
  destruct (forallb printable s') eqn:Hp; simpl; [|done].
  destruct (break_at (fun c => c =? 58) s') as [sch [after|]] eqn:E1; [|done].
  destruct sch as [|c0 sch']; [done|].
  destruct (is_alpha c0 && forallb scheme_unit (c0 :: sch')) eqn:Hs; [|done].
  destruct (break_at (fun c => c =? 35) after) as [before frag] eqn:E2.
  destruct (break_at (fun c => c =? 63) before) as [path qry] eqn:E3.
  intros [= <-].
  apply andb_true_iff in Hs as [Ha Hs].
  apply break_at_spec in E1 as [_ (c1 & Hc1 & Es')].
  apply break_at_spec in E2 as [Hb2 E2].
  apply break_at_spec in E3 as [Hb3 E3].
  destruct (toLowerCase_scheme _ Hs) as (S1 & S2 & S3 & S4).
  apply N.eqb_eq in Hc1. subst c1.
  rewrite Es' in Hp. rewrite forallb_app in Hp.
  apply andb_true_iff in Hp as [_ Hp]. simpl in Hp.
  assert (Hbefore : forallb printable before = true /\
                    forallb printable (match frag with Some f => 35 :: f | None => [] end) = true).
  { destruct frag as [f|].
    - destruct E2 as (c & Hc & ->). apply N.eqb_eq in Hc. subst c.
      rewrite forallb_app in Hp. by apply andb_true_iff in Hp.
    - subst after. done. }
  destruct Hbefore as [Hbef Hfrag].
  assert (Hpath : forallb printable path = true /\
                  forallb printable (match qry with Some q => 63 :: q | None => [] end) = true /\
                  forallb (fun c => negb (c =? 35)) path = true /\
                  match qry with Some q => forallb (fun c => negb (c =? 35)) q = true | None => True end).
  { destruct qry as [q|].
    - destruct E3 as (c & Hc & ->). apply N.eqb_eq in Hc. subst c.
      rewrite forallb_app in Hbef, Hb2. simpl in Hb2.
      apply andb_true_iff in Hbef as [? ?].
      apply andb_true_iff in Hb2 as [? ?]. done.
    - subst before. done. }
  destruct Hpath as (Hpp & Hqp & Hp35 & Hq35).
  unfold simple_wf. simpl. split_and!; try done.
  - simpl in Hs. apply andb_true_iff in Hs as [Hc0 _].
    destruct (lower_unit_scheme c0 Hc0) as (_ & _ & H & _). by apply H.
  - simpl in S2. apply andb_true_iff in S2 as [S2 S2'].
    rewrite S2. simpl. rewrite forallb_app, S2'. simpl.
    rewrite !forallb_app, Hpp, Hqp, Hfrag. done.
Qed.

Lemma simple_roundtrip u : simple_wf u -> simple_parse (simple_toString u) = Some u.
Proof.
  destruct u as [sch path qry frag]. unfold simple_wf. simpl.
  intros (Ha & Hs & Hl & Hp & H63 & H35 & Hq).
  unfold simple_parse. rewrite (strip_c0_printable _ Hp), Hp. simpl.
  unfold simple_toString; simpl.
  destruct (toLowerCase_scheme _ Hs) as (_ & _ & _ & S4). rewrite Hl in S4.
  rewrite (break_at_hit _ sch 58 _ S4 eq_refl).
  destruct sch as [|c0 sch']; [done|]. rewrite Ha, Hs. simpl.
  set (qpart := match qry with Some q => 63 :: q | None => [] end).
  assert (Hqpart : forallb (fun c => negb (c =? 35)) (path ++ qpart) = true).
  { rewrite forallb_app, H35. subst qpart. destruct qry; [|done]. simpl. by rewrite Hq. }
  assert (E2 : break_at (fun c => c =? 35)
                 (path ++ qpart ++ match frag with Some f => 35 :: f | None => [] end)
               = (path ++ qpart, frag)).
  { rewrite app_assoc. destruct frag as [f|].
    - by apply break_at_hit.
    - rewrite app_nil_r. by apply break_at_miss. }
  rewrite E2.
  assert (E3 : break_at (fun c => c =? 63) (path ++ qpart) = (path, qry)).
  { subst qpart. destruct qry as [q|].
    - by apply break_at_hit.
    - rewrite app_nil_r. by apply break_at_miss. }
  rewrite E3. simpl in Hl |- *. by rewrite Hl.
Qed.

Lemma toString_printable sch path qry frag :
  forallb printable
    (simple_toString {| scheme := sch; rest := path; query := qry; fragment := frag |}) = true
  <-> forallb printable sch = true /\ forallb printable path = true /\
      forallb printable (match qry with Some q => 63 :: q | None => [] end) = true /\
      forallb printable (match frag with Some f => 35 :: f | None => [] end) = true.
Proof.
  unfold simple_toString. cbn [scheme rest query fragment].
  rewrite !forallb_app. cbn [forallb].
  change (printable 58) with true. cbn [andb].
  rewrite !andb_true_iff. tauto.
Qed.

Lemma simple_wf_set_hash u :
  simple_wf u -> simple_wf (set_hash_empty SimpleURL u).
Proof.
  destruct u as [sch path qry frag]. unfold simple_wf.
  cbn [set_hash_empty SimpleURL scheme rest query fragment].
  rewrite !toString_printable.
  intros (Ha & Hs & Hl & Hp & H63 & H35 & Hq). split_and!; try done; tauto.
Qed.

Lemma simple_wf_set_search u :
  simple_wf u -> simple_wf (set_search_empty SimpleURL u).
Proof.
  destruct u as [sch path qry frag]. unfold simple_wf.
  cbn [set_search_empty SimpleURL scheme rest query fragment].
  rewrite !toString_printable.
  intros (Ha & Hs & Hl & Hp & H63 & H35 & Hq). split_and!; try done; tauto.
Qed.

Lemma built_simple_wf u : built SimpleURL u -> simple_wf u.
Proof.
  induction 1 as [s u E|u _ IH|u _ IH].
  - by eapply simple_parse_wf.
  - by apply simple_wf_set_hash.
  - by apply simple_wf_set_search.
Qed.

Lemma SimpleURL_laws : URLLaws SimpleURL.
Proof.
  split; intros u Hb; try reflexivity.
  - by apply simple_roundtrip, built_simple_wf.
  - apply trim_printable. by apply built_simple_wf in Hb as (_ & _ & _ & ? & _).
Qed.

Lemma normalizeUrl_makeArchiveId_witness :
  normalizeUrl SimpleURL
    (normalizeUrl SimpleURL (lit " https://example.com/a/b?utm=1#top "))
  = lit "https://example.com/a/b" /\
  makeArchiveId SimpleURL (lit "https://example.com/a/b?utm=1#top") (lit "a-b")
  = makeArchiveId SimpleURL (lit "https://example.com/a/b#bottom") (lit "a-b").
Proof.
  destruct (normalizeUrl_makeArchiveId SimpleURL SimpleURL_laws) as (_ & H2 & _ & H4).
  split.
  - rewrite H2. by vm_compute.
  - eapply H4; by vm_compute.
Defined.

End SimpleURLLaws2.

(** ** The job queue *)

Section QueueFacts.

Import Queue.

Lemma str_eqb_eq (a b : str) : str_eqb a b = true <-> a = b.
Proof. unfold str_eqb. apply bool_decide_eq_true. Qed.

Lemma str_eqb_neq (a b : str) : str_eqb a b = false <-> a <> b.
Proof. unfold str_eqb. apply bool_decide_eq_false. Qed.

Lemma existsb_url u rs :
  existsb (fun r => str_eqb (url r) u) rs = true <->
  (0 < length (filter (fun r => url r = u) rs))%nat.
Proof.
  induction rs as [|r rs IH]; simpl.
  - split; [done|lia].
  - rewrite orb_true_iff, IH, str_eqb_eq, filter_cons.
    destruct (decide (url r = u)); simpl; split; intros; try lia; tauto.
Qed.

Lemma count_url_map u (g : row -> row) rs :
  (forall r, url (g r) = url r) ->
  length (filter (fun r => url r = u) (map g rs)) = length (filter (fun r => url r = u) rs).
Proof.
  intros Hg. induction rs as [|r rs IH]; simpl; [done|].
  rewrite !filter_cons, Hg. destruct (decide (url r = u)); simpl; by rewrite IH.
Qed.

Lemma count_url_update_where u i g d :
  (forall r, url (g r) = url r) ->
  count_url u (update_where i g d) = count_url u d.
Proof.
  intros Hg. unfold count_url, update_where. simpl.
  apply count_url_map. intros r. by destruct (id r =? i).
Qed.

Lemma count_url_mark u now i d : count_url u (mark_processing now i d) = count_url u d.
Proof. by apply count_url_update_where. Qed.

Lemma count_url_updateJobStatus u now i st e d :
  count_url u (updateJobStatus now i st e d) = count_url u d.
Proof.
  unfold updateJobStatus. destruct (str_eqb st completed);
    by apply count_url_update_where.
Qed.

Lemma count_url_getNextJob u now d : count_url u (snd (getNextJob now d)) = count_url u d.
Proof.
  unfold getNextJob. destruct (select_pending d); simpl; [|done].
  apply count_url_mark.
Qed.

Lemma addJob_present now u d :
  (0 < count_url u d)%nat ->
  fst (addJob now u d) = false /\ rows (snd (addJob now u d)) = rows d.
Proof.
  intros H. unfold addJob. apply existsb_url in H. by rewrite H.
Qed.

Lemma count_url_addJob u now v d :
  (0 < count_url u d)%nat -> count_url u (snd (addJob now v d)) = count_url u d.
Proof.
  intros H. unfold addJob.
  destruct (existsb _ _) eqn:E; simpl; [done|].
  unfold count_url. simpl. rewrite filter_app, length_app, filter_cons. simpl.
  destruct (decide (v = u)) as [->|]; simpl; [|lia].
  apply existsb_url in H. unfold count_url in *. congruence.
Qed.

Lemma count_url_apply_op u d o :
  (0 < count_url u d)%nat -> count_url u (apply_op d o) = count_url u d.
Proof.
  intros H. destruct o; simpl.
  - by apply count_url_addJob.
  - apply count_url_getNextJob.
  - apply count_url_mark.
  - apply count_url_updateJobStatus.
Qed.

Lemma count_url_apply_ops u ops : forall d,
  (0 < count_url u d)%nat -> count_url u (apply_ops d ops) = count_url u d.
Proof.
  unfold apply_ops. induction ops as [|o ops IH]; intros d H; simpl; [done|].
  rewrite IH; rewrite count_url_apply_op; done.
Qed.

(** C9. Once [addJob(u)] has inserted [u], the table holds exactly one row
    for [u]; after any further statements on the queue (so whatever status
    the job has reached) another [addJob(u)] returns [false] and leaves every
    row as it was, so that the table holds exactly one row for [u] before
    and after it. *)
Theorem addJob_twice now u d d1 :
  addJob now u d = (true, d1) ->
  count_url u d1 = 1%nat /\
  forall ops now',
    let d2 := apply_ops d1 ops in
    fst (addJob now' u d2) = false /\
    rows (snd (addJob now' u d2)) = rows d2 /\
    count_url u d2 = 1%nat /\
    count_url u (snd (addJob now' u d2)) = 1%nat.
Proof.
  intros H. unfold addJob in H.
  destruct (existsb _ _) eqn:E; [done|]. injection H as <-.
  assert (H1 : count_url u
    {| rows := rows d ++
         [ {| id := seq d + 1; url := u; status := pending; added_at := now;
              started_at := None; completed_at := None;
              error_message := None; retry_count := 0 |} ];
       seq := seq d + 1 |} = 1%nat).
  { unfold count_url. simpl. rewrite filter_app, length_app, filter_cons. simpl.
    destruct (decide (u = u)); [|done]. simpl.
    destruct (length (filter (fun r => url r = u) (rows d))) eqn:L; [done|].
    assert (existsb (fun r => str_eqb (url r) u) (rows d) = true)
      by (apply existsb_url; lia). congruence. }
  split; [done|]. intros ops now' d2.
  assert (H2 : count_url u d2 = 1%nat).
  { unfold d2. rewrite count_url_apply_ops; [done|]. rewrite H1. lia. }
  destruct (addJob_present now' u d2) as [Hf Hr]; [lia|].
  repeat split; [exact Hf | exact Hr | exact H2 |].
  unfold count_url in *. by rewrite Hr.
Qed.

Lemma addJob_twice_witness :
  let d0 := {| rows := []; seq := 0 |} in
  let u := lit "https://example.com/a" in
  let d1 := snd (addJob 10 u d0) in
  let d2 := apply_ops d1 [Claim 11; Update 12 1 (lit "failed") (Some (lit "Archive failed"))] in
  count_url u d1 = 1%nat /\
  fst (addJob 13 u d2) = false /\
  rows (snd (addJob 13 u d2)) = rows d2 /\
  count_url u d2 = 1%nat /\
  count_url u (snd (addJob 13 u d2)) = 1%nat.
Proof.
  intros d0 u d1 d2.
  destruct (addJob_twice 10 u d0 d1) as [H1 H2]; [by vm_compute|].
  split; [exact H1|]. apply H2.
Defined.

End QueueFacts.

Section QueueTransitions.

Import Queue.

Lemma lookup_job_update_where j i g d :
  (forall r, id (g r) = id r) ->
  lookup_job j (update_where i g d)
  = (fun r => if id r =? i then g r else r) <$> lookup_job j d.
Proof.
  intros Hg. unfold lookup_job, update_where. simpl.
  induction (rows d) as [|r rs IH]; simpl; [done|].
  assert (id (if id r =? i then g r else r) = id r) as -> by (destruct (id r =? i); auto).
  by destruct (id r =? j).
Qed.

Lemma lookup_job_id j d r : lookup_job j d = Some r -> id r = j.
Proof.
  unfold lookup_job. intros H. apply find_some in H as [_ H]. by apply N.eqb_eq.
Qed.

Lemma updateJobStatus_update_where now i st e d :
  updateJobStatus now i st e d = update_where i (with_status now st e) d.
Proof. unfold updateJobStatus, with_status. by destruct (str_eqb st completed). Qed.

(** C5, as the code has it. [updateJobStatus(id, status, error)] runs its
    UPDATE on every job, terminal or not: the row with that id gets the
    given status and error message, and [completed_at] is set to the current
    time exactly when the status is "completed"; its other columns, the
    other rows and the number of rows are unchanged. Nothing is reported. *)
Theorem updateJobStatus_unconditional now i st e d :
  (forall r, lookup_job i d = Some r ->
     lookup_job i (updateJobStatus now i st e d) = Some (with_status now st e r)) /\
  (forall j, j <> i ->
     lookup_job j (updateJobStatus now i st e d) = lookup_job j d) /\
  length (rows (updateJobStatus now i st e d)) = length (rows d).
Proof.
  rewrite updateJobStatus_update_where. split_and!.
  - intros r H. rewrite lookup_job_update_where by done. rewrite H. simpl.
    apply lookup_job_id in H. apply N.eqb_eq in H. by rewrite H.
  - intros j Hj. rewrite lookup_job_update_where by done.
    destruct (lookup_job j d) as [r|] eqn:H; [|done]. simpl.
    apply lookup_job_id in H. subst j.
    apply N.eqb_neq in Hj. by rewrite Hj.
  - unfold update_where. simpl. apply length_map.
Qed.

Lemma updateJobStatus_unconditional_witness :
  exists r, lookup_job 1 Samples.one_completed = Some r /\ terminal r /\
    lookup_job 1 (updateJobStatus 20 1 failed (Some (lit "late")) Samples.one_completed)
    = Some (with_status 20 failed (Some (lit "late")) r).
Proof.
  eexists. split; [by vm_compute|]. split; [left; by vm_compute|].
  apply (proj1 (updateJobStatus_unconditional 20 1 failed (Some (lit "late"))
                  Samples.one_completed)).
  by vm_compute.
Defined.

(** C5, as stated, fails: a completed job is turned into a failed one. *)
Lemma terminal_job_overwritten :
  ~ (forall now i st e d r,
       lookup_job i d = Some r -> terminal r ->
       updateJobStatus now i st e d = d).
Proof.
  intros H.
  specialize (H 20%Z 1 failed (Some (lit "late")) Samples.one_completed).
  vm_compute in H. specialize (H _ eq_refl (or_introl eq_refl)). discriminate H.
Qed.

Lemma claim_race now d r :
  select_pending d = Some r ->
  run_schedule now [false; true; false; true]
    {| store := d; first_caller := AtSelect; second_caller := AtSelect |}
  = {| store := mark_processing now (id r) (mark_processing now (id r) d);
       first_caller := Returned (Some r);
       second_caller := Returned (Some r) |}.
Proof.
  intros H. unfold run_schedule, schedule_step. simpl. rewrite H. simpl.
  by rewrite H.
Qed.

(** C1, on the code. Two callers of [getNextJob()] on a table with one
    pending job, the second running its SELECT before the first has run its
    UPDATE: both return the job with id 1, which the table holds once, in
    processing. *)
Theorem getNextJob_race :
  let c := run_schedule 11 [false; true; false; true]
             {| store := Samples.one_pending;
                first_caller := AtSelect; second_caller := AtSelect |} in
  (exists r, first_caller c = Returned (Some r) /\
             second_caller c = Returned (Some r) /\ id r = 1) /\
  map (fun r => (id r, status r)) (rows (store c)) = [(1, processing)].
Proof.
  intros c. subst c.
  assert (H : select_pending Samples.one_pending <> None) by (by vm_compute).
  destruct (select_pending Samples.one_pending) as [r|] eqn:E; [|done].
  rewrite (claim_race _ _ _ E). simpl. split.
  - exists r. split_and!; try done. vm_compute in E. by injection E as <-.
  - vm_compute in E. injection E as <-. by vm_compute.
Qed.

End QueueTransitions.

Section WorkerFacts.

Import Queue Worker.

Lemma least_pending_spec key rs : forall best r,
  least_pending key rs best = Some r ->
  ((In r rs /\ status r = pending) \/ best = Some r) /\
  (forall r', In r' rs -> status r' = pending -> (key r <= key r')%Z) /\
  (forall b, best = Some b -> (key r <= key b)%Z).
Proof.
  induction rs as [|x rs IH]; simpl; intros best r H.
  - subst best. split_and!; [by right|done|]. by intros b [= ->].
  - destruct (str_eqb (status x) pending) eqn:Ex.
    + apply str_eqb_eq in Ex. destruct best as [b|].
      * destruct (Z.ltb_spec (key x) (key b)).
        -- apply IH in H as ([[? ?]|[= ->]] & H2 & H3); split_and!; auto.
           ++ intros r' [<-|Hr'] Hp; [by apply H3|by apply H2].
           ++ intros b' [= <-]. specialize (H3 x eq_refl). lia.
           ++ intros r' [<-|Hr'] Hp; [done|by apply H2].
           ++ intros b' [= <-]. lia.
        -- apply IH in H as ([[? ?]|[= ->]] & H2 & H3); split_and!; auto.
           ++ intros r' [<-|Hr'] Hp; [|by apply H2].
              specialize (H3 b eq_refl). lia.
           ++ intros r' [<-|Hr'] Hp; [done|by apply H2].
      * apply IH in H as ([[? ?]|[= ->]] & H2 & H3); split_and!; auto.
        -- intros r' [<-|Hr'] Hp; [by apply H3|by apply H2].
        -- done.
        -- intros r' [<-|Hr'] Hp; [done|by apply H2].
        -- done.
    + apply str_eqb_neq in Ex.
      apply IH in H as (H1 & H2 & H3). split_and!; [tauto| |done].
      intros r' [<-|Hr'] Hp; [done|by apply H2].
Qed.

(** What the SELECT of [getNextJob] returns: a pending row that no pending
    row is older than. *)
Lemma select_pending_oldest d r :
  select_pending d = Some r ->
  In r (rows d) /\ status r = pending /\
  forall r', In r' (rows d) -> status r' = pending -> (added_at r <= added_at r')%Z.
Proof.
  intros H. apply least_pending_spec in H as ([[? ?]|?] & H2 & _); [|done].
  by split_and!.
Qed.

Lemma least_pending_none key rs : forall best,
  least_pending key rs best = None ->
  best = None /\ forall r, In r rs -> status r <> pending.
Proof.
  induction rs as [|x rs IH]; simpl; intros best H; [done|].
  destruct (str_eqb (status x) pending) eqn:Ex.
  - destruct best as [b|]; [destruct (key x <? key b)%Z|];
      apply IH in H as [? _]; done.
  - apply str_eqb_neq in Ex. apply IH in H as [-> H]. split; [done|].
    intros r [<-|Hr]; auto.
Qed.

(** It returns nothing exactly when no row is pending. *)
Lemma select_pending_none d :
  select_pending d = None <-> forall r, In r (rows d) -> status r <> pending.
Proof.
  split.
  - intros H. by apply least_pending_none in H as [_ H].
  - intros H. destruct (select_pending d) as [r|] eqn:E; [|done].
    apply select_pending_oldest in E as (Hin & Hp & _). by apply H in Hin.
Qed.

(** After a claim, no row with the claimed id is pending. *)
Lemma claimed_not_pending i g d r :
  (forall x, status (g x) <> pending) ->
  In r (rows (update_where i g d)) -> status r = pending -> id r <> i.
Proof.
  intros Hg Hin Hp. unfold update_where in Hin. simpl in Hin.
  apply in_map_iff in Hin as (x & <- & _).
  destruct (id x =? i) eqn:E; [by apply Hg in Hp|]. by apply N.eqb_neq.
Qed.

(** Two calls of [getNextJob()], the second starting after the first has
    returned, never return the same job id. *)
Lemma getNextJob_in_sequence now now' d r1 d1 r2 d2 :
  getNextJob now d = (Some r1, d1) -> getNextJob now' d1 = (Some r2, d2) ->
  id r2 <> id r1.
Proof.
  unfold getNextJob. destruct (select_pending d) as [r|]; [|done].
  intros [= <- <-]. destruct (select_pending _) as [r'|] eqn:E; [|done].
  intros [= <- <-]. apply select_pending_oldest in E as (Hin & Hp & _).
  by eapply claimed_not_pending; [|exact Hin|exact Hp].
Qed.

(** The sibling worker's [claimPending], atomic, has that property for any
    two callers: their claims run one after the other. *)
Lemma claimPending_in_sequence d r1 d1 r2 d2 :
  claimPending d = (Some r1, d1) -> claimPending d1 = (Some r2, d2) ->
  id r2 <> id r1.
Proof.
  unfold claimPending, pickPending.
  destruct (least_pending _ (rows d) None) as [r|]; [|done].
  intros [= <- <-]. destruct (least_pending _ _ None) as [r'|] eqn:E; [|done].
  intros [= <- <-].
  apply least_pending_spec in E as ([[Hin Hp]|?] & _ & _); [|done].
  by eapply claimed_not_pending; [|exact Hin|exact Hp].
Qed.

Lemma pending_count_map (g : row -> row) rs :
  (forall r, status (g r) = pending -> status r = pending) ->
  (length (filter (fun r => status r = pending) (map g rs))
   <= length (filter (fun r => status r = pending) rs))%nat /\
  ((exists r, In r rs /\ status r = pending /\ status (g r) <> pending) ->
   (length (filter (fun r => status r = pending) (map g rs))
    < length (filter (fun r => status r = pending) rs))%nat).
Proof.
  intros Hg. induction rs as [|x rs [IH1 IH2]]; simpl.
  - split; [done|]. by intros (r & [] & _).
  - rewrite !filter_cons.
    destruct (decide (status (g x) = pending)) as [Hx|Hx];
      destruct (decide (status x = pending)) as [Hx'|Hx']; simpl.
    + split; [lia|]. intros (r & [<-|Hr] & Hp & Hn); [done|].
      assert (length (filter (fun r => status r = pending) (map g rs))
              < length (filter (fun r => status r = pending) rs))%nat
        by (apply IH2; eauto). lia.
    + by apply Hg in Hx.
    + split; lia.
    + split; [lia|]. intros (r & [<-|Hr] & Hp & Hn); [done|]. apply IH2. eauto.
Qed.

Lemma pending_count_getNextJob now d job d1 :
  getNextJob now d = (Some job, d1) -> (pending_count d1 < pending_count d)%nat.
Proof.
  unfold getNextJob. destruct (select_pending d) as [r|] eqn:E; [|done].
  intros [= <- <-]. apply select_pending_oldest in E as (Hin & Hp & _).
  unfold pending_count, mark_processing, update_where. simpl.
  apply pending_count_map.
  - intros x. destruct (id x =? id r); [done|auto].
  - exists r. split_and!; try done. by rewrite N.eqb_refl.
Qed.

Lemma pending_count_updateJobStatus now i st e d :
  st <> pending -> (pending_count (updateJobStatus now i st e d) <= pending_count d)%nat.
Proof.
  intros Hst. rewrite updateJobStatus_update_where.
  unfold pending_count, update_where. simpl.
  apply pending_count_map. intros x. destruct (id x =? i); [|done].
  simpl. done.
Qed.

(** The loop of [processQueue] ends: each round takes one job out of
    pending, so fuel above the number of pending jobs is never used up. *)
Lemma processQueue_loop_returns worlds ct ft fuel : forall k d,
  (pending_count d < fuel)%nat ->
  exists res, processQueue_loop worlds ct ft fuel k d = Some res.
Proof.
  induction fuel as [|fuel IH]; intros k d Hlt; [lia|]. simpl.
  destruct (getNextJob (ct k) d) as [[job|] d1] eqn:E; [|by eexists].
  apply pending_count_getNextJob in E.
  destruct (run_job worlds job) as [ok|]; [|by eexists].
  apply IH.
  assert (H : (if ok then lit "complete" else lit "failed") <> pending)
    by (by destruct ok).
  pose proof (pending_count_updateJobStatus (ft k) (id job) _
                (if ok then None else Some (lit "Archive failed")) d1 H).
  lia.
Qed.

Lemma processQueue_returns worlds ct ft d :
  exists res, processQueue worlds ct ft d = Some res.
Proof. apply processQueue_loop_returns. unfold pending_count. lia. Qed.

(** C6, on the code. The worker runs on a table with one pending job whose
    archive run succeeds (every browser call succeeds): the loop ends, and
    the job's row then holds the status "complete", which is none of
    "pending", "processing", "completed", "failed", and no completion time. *)
Theorem processQueue_writes_complete :
  exists d r,
    processQueue (fun _ => Samples.quiet) (fun _ => 11%Z) (fun _ => 12%Z)
      Samples.one_pending = Some (Browser.Ok tt, d) /\
    run_job (fun _ => Samples.quiet)
      {| id := 1; url := lit "https://example.com/a"; status := pending;
         added_at := 10; started_at := None; completed_at := None;
         error_message := None; retry_count := 0 |} = Browser.Ok true /\
    rows d = [r] /\ id r = 1 /\
    status r = lit "complete" /\ status r <> completed /\
    ~ In (status r) [pending; processing; completed; failed] /\
    completed_at r = None.
Proof.
  eexists _, _. split_and!; try by vm_compute.
  vm_compute. intros [H|[H|[H|[H|[]]]]]; discriminate H.
Qed.

End WorkerFacts.

(** ** The dismissal pass *)

Section PopupFacts.

Import Scan Browser Archiver.





Lemma scan_frames_ok terms frs : forall i w s,
  exists s' ms evs, scan_frames terms i frs w s = (s', Ok ms) /\
                    trace s' = trace s ++ evs /\ forallb is_scan evs = true.
Proof.
  induction frs as [|fr frs IH]; intros i w s; simpl.
  - exists s, [], []. by rewrite app_nil_r.
  - unfold bind at 1, try_catch, scan_frame.
    destruct (rejects w (tick s) (ScanFrame i)); simpl.
    + destruct (IH (S i) w {| tick := S (tick s); trace := trace s |})
        as (s' & ms & evs & E & Ht & Hs).
      unfold bind. rewrite E. by exists s', ([] ++ ms), evs.
    + destruct (nth_error (frames w (tick s)) i) as [f|]; simpl;
        [destruct (findMatchingClickableElements f terms) as [found|]; simpl|].
      * destruct (IH (S i) w {| tick := S (tick s); trace := trace s ++ [ScanFrame i] |})
          as (s' & ms & evs & E & Ht & Hs).
        unfold bind. rewrite E. exists s', (found ++ ms), (ScanFrame i :: evs).
        split_and!; [done| |done]. rewrite Ht. simpl. by rewrite <- app_assoc.
      * destruct (IH (S i) w {| tick := S (tick s); trace := trace s |})
          as (s' & ms & evs & E & Ht & Hs).
        unfold bind. rewrite E. by exists s', ([] ++ ms), evs.
      * destruct (IH (S i) w {| tick := S (tick s); trace := trace s |})
          as (s' & ms & evs & E & Ht & Hs).
        unfold bind. rewrite E. by exists s', ([] ++ ms), evs.
Qed.

Lemma findAllMatchingElements_ok terms w s :
  exists s' ms evs, findAllMatchingElements terms w s = (s', Ok ms) /\
                    trace s' = trace s ++ evs /\ forallb is_scan evs = true.
Proof. unfold findAllMatchingElements, bind, get_frames. apply scan_frames_ok. Qed.

Lemma clickElements_one el w s :
  exists s' evs, clickElements [el] w s = (s', Ok tt) /\
                 trace s' = trace s ++ evs /\ In evs (click_events (text el)).
Proof.
  unfold clickElements, swallow, try_catch, bind, ret.
  destruct (str_eqb (tag el) (lit "a") && (15 <? length (text el))%nat).
  { exists s, []. rewrite app_nil_r. split_and!; [done|done|by left]. }
  unfold call. simpl.
  destruct (rejects w (tick s) (Evaluate InstallNavBlock)); simpl.
  { eexists _, []. rewrite app_nil_r. split_and!; [done|done|by left]. }
  destruct (rejects w (S (tick s)) (Evaluate (DispatchClick (text el)))); simpl.
  { eexists _, _. split_and!; [done|done|]. right; by left. }
  destruct (rejects w (S (S (tick s))) (Evaluate RemoveNavBlock)); simpl.
  { eexists _, _. split_and!; [done| |].
    - simpl. by rewrite <- app_assoc.
    - right; right; by left. }
  eexists _, _. split_and!; [done| |].
  - simpl. by rewrite <- !app_assoc.
  - right; right; right; by left.
Qed.

End PopupFacts.


(** ** The capture pipeline *)

Section PipelineFacts.

Import Scan Browser Archiver.
Local Open Scope browser_scope.

Lemma bind_call {B} o (k : unit -> M B) w s :
  bind (call o) k w s
  = if rejects w (tick s) o
    then ({| tick := S (tick s); trace := trace s |}, Throw)
    else k tt w {| tick := S (tick s); trace := trace s ++ [o] |}.
Proof. unfold bind, call. by destruct (rejects w (tick s) o). Qed.

Lemma bind_swallow_call {B} o (k : unit -> M B) w s :
  bind (swallow (call o)) k w s
  = k tt w (if rejects w (tick s) o
            then {| tick := S (tick s); trace := trace s |}
            else {| tick := S (tick s); trace := trace s ++ [o] |}).
Proof. unfold bind, swallow, try_catch, call, ret. by destruct (rejects w (tick s) o). Qed.

Lemma bind_expand {B} (k : unit -> M B) w s :
  bind clickExpandableContent k w s
  = if rejects w (tick s) (Evaluate ExpandClick)
    then ({| tick := S (tick s); trace := trace s |}, Throw)
    else if truthy w (tick s)
    then bind (call (Evaluate ExpandVerify)) k w
           {| tick := S (tick s); trace := trace s ++ [Evaluate ExpandClick] |}
    else k tt w {| tick := S (tick s); trace := trace s ++ [Evaluate ExpandClick] |}.
Proof.
  unfold clickExpandableContent, bind, call_truthy.
  destruct (rejects w (tick s) (Evaluate ExpandClick)); [done|].
  by destruct (truthy w (tick s)).
Qed.

Lemma bind_readMore {B} (k : unit -> M B) w s :
  bind clickReadMore k w s
  = if rejects w (tick s) (Evaluate ReadMore)
    then ({| tick := S (tick s); trace := trace s |}, Throw)
    else k tt w {| tick := S (tick s); trace := trace s ++ [Evaluate ReadMore] |}.
Proof.
  unfold clickReadMore, bind, call_truthy, ret.
  by destruct (rejects w (tick s) (Evaluate ReadMore)).
Qed.

(** The dismissal pass never throws, and appends only its own calls. *)
Lemma clickPopups_runs w s :
  exists s' evs, clickPopups w s = (s', Ok tt) /\
                 trace s' = trace s ++ evs /\ forallb popup_op evs = true.
Proof.
  destruct (findAllMatchingElements_ok Config.SEARCH_TERMS w s)
    as (s1 & matches & evs0 & E & Ht & Hs).
  assert (Hp0 : forallb popup_op evs0 = true).
  { rewrite forallb_forall in *. intros o Ho. apply Hs in Ho. by destruct o. }
  unfold clickPopups, bind. rewrite E.
  destruct matches as [|m ms]; [by exists s1, evs0|].
  destruct (unique_by_text (m :: ms)) as [|first rest]; [by exists s1, evs0|].
  destruct (clickElements_one first w s1) as (s2 & evs & E2 & Ht2 & Hin).
  exists s2, (evs0 ++ evs). split_and!; [done| |].
  - by rewrite Ht2, Ht, app_assoc.
  - rewrite forallb_app, Hp0. simpl in Hin.
    destruct Hin as [<-|[<-|[<-|[<-|[]]]]]; done.
Qed.

Lemma bind_clickPopups {B} w s :
  exists s' evs,
    (forall k : unit -> M B, bind clickPopups k w s = k tt w s') /\
    trace s' = trace s ++ evs /\ forallb popup_op evs = true.
Proof.
  destruct (clickPopups_runs w s) as (s' & evs & E & Ht & Hp).
  exists s', evs. split_and!; try done. intros k. unfold bind. by rewrite E.
Qed.

End PipelineFacts.

Section PipelineOrder.

Import Scan Browser Archiver.
Local Open Scope browser_scope.

Local Ltac step H :=
  first
    [ rewrite bind_call in H
    | rewrite bind_expand in H
    | rewrite bind_readMore in H ];
  cbn [tick trace] in H;
  match type of H with
  | (if rejects ?w ?n ?o then _ else _) = _ =>
      destruct (rejects w n o); [discriminate H|]
  end.

Local Ltac idle H :=
  rewrite bind_swallow_call in H; cbn [tick trace] in H;
  match type of H with
  | context [ if rejects ?w ?n ?o then _ else _ ] => destruct (rejects w n o)
  end.

Local Ltac finish H :=
  unfold call in H; cbn [tick trace] in H;
  match type of H with
  | (if rejects ?w ?n ?o then _ else _) = _ =>
      destruct (rejects w n o); [discriminate H|]
  end;
  injection H as <-; cbn [trace];
  repeat match goal with Ht : trace _ = _ |- _ => rewrite Ht; clear Ht end;
  unfold saveArchive_events; rewrite <- ?app_assoc; reflexivity.

(** C2, as the code has it. In every run of [saveArchive] that completes,
    the calls it makes are, in this order: the directory is made, the raw
    HTML is serialized and written, before any call of [saveArchive] that
    changes the document; then the two notification-prompt stages, the
    dismissal pass and the lazy-load scroll; then the sanitized HTML is
    serialized; then the footer-button and ad-removal stages, and the
    sanitized HTML is written; then the expansion stage and the layout fix;
    then the screenshot; then a second scroll, the anti-clip pass and a
    second layout fix; then the PDF; then the metadata. So the sanitized
    HTML, the screenshot and the PDF are captured in that order, each after
    the stages that precede it. *)
Theorem saveArchive_order w s s' :
  saveArchive w s = (s', Ok tt) ->
  exists dismissal expand idle1 idle2,
    trace s' = trace s ++ saveArchive_events dismissal expand idle1 idle2 /\
    forallb popup_op dismissal = true /\
    (expand = [Evaluate ExpandClick] \/
     expand = [Evaluate ExpandClick; Evaluate ExpandVerify]) /\
    (idle1 = [] \/ idle1 = [WaitForNetworkIdle]) /\
    (idle2 = [] \/ idle2 = [WaitForNetworkIdle]).
Proof.
  unfold saveArchive, dismissOneSignalSlidedown, removeOneSignalBell,
    triggerLazyLoadScroll, clickBottomFooterButton, removeAllGoogleAds.
  intros H.
  do 5 step H.
  match type of H with
  | bind clickPopups _ ?w ?s0 = _ =>
      destruct (@bind_clickPopups unit w s0) as (s1 & dismissal & Hk & Ht & Hp)
  end.
  rewrite Hk in H. clear Hk. cbn [trace] in Ht.
  exists dismissal.
  do 5 step H.
  step H.
  destruct (truthy w _).
  - exists [Evaluate ExpandClick; Evaluate ExpandVerify].
    do 3 step H.
    idle H; [exists [] | exists [WaitForNetworkIdle]];
      (do 2 step H;
       (idle H; [exists [] | exists [WaitForNetworkIdle]];
        ((split; [|auto]); do 7 step H; finish H))).
  - exists [Evaluate ExpandClick].
    do 2 step H.
    idle H; [exists [] | exists [WaitForNetworkIdle]];
      (do 2 step H;
       (idle H; [exists [] | exists [WaitForNetworkIdle]];
        ((split; [|auto]); do 7 step H; finish H))).
Qed.

End PipelineOrder.

Section PipelineFailure.

Import Scan Browser Archiver Queue Worker.
Local Open Scope browser_scope.

Lemma saveArchive_order_witness :
  exists dismissal expand idle1 idle2,
    trace (fst (saveArchive Samples.quiet start))
    = trace start ++ saveArchive_events dismissal expand idle1 idle2.
Proof.
  destruct (saveArchive_order Samples.quiet start (fst (saveArchive Samples.quiet start)))
    as (dis & ex & i1 & i2 & H & _); [by vm_compute|].
  by exists dis, ex, i1, i2.
Defined.

(** C2, as stated, fails. In the run of [runArchive] in which every call
    succeeds, the anti-clip pass (the 28th call) changes the document after
    both serializations, between the screenshot and the PDF; the expansion
    click and the ad removal of [runArchive] also precede the serialization
    of the raw HTML. *)
Lemma captures_interleaved_with_stages :
  ~ ordering_as_stated
      (trace (fst (runArchive (lit "https://example.com/a") Samples.quiet start))).
Proof.
  intros (raw & html & shot & pdf & _ & Hhtml & _ & _ & _ & _ & _ & Hm).
  assert (Hj : (raw < 27)%nat /\ (27 < html)%nat)
    by (apply (Hm 27%nat (Evaluate AntiClip)); by vm_compute).
  destruct Hj as [_ Hj]. vm_compute in Hhtml.
  do 28 (destruct html as [|html]; [lia|]).
  do 8 (destruct html as [|html]; [discriminate Hhtml|]).
  destruct html; discriminate Hhtml.
Qed.

Local Ltac thrown :=
  eexists _, _; split; [reflexivity|]; cbn [trace]; split;
  [ rewrite <- ?app_assoc; first [reflexivity | symmetry; apply app_nil_r]
  | reflexivity ].

(** Where the page function of [removeAllGoogleAds] throws, the body of
    [runArchive] throws before [saveArchive] is reached. *)
Lemma runArchive_body_throws url w s :
  (forall n, rejects w n (Evaluate RemoveAds) = true) ->
  exists s' evs,
    (call NewPage ;; call SetUserAgent ;; call SetExtraHTTPHeaders ;;
     call SetViewport ;; call (Goto url) ;; clickExpandableContent ;;
     clickReadMore ;; clickBottomFooterButton ;; removeAllGoogleAds ;;
     saveArchive ;; ret true) w s = (s', Throw) /\
    trace s' = trace s ++ evs /\ forallb (fun o => negb (is_capture o)) evs = true.
Proof.
  intros Hads. unfold clickBottomFooterButton, removeAllGoogleAds.
  repeat
    (first [rewrite bind_call | rewrite bind_expand | rewrite bind_readMore];
     cbn [tick trace];
     match goal with
     | |- context [ if rejects ?w ?n ?o then _ else _ ] =>
         let E := fresh "E" in
         destruct (rejects w n o) eqn:E;
         [ thrown
         | try (rewrite Hads in E; discriminate E); clear E;
           try match goal with
               | |- context [ if truthy ?w ?n then _ else _ ] => destruct (truthy w n)
               end ]
     end).
Qed.

(** Where the page function of [removeAllGoogleAds] throws, [runArchive]
    never returns [true] and captures neither screenshot nor PDF. *)
Lemma runArchive_ads_throw url w s :
  (forall n, rejects w n (Evaluate RemoveAds) = true) ->
  exists s' r evs,
    runArchive url w s = (s', r) /\ r <> Ok true /\
    trace s' = trace s ++ evs /\ forallb (fun o => negb (is_capture o)) evs = true.
Proof.
  intros Hads. unfold runArchive. rewrite bind_call.
  destruct (rejects w (tick s) Launch).
  { eexists _, _, []. split_and!; [reflexivity|done|by rewrite app_nil_r|done]. }
  unfold try_finally, try_catch.
  destruct (runArchive_body_throws url w
              {| tick := S (tick s); trace := trace s ++ [Launch] |} Hads)
    as (s1 & evs & -> & Ht & Hc).
  cbn [trace] in Ht. unfold ret, call.
  destruct (rejects w (tick s1) Close).
  - exists {| tick := S (tick s1); trace := trace s1 |}, Throw, (Launch :: evs).
    split_and!; [done|done| |done]. cbn [trace]. by rewrite Ht, <- app_assoc.
  - exists {| tick := S (tick s1); trace := trace s1 ++ [Close] |}, (Ok false),
      (Launch :: evs ++ [Close]).
    split_and!; [done|done| |].
    + cbn [trace]. by rewrite Ht, <- !app_assoc.
    + cbn [forallb]. rewrite forallb_app, Hc. done.
Qed.

(** C3, on the code. The page function of [removeAllGoogleAds] throws and
    every other call succeeds: [runArchive] returns [false] after the calls
    listed, without screenshot or PDF, and the worker leaves the job
    "failed" with the message "Archive failed". *)
Theorem ad_removal_failure_fails_job :
  let url := lit "https://example.com/a" in
  let run := runArchive url Samples.ads_throw start in
  snd run = Ok false /\
  trace (fst run)
  = [Launch; NewPage; SetUserAgent; SetExtraHTTPHeaders; SetViewport; Goto url;
     Evaluate ExpandClick; Evaluate ReadMore; Evaluate FooterButton; Close] /\
  (let late := runArchive url Samples.ads_throw_late start in
   snd late = Ok false /\
   trace (fst late)
   = [Launch; NewPage; SetUserAgent; SetExtraHTTPHeaders; SetViewport; Goto url;
      Evaluate ExpandClick; Evaluate ReadMore; Evaluate FooterButton;
      Evaluate RemoveAds; Mkdir; Content; WriteFile (lit "page_raw.html");
      Evaluate DismissSlidedown; Evaluate RemoveBell; Evaluate LazyScroll;
      Content; Evaluate FooterButton; Close]) /\
  (exists d r,
     processQueue (fun _ => Samples.ads_throw) (fun _ => 11%Z) (fun _ => 12%Z)
       Samples.one_pending = Some (Ok tt, d) /\
     rows d = [r] /\ status r = failed /\
     error_message r = Some (lit "Archive failed") /\ completed_at r = None) /\
  (exists d r,
     processQueue (fun _ => Samples.ads_throw_late) (fun _ => 11%Z) (fun _ => 12%Z)
       Samples.one_pending = Some (Ok tt, d) /\
     rows d = [r] /\ status r = failed /\
     error_message r = Some (lit "Archive failed") /\ completed_at r = None).
Proof.
  intros url run.
  split_and!; [by vm_compute|by vm_compute|by vm_compute| |];
    eexists _, _; split_and!; by vm_compute.
Qed.

End PipelineFailure.

(** ** Whole tables *)

Section TableFacts.

Import Queue.

Lemma map_update_where {B} (p : row -> B) i g d :
  (forall r, p (g r) = p r) ->
  map p (rows (update_where i g d)) = map p (rows d).
Proof.
  intros Hg. unfold update_where. cbn [rows]. rewrite map_map.
  apply map_ext. intros r. destruct (id r =? i); [apply Hg | reflexivity].
Qed.

Lemma well_formed_update_where i g d :
  (forall r, id (g r) = id r) -> (forall r, url (g r) = url r) ->
  well_formed d -> well_formed (update_where i g d).
Proof.
  intros Hi Hu (H1 & H2 & H3). unfold well_formed.
  rewrite (map_update_where id), (map_update_where url) by assumption.
  split_and!; try assumption.
  unfold update_where. cbn [rows seq].
  rewrite List.Forall_map. eapply List.Forall_impl; [| exact H3].
  intros r Hr. cbn beta. destruct (id r =? i); [rewrite Hi |]; exact Hr.
Qed.

Lemma well_formed_mark now i d : well_formed d -> well_formed (mark_processing now i d).
Proof. apply well_formed_update_where; reflexivity. Qed.

Lemma well_formed_updateJobStatus now i st e d :
  well_formed d -> well_formed (updateJobStatus now i st e d).
Proof.
  rewrite updateJobStatus_update_where.
  apply well_formed_update_where; reflexivity.
Qed.

Lemma well_formed_getNextJob now d :
  well_formed d -> well_formed (snd (getNextJob now d)).
Proof.
  intros H. unfold getNextJob. destruct (select_pending d); cbn [snd];
    [apply well_formed_mark |]; exact H.
Qed.

Lemma count_url_zero u rs :
  length (filter (fun r => url r = u) rs) = 0%nat <-> ~ In u (map url rs).
Proof.
  induction rs as [|r rs IH]; cbn [map In].
  - split; [intros _ [] | reflexivity].
  - rewrite filter_cons. destruct (decide (url r = u)) as [E|E]; cbn [length].
    + split; [discriminate | intros H; exfalso; apply H; left; exact E].
    + rewrite IH. split; [intros H [?|?]; [contradiction | exact (H H0)] | tauto].
Qed.

Lemma well_formed_addJob now u d :
  well_formed d -> well_formed (snd (addJob now u d)).
Proof.
  intros (H1 & H2 & H3). unfold addJob.
  destruct (existsb _ _) eqn:E; cbn [snd].
  { split_and!; [exact H1 | exact H2 |]. cbn [rows seq].
    eapply List.Forall_impl; [| exact H3]. cbn beta. intros; lia. }
  assert (Hn : ~ In u (map url (rows d))).
  { apply count_url_zero.
    destruct (length (filter (fun r => url r = u) (rows d))) eqn:L; [reflexivity |].
    assert (existsb (fun r => str_eqb (url r) u) (rows d) = true)
      by (apply existsb_url; lia).
    congruence. }
  unfold well_formed. cbn [rows seq]. rewrite !map_app. cbn [map id url].
  split_and!.
  - apply NoDup_app. split_and!; [exact H1 | | apply NoDup_singleton].
    intros j Hj Hj'. apply list_elem_of_singleton in Hj'. subst j.
    apply list_elem_of_In, in_map_iff in Hj. destruct Hj as (r & Hr & Hin).
    rewrite List.Forall_forall in H3. specialize (H3 r Hin). lia.
  - apply NoDup_app. split_and!; [exact H2 | | apply NoDup_singleton].
    intros v Hv Hv'. apply list_elem_of_singleton in Hv'. subst v.
    apply Hn, list_elem_of_In, Hv.
  - apply List.Forall_app. split.
    + eapply List.Forall_impl; [| exact H3]. cbn beta. intros; lia.
    + constructor; [cbn [id]; lia | constructor].
Qed.

Lemma well_formed_apply_op d o : well_formed d -> well_formed (apply_op d o).
Proof.
  destruct o; cbn [apply_op].
  - apply well_formed_addJob.
  - apply well_formed_getNextJob.
  - apply well_formed_mark.
  - apply well_formed_updateJobStatus.
Qed.

Lemma well_formed_empty : well_formed empty.
Proof. split_and!; cbn; constructor. Qed.

(** In a table with a primary key, the row with a given id is the row
    found by that id. *)
Lemma lookup_job_In d r :
  NoDup (map id (rows d)) -> In r (rows d) -> lookup_job (id r) d = Some r.
Proof.
  unfold lookup_job. induction (rows d) as [|x rs IH]; [intros _ [] |].
  cbn [map find In]. intros Hnd [E|Hin].
  - subst x. rewrite N.eqb_refl. reflexivity.
  - apply NoDup_cons in Hnd as [Hx Hnd].
    destruct (id x =? id r) eqn:E.
    + apply N.eqb_eq in E. exfalso. apply Hx. rewrite E.
      apply list_elem_of_In, in_map, Hin.
    + apply IH; assumption.
Qed.

Lemma lookup_job_Some_In i d r : lookup_job i d = Some r -> In r (rows d).
Proof. unfold lookup_job. intros H. apply find_some in H. tauto. Qed.

Lemma lookup_job_None i d :
  lookup_job i d = None <-> ~ In i (map id (rows d)).
Proof.
  unfold lookup_job. induction (rows d) as [|x rs IH]; cbn [find map In].
  - split; [intros _ [] | reflexivity].
  - destruct (id x =? i) eqn:E.
    + apply N.eqb_eq in E. split; [discriminate | intros H; exfalso; apply H; left; exact E].
    + apply N.eqb_neq in E. rewrite IH. tauto.
Qed.

(** X1. Every table the queue's statements build from the table [init]
    creates keeps the promises of the schema: the ids are pairwise different,
    positive and at most the largest id handed out, and no url occurs in two
    rows. *)
Theorem queue_schema_invariant (ops : list queue_op) :
  well_formed (apply_ops empty ops).
Proof.
  unfold apply_ops. generalize well_formed_empty. generalize empty.
  induction ops as [|o ops IH]; intros d Hd; cbn [fold_left]; [exact Hd |].
  apply IH, well_formed_apply_op, Hd.
Qed.

Lemma lookup_job_app_fresh j rs r :
  find (fun x => id x =? j) (rs ++ [r])
  = match find (fun x => id x =? j) rs with
    | Some x => Some x
    | None => if id r =? j then Some r else None
    end.
Proof.
  induction rs as [|x rs IH]; cbn [app find]; [reflexivity |].
  destruct (id x =? j); [reflexivity | exact IH].
Qed.

(** X2. [addJob] on a url the table does not hold returns true, gives the
    job the next id, stores it as pending with no start or completion time,
    and leaves every other row as it was; on a url the table holds it
    returns false. *)
Theorem addJob_inserts_pending now u d :
  well_formed d ->
  (fst (addJob now u d) = true <-> count_url u d = 0%nat) /\
  (count_url u d = 0%nat ->
   let d1 := snd (addJob now u d) in
   lookup_job (Queue.seq d + 1) d1 = Some (fresh_row now (Queue.seq d + 1) u) /\
   (forall j, j <> Queue.seq d + 1 -> lookup_job j d1 = lookup_job j d) /\
   pending_count d1 = S (pending_count d)).
Proof.
  intros (H1 & H2 & H3). unfold addJob.
  pose proof (existsb_url u (rows d)) as Hex. fold (count_url u d) in Hex.
  destruct (existsb _ _) eqn:E; cbn [fst snd].
  - assert (0 < count_url u d)%nat by (apply Hex; reflexivity).
    split; [split; [discriminate | lia] | lia].
  - assert (Hz : count_url u d = 0%nat).
    { destruct (count_url u d); [reflexivity |].
      assert (false = true) by (apply Hex; lia). discriminate. }
    split; [tauto |]. intros _. cbn zeta.
    assert (Hfresh : lookup_job (Queue.seq d + 1) d = None).
    { apply lookup_job_None. intros Hin. apply in_map_iff in Hin.
      destruct Hin as (r & Hr & Hin).
      rewrite List.Forall_forall in H3. specialize (H3 r Hin). lia. }
    unfold lookup_job in *. cbn [rows]. split_and!.
    + rewrite lookup_job_app_fresh, Hfresh. cbn [id]. rewrite N.eqb_refl. reflexivity.
    + intros j Hj. rewrite lookup_job_app_fresh. cbn [id].
      destruct (find (fun x => id x =? j) (rows d)); [reflexivity |].
      apply N.eqb_neq in Hj. rewrite N.eqb_sym in Hj. rewrite Hj. reflexivity.
    + unfold pending_count. cbn [rows]. rewrite filter_app, length_app.
      rewrite filter_cons, filter_nil. cbn [status].
      destruct (decide (pending = pending)); [cbn [length]; lia | contradiction].
Qed.

Lemma addJob_inserts_pending_witness :
  lookup_job 1 (snd (addJob 10 (lit "https://example.com/a") empty))
  = Some (fresh_row 10 1 (lit "https://example.com/a")).
Proof.
  apply (addJob_inserts_pending 10 (lit "https://example.com/a") empty
           well_formed_empty).
  reflexivity.
Defined.

Lemma pending_count_claim i g rs r :
  NoDup (map id rs) -> In r rs -> id r = i -> status r = pending ->
  (forall x, id (g x) = id x) -> (forall x, status (g x) <> pending) ->
  S (length (filter (fun x => status x = pending)
               (map (fun x => if id x =? i then g x else x) rs)))
  = length (filter (fun x => status x = pending) rs).
Proof.
  intros Hnd Hin Hi Hs Hgi Hgs. subst i.
  induction rs as [|x rs IH]; [destruct Hin |].
  cbn [map] in *. apply NoDup_cons in Hnd as [Hx Hnd].
  destruct Hin as [E|Hin].
  - subst x. rewrite N.eqb_refl. rewrite !filter_cons.
    destruct (decide (status (g r) = pending)) as [B|_]; [destruct (Hgs _ B) |].
    destruct (decide (status r = pending)) as [_|B]; [| contradiction].
    cbn [length]. f_equal. f_equal. f_equal.
    rewrite <- (map_id rs) at 2. apply map_ext_in. intros y Hy.
    destruct (id y =? id r) eqn:E; [| reflexivity].
    apply N.eqb_eq in E. exfalso. apply Hx. rewrite <- E.
    apply list_elem_of_In, in_map, Hy.
  - assert (Hne : (id x =? id r) = false).
    { apply N.eqb_neq. intros E. apply Hx. rewrite E.
      apply list_elem_of_In, in_map, Hin. }
    rewrite Hne. rewrite !filter_cons.
    destruct (decide (status x = pending)); cbn [length];
      rewrite <- (IH Hnd Hin); reflexivity.
Qed.

Lemma getNextJob_sequential now d :
  well_formed d ->
  match getNextJob now d with
  | (None, d1) => d1 = d /\ pending_count d = 0%nat
  | (Some r, d1) =>
      lookup_job (id r) d = Some r /\ status r = pending /\
      (forall r', In r' (rows d) -> status r' = pending ->
                  (added_at r <= added_at r')%Z) /\
      lookup_job (id r) d1 = Some (claimed now r) /\
      (forall j, j <> id r -> lookup_job j d1 = lookup_job j d) /\
      S (pending_count d1) = pending_count d
  end.
Proof.
  intros (H1 & H2 & H3). unfold getNextJob.
  destruct (select_pending d) as [r|] eqn:E.
  - destruct (select_pending_oldest _ _ E) as (Hin & Hs & Hold).
    pose proof (lookup_job_In d r H1 Hin) as Hl.
    split_and!; try assumption.
    + unfold mark_processing. rewrite lookup_job_update_where by reflexivity.
      rewrite Hl. cbn [fmap option_fmap option_map]. rewrite N.eqb_refl. reflexivity.
    + intros j Hj. unfold mark_processing.
      rewrite lookup_job_update_where by reflexivity.
      destruct (lookup_job j d) as [x|] eqn:Lx; [| reflexivity].
      cbn [fmap option_fmap option_map].
      rewrite (lookup_job_id _ _ _ Lx).
      apply N.eqb_neq in Hj. rewrite Hj. reflexivity.
    + unfold pending_count, mark_processing, update_where. cbn [rows].
      apply (pending_count_claim (id r) _ (rows d) r); try assumption; try reflexivity.
      intros x. cbn. discriminate.
  - split; [reflexivity |].
    rewrite select_pending_none in E. unfold pending_count.
    destruct (filter _ (rows d)) as [|x l] eqn:F; [reflexivity |].
    assert (Hx : x ∈ filter (fun r => status r = pending) (rows d))
      by (rewrite F; left).
    apply list_elem_of_filter in Hx as [Hs Hx].
    apply list_elem_of_In in Hx. destruct (E x Hx Hs).
Qed.

(** X3. [getNextJob] with nothing running between its two statements
    returns null exactly when no row is pending and then changes nothing;
    otherwise it returns a pending row with the least [added_at] as it was
    before the claim, and in the table that row, and no other, has become
    processing with [started_at] set to the time of the claim. Either way
    the table still keeps the promises of the schema. *)
Theorem getNextJob_claims_oldest now d :
  well_formed d ->
  well_formed (snd (getNextJob now d)) /\
  match getNextJob now d with
  | (None, d1) => d1 = d /\ pending_count d = 0%nat
  | (Some r, d1) =>
      lookup_job (id r) d = Some r /\ status r = pending /\
      (forall r', In r' (rows d) -> status r' = pending ->
                  (added_at r <= added_at r')%Z) /\
      lookup_job (id r) d1 = Some (claimed now r) /\
      (forall j, j <> id r -> lookup_job j d1 = lookup_job j d) /\
      S (pending_count d1) = pending_count d
  end.
Proof.
  intros Hwf. split.
  - apply well_formed_getNextJob, Hwf.
  - pose proof (getNextJob_sequential now d Hwf) as H.
    destruct (getNextJob now d) as [[r|] d1]; exact H.
Qed.

Lemma getNextJob_claims_oldest_witness :
  exists r d1, getNextJob 11 Samples.one_pending = (Some r, d1) /\
    lookup_job (id r) d1 = Some (claimed 11 r) /\
    S (pending_count d1) = pending_count Samples.one_pending.
Proof.
  pose proof (proj2 (getNextJob_claims_oldest 11 Samples.one_pending
                       (well_formed_addJob 10 _ empty well_formed_empty))) as H.
  eexists _, _. split; [reflexivity |].
  destruct H as (_ & _ & _ & Hl & _ & Hp). split; [exact Hl | exact Hp].
Defined.

End TableFacts.
(** ** Statistics and unknown ids *)

Section StatsFacts.

Import Queue.

Lemma count_status_zero st d :
  count_status st d = 0 <-> ~ In st (map status (rows d)).
Proof.
  unfold count_status. induction (rows d) as [|r rs IH]; cbn [map In].
  - split; [intros _ [] | reflexivity].
  - rewrite filter_cons. destruct (decide (status r = st)) as [E|E]; cbn [length].
    + split; [lia | intros H; exfalso; apply H; left; exact E].
    + rewrite IH. tauto.
Qed.

Lemma set_stat_proto (c : N) (m : gmap str N) : set_stat (lit "__proto__") c m = m.
Proof. reflexivity. Qed.

Lemma set_stat_insert (k : str) (c : N) (m : gmap str N) :
  k <> lit "__proto__" -> set_stat k c m = <[ k := c ]> m.
Proof.
  intros H. unfold set_stat. apply str_eqb_neq in H. rewrite H. reflexivity.
Qed.

Lemma stats_fold_lookup (c : str -> N) (base : gmap str N) (st : str) rs :
  (st <> lit "__proto__" -> In st (map status rs) ->
   foldr (fun r m => set_stat (status r) (c (status r)) m) base rs !! st = Some (c st)) /\
  ((st = lit "__proto__" \/ ~ In st (map status rs)) ->
   foldr (fun r m => set_stat (status r) (c (status r)) m) base rs !! st = base !! st).
Proof.
  induction rs as [|r rs [IH1 IH2]]; cbn [foldr map In].
  - split; [intros _ [] | reflexivity].
  - destruct (decide (status r = lit "__proto__")) as [P|P].
    + rewrite P, set_stat_proto. split.
      * intros Hp [E|H]; [congruence | apply IH1; assumption].
      * intros [E|H]; apply IH2; [left; exact E | right; tauto].
    + rewrite set_stat_insert by exact P.
      destruct (decide (status r = st)) as [E|E].
      * subst st. rewrite lookup_insert_eq. split; [reflexivity |].
        intros [?|?]; [contradiction | tauto].
      * rewrite lookup_insert_ne by exact E. split.
        -- intros Hp [?|H]; [contradiction | apply IH1; assumption].
        -- intros [?|H]; apply IH2; [left; assumption | right; tauto].
Qed.

Lemma getStats_present d st :
  st <> lit "total" -> st <> lit "__proto__" -> In st (map status (rows d)) ->
  getStats d !! st = Some (count_status st d).
Proof.
  intros Hst Hp Hin. unfold getStats. rewrite lookup_insert_ne by congruence.
  apply (proj1 (stats_fold_lookup (fun s => count_status s d) _ st (rows d)));
    assumption.
Qed.

Lemma getStats_absent d st :
  st <> lit "total" -> st = lit "__proto__" \/ ~ In st (map status (rows d)) ->
  getStats d !! st
  = (list_to_map [(lit "total", 0); (pending, 0); (processing, 0);
                  (completed, 0); (failed, 0)] : gmap str N) !! st.
Proof.
  intros Hst Hin. unfold getStats. rewrite lookup_insert_ne by congruence.
  apply (proj2 (stats_fold_lookup (fun s => count_status s d) _ st (rows d))), Hin.
Qed.

Lemma In_status_dec st (rs : list row) :
  In st (map status rs) \/ ~ In st (map status rs).
Proof.
  destruct (decide (st ∈ map status rs)) as [H|H];
    rewrite list_elem_of_In in H; tauto.
Qed.

Lemma known_count_le rs :
  (length (filter (fun r => status r = pending) rs)
   + length (filter (fun r => status r = processing) rs)
   + length (filter (fun r => status r = completed) rs)
   + length (filter (fun r => status r = failed) rs)
   <= length rs)%nat /\
  (Forall (fun r => In (status r) known_statuses) rs ->
   (length (filter (fun r => status r = pending) rs)
    + length (filter (fun r => status r = processing) rs)
    + length (filter (fun r => status r = completed) rs)
    + length (filter (fun r => status r = failed) rs)
    = length rs)%nat).
Proof.
  induction rs as [|r rs [IH1 IH2]]; [split; reflexivity |].
  rewrite !filter_cons.
  assert (D : forall a b : str, a <> b -> status r = a -> status r = b -> False)
    by congruence.
  assert (P1 : pending <> processing) by discriminate.
  assert (P2 : pending <> completed) by discriminate.
  assert (P3 : pending <> failed) by discriminate.
  assert (P4 : processing <> completed) by discriminate.
  assert (P5 : processing <> failed) by discriminate.
  assert (P6 : completed <> failed) by discriminate.
  split.
  - destruct (decide (status r = pending)), (decide (status r = processing)),
      (decide (status r = completed)), (decide (status r = failed));
      cbn [length]; try lia; exfalso; eauto.
  - intros HF. apply List.Forall_cons_iff in HF as [Hr HF]. specialize (IH2 HF).
    destruct (decide (status r = pending)), (decide (status r = processing)),
      (decide (status r = completed)), (decide (status r = failed));
      cbn [length]; try lia; exfalso; eauto.
    cbn [known_statuses In] in Hr. intuition congruence.
Qed.

(** X4. [getStats] reports under [total] the number of rows and under each
    of the four names it starts with the number of rows of that status; any
    other status but [__proto__] is a key exactly when some row has it, and
    [__proto__] is never a key, whatever the rows hold. The four known
    counts never exceed the total, and add up to it when no row has another
    status. *)
Theorem getStats_counts d :
  getStats d !! lit "total" = Some (N.of_nat (length (rows d))) /\
  (forall st, In st known_statuses -> getStats d !! st = Some (count_status st d)) /\
  (forall st, st <> lit "total" -> st <> lit "__proto__" -> ~ In st known_statuses ->
     getStats d !! st
     = if decide (count_status st d = 0) then None else Some (count_status st d)) /\
  getStats d !! lit "__proto__" = None /\
  count_status pending d + count_status processing d
    + count_status completed d + count_status failed d
    <= N.of_nat (length (rows d)) /\
  (Forall (fun r => In (status r) known_statuses) (rows d) ->
   count_status pending d + count_status processing d
     + count_status completed d + count_status failed d
     = N.of_nat (length (rows d))).
Proof.
  split_and!.
  - unfold getStats. apply lookup_insert_eq.
  - intros st Hst.
    assert (Hne : st <> lit "total" /\ st <> lit "__proto__").
    { cbn [known_statuses In] in Hst. split; intros ->;
        destruct Hst as [H|[H|[H|[H|[]]]]]; discriminate H. }
    destruct Hne as [Hne Hp].
    destruct (In_status_dec st (rows d)) as [H|H].
    + apply getStats_present; assumption.
    + rewrite getStats_absent by tauto.
      apply count_status_zero in H. rewrite H.
      cbn [known_statuses In] in Hst.
      destruct Hst as [<-|[<-|[<-|[<-|[]]]]]; reflexivity.
  - intros st Hst Hp Hk.
    destruct (In_status_dec st (rows d)) as [H|H];
      destruct (decide (count_status st d = 0)) as [Z|Z].
    + apply count_status_zero in Z. contradiction.
    + apply getStats_present; assumption.
    + rewrite getStats_absent by tauto.
      cbn [known_statuses In] in Hk.
      cbn [list_to_map foldr curry fst snd uncurry].
      rewrite !lookup_insert_ne by (intros <-; tauto).
      apply lookup_empty.
    + exfalso. apply Z, count_status_zero, H.
  - rewrite getStats_absent; [reflexivity | discriminate | left; reflexivity].
  - unfold count_status. pose proof (proj1 (known_count_le (rows d))). lia.
  - intros HF. unfold count_status.
    pose proof (proj2 (known_count_le (rows d)) HF). lia.
Qed.

Lemma getStats_counts_witness :
  getStats Samples.one_completed !! completed = Some 1 /\
  getStats Samples.one_completed !! pending = Some 0.
Proof.
  split.
  - rewrite (proj1 (proj2 (getStats_counts Samples.one_completed)) completed).
    + reflexivity.
    + right; right; left; reflexivity.
  - rewrite (proj1 (proj2 (getStats_counts Samples.one_completed)) pending).
    + reflexivity.
    + left; reflexivity.
Defined.

Lemma update_where_absent i g d :
  lookup_job i d = None -> update_where i g d = d.
Proof.
  intros H. rewrite lookup_job_None in H. unfold update_where.
  destruct d as [rs s]. cbn [rows Queue.seq] in *. f_equal.
  induction rs as [|x rs IH]; [reflexivity |]. cbn [map In] in *.
  destruct (id x =? i) eqn:E.
  - apply N.eqb_eq in E. exfalso. apply H. left. exact E.
  - f_equal. apply IH. tauto.
Qed.

(** X5. Given an id no row has, [updateJobStatus] changes nothing (and
    reports nothing: it returns as for a row it updated), and so does the
    UPDATE of a claim. *)
Theorem updateJobStatus_unknown_id now i st e d :
  lookup_job i d = None ->
  updateJobStatus now i st e d = d /\ mark_processing now i d = d.
Proof.
  intros H. rewrite updateJobStatus_update_where. unfold mark_processing.
  split; apply update_where_absent, H.
Qed.

Lemma updateJobStatus_unknown_id_witness :
  updateJobStatus 12 7 completed None Samples.one_pending = Samples.one_pending.
Proof.
  apply (updateJobStatus_unknown_id 12 7 completed None Samples.one_pending).
  reflexivity.
Defined.

End StatsFacts.

(** ** The worker loop from first to last iteration *)

Section WorkerRuns.

Import Queue Worker.

Lemma finished_not_pending worlds x y : finished worlds x y -> status y <> pending.
Proof.
  intros (t & ok & _ & ->). cbn [status]. destruct ok; discriminate.
Qed.

Lemma Forall2_map_r_In {A} (R : A -> A -> Prop) (f : A -> A) l :
  (forall x, In x l -> R x (f x)) -> Forall2 R l (map f l).
Proof.
  induction l as [|x l IH]; intros H; cbn [map]; constructor.
  - apply H. left. reflexivity.
  - apply IH. intros y Hy. apply H. right. exact Hy.
Qed.

Lemma Forall2_compose {A} (R S T : A -> A -> Prop) l1 : forall l2 l3,
  (forall x y z, R x y -> S y z -> T x z) ->
  Forall2 R l1 l2 -> Forall2 S l2 l3 -> Forall2 T l1 l3.
Proof.
  induction l1 as [|x l1 IH]; intros l2 l3 H H1 H2.
  - inversion H1; subst. inversion H2; subst. constructor.
  - inversion H1; subst. inversion H2; subst. constructor; eauto.
Qed.

Lemma Forall2_map_eq {A B} (p : A -> B) (R : A -> A -> Prop) l1 : forall l2,
  (forall x y, R x y -> p y = p x) -> Forall2 R l1 l2 -> map p l2 = map p l1.
Proof.
  induction l1 as [|x l1 IH]; intros l2 H H1; inversion H1; subst; cbn [map].
  - reflexivity.
  - f_equal; eauto.
Qed.

Lemma same_id_same_row d x y :
  NoDup (map id (rows d)) -> In x (rows d) -> In y (rows d) -> id x = id y -> x = y.
Proof.
  intros Hnd Hx Hy E.
  pose proof (lookup_job_In d x Hnd Hx) as Lx.
  pose proof (lookup_job_In d y Hnd Hy) as Ly.
  rewrite E in Lx. congruence.
Qed.

Lemma claim_rows now d job d1 :
  well_formed d -> getNextJob now d = (Some job, d1) ->
  In job (rows d) /\ status job = pending /\
  rows d1 = map (fun r => if id r =? id job then claimed now r else r) (rows d) /\
  forall x, In x (rows d) -> id x = id job -> x = job.
Proof.
  intros (H1 & _) E. unfold getNextJob in E.
  destruct (select_pending d) as [r|] eqn:S; [| discriminate].
  injection E as <- <-.
  destruct (select_pending_oldest _ _ S) as (Hin & Hs & _).
  split_and!; try assumption; [reflexivity |].
  intros x Hx Ex. eapply same_id_same_row; eassumption.
Qed.

Lemma iteration_rows worlds now now' d job d1 ok :
  well_formed d -> getNextJob now d = (Some job, d1) ->
  run_job worlds job = Browser.Ok ok ->
  Forall2 (iteration_step worlds) (rows d)
    (rows (updateJobStatus now' (id job)
             (if ok then lit "complete" else lit "failed")
             (if ok then None else Some (lit "Archive failed")) d1)).
Proof.
  intros Hwf E Hrun.
  destruct (claim_rows _ _ _ _ Hwf E) as (Hin & Hs & Hrows & Huniq).
  rewrite updateJobStatus_update_where. unfold update_where. cbn [rows].
  rewrite Hrows, map_map. apply Forall2_map_r_In. intros x Hx.
  destruct (id x =? id job) eqn:Ex.
  - apply N.eqb_eq in Ex. pose proof (Huniq x Hx Ex) as ->.
    cbn [id claimed]. rewrite N.eqb_refl.
    right. split; [exact Hs |]. exists now, ok. split; [exact Hrun |].
    destruct ok; reflexivity.
  - rewrite Ex. left. reflexivity.
Qed.

Lemma pending_rows_zero d :
  pending_count d = 0%nat <-> forall r, In r (rows d) -> status r <> pending.
Proof.
  unfold pending_count. induction (rows d) as [|x rs IH]; cbn [In].
  - split; [intros _ r [] | reflexivity].
  - rewrite filter_cons. destruct (decide (status x = pending)) as [E|E]; cbn [length].
    + split; [discriminate | intros H; destruct (H x (or_introl eq_refl) E)].
    + rewrite IH. split.
      * intros H r [<-|Hr]; [exact E | apply H, Hr].
      * intros H r Hr. apply H. right. exact Hr.
Qed.

Lemma getNextJob_none now d d1 :
  getNextJob now d = (None, d1) -> d1 = d /\ pending_count d = 0%nat.
Proof.
  unfold getNextJob. destruct (select_pending d) eqn:S; [discriminate |].
  intros E. injection E as <-. split; [reflexivity |].
  apply pending_rows_zero, select_pending_none, S.
Qed.

Lemma processQueue_loop_ok worlds ct ft fuel : forall k d d',
  well_formed d ->
  processQueue_loop worlds ct ft fuel k d = Some (Browser.Ok tt, d') ->
  Forall2 (iteration_step worlds) (rows d) (rows d') /\ pending_count d' = 0%nat.
Proof.
  induction fuel as [|fuel IH]; intros k d d' Hwf H; [discriminate |].
  cbn [processQueue_loop] in H.
  destruct (getNextJob (ct k) d) as [[job|] d1] eqn:E.
  - destruct (run_job worlds job) as [ok|] eqn:Hrun; [| discriminate].
    pose proof (iteration_rows worlds _ (ft k) _ _ _ _ Hwf E Hrun) as Hstep.
    assert (Hwf2 : well_formed
              (updateJobStatus (ft k) (id job)
                 (if ok then lit "complete" else lit "failed")
                 (if ok then None else Some (lit "Archive failed")) d1)).
    { apply well_formed_updateJobStatus.
      replace d1 with (snd (getNextJob (ct k) d)) by (rewrite E; reflexivity).
      apply well_formed_getNextJob, Hwf. }
    destruct (IH _ _ _ Hwf2 H) as [Hrest Hp]. split; [| exact Hp].
    eapply Forall2_compose; [| exact Hstep | exact Hrest].
    intros x y z [->|[Hx Hf]] Hyz; [exact Hyz |].
    destruct Hyz as [->|[Hy _]]; [right; split; assumption |].
    destruct (finished_not_pending _ _ _ Hf Hy).
  - injection H as <-. apply getNextJob_none in E as [-> Hp].
    split; [| exact Hp].
    apply Forall_Forall2_diag, List.Forall_forall. intros x _. left. reflexivity.
Qed.

(** X6. When [processQueue] ends normally on a table, every row that was
    pending has been claimed and carries the outcome of its own
    [runArchive]: status [complete] and no error message when it returned
    true, status [failed] and the message [Archive failed] when it returned
    false, with [started_at] set and [completed_at] left as it was; every
    other row is untouched, and no row is pending any more. *)
Theorem processQueue_drains worlds ct ft d d' :
  well_formed d ->
  processQueue worlds ct ft d = Some (Browser.Ok tt, d') ->
  Forall2 (fun r r' => if decide (status r = pending) then finished worlds r r'
                       else r' = r) (rows d) (rows d') /\
  pending_count d' = 0%nat.
Proof.
  intros Hwf H. apply processQueue_loop_ok in H as [HF Hp]; [| exact Hwf].
  split; [| exact Hp].
  rewrite pending_rows_zero in Hp.
  assert (HF' : Forall2 (fun r r' => iteration_step worlds r r' /\ In r' (rows d'))
                  (rows d) (rows d')).
  { clear Hp. induction HF as [|x y l l' Hxy HF IH]; constructor.
    - split; [exact Hxy | left; reflexivity].
    - eapply Forall2_impl; [exact IH |]. intros a b [? ?]. split; [assumption |].
      right. assumption. }
  eapply Forall2_impl; [exact HF' |]. intros r r' [[->|[Hs Hf]] Hin].
  - destruct (decide (status r = pending)) as [E|_]; [| reflexivity].
    destruct (Hp r Hin E).
  - destruct (decide (status r = pending)); [exact Hf | contradiction].
Qed.

Lemma processQueue_drains_witness :
  exists d', processQueue (fun _ => Samples.quiet) (fun _ => 11%Z) (fun _ => 12%Z)
               Samples.one_pending = Some (Browser.Ok tt, d') /\
             pending_count d' = 0%nat.
Proof.
  destruct (processQueue (fun _ => Samples.quiet) (fun _ => 11%Z) (fun _ => 12%Z)
              Samples.one_pending) as [[[[]|] d']|] eqn:E;
    [| vm_compute in E; discriminate | vm_compute in E; discriminate].
  exists d'. split; [reflexivity |].
  apply (processQueue_drains (fun _ => Samples.quiet) (fun _ => 11%Z) (fun _ => 12%Z)
           Samples.one_pending d'
           (well_formed_addJob 10 _ empty well_formed_empty) E).
Defined.

Lemma processQueue_loop_throw worlds ct ft fuel : forall k d d',
  well_formed d ->
  processQueue_loop worlds ct ft fuel k d = Some (Browser.Throw, d') ->
  exists r t, In r (rows d) /\ status r = pending /\
    run_job worlds r = Browser.Throw /\
    lookup_job (id r) d' = Some (claimed t r).
Proof.
  induction fuel as [|fuel IH]; intros k d d' Hwf H; [discriminate |].
  cbn [processQueue_loop] in H.
  destruct (getNextJob (ct k) d) as [[job|] d1] eqn:E; [| discriminate].
  destruct (run_job worlds job) as [ok|] eqn:Hrun.
  - pose proof (iteration_rows worlds _ (ft k) _ _ _ _ Hwf E Hrun) as Hstep.
    assert (Hwf2 : well_formed
              (updateJobStatus (ft k) (id job)
                 (if ok then lit "complete" else lit "failed")
                 (if ok then None else Some (lit "Archive failed")) d1)).
    { apply well_formed_updateJobStatus.
      replace d1 with (snd (getNextJob (ct k) d)) by (rewrite E; reflexivity).
      apply well_formed_getNextJob, Hwf. }
    destruct (IH _ _ _ Hwf2 H) as (r & t & Hin & Hs & Hr & Hl).
    exists r, t. split_and!; try assumption.
    clear - Hstep Hin Hs. revert Hin.
    induction Hstep as [|x y l l' Hxy _ IHl]; cbn [In]; [tauto |].
    intros [<-|Hin]; [| right; apply IHl, Hin].
    destruct Hxy as [->|[_ Hf]]; [left; reflexivity |].
    destruct (finished_not_pending _ _ _ Hf Hs).
  - injection H as <-.
    pose proof (getNextJob_sequential (ct k) d Hwf) as Hc. rewrite E in Hc.
    destruct Hc as (Hl & Hs & _ & Hl1 & _).
    exists job, (ct k). split_and!; try assumption.
    eapply lookup_job_Some_In, Hl.
Qed.

Lemma processQueue_loop_wf worlds ct ft fuel : forall k d res d',
  well_formed d ->
  processQueue_loop worlds ct ft fuel k d = Some (res, d') -> well_formed d'.
Proof.
  induction fuel as [|fuel IH]; intros k d res d' Hwf H; [discriminate |].
  cbn [processQueue_loop] in H.
  assert (Hwf1 : well_formed (snd (getNextJob (ct k) d)))
    by apply well_formed_getNextJob, Hwf.
  destruct (getNextJob (ct k) d) as [[job|] d1]; cbn [snd] in Hwf1.
  - destruct (run_job worlds job) as [ok|].
    + eapply IH; [| exact H]. apply well_formed_updateJobStatus, Hwf1.
    + injection H as <- <-. exact Hwf1.
  - injection H as <- <-. exact Hwf1.
Qed.

Lemma lookup_job_stable d o i x :
  well_formed d -> lookup_job i d = Some x -> status x <> pending ->
  add_or_claim o = true -> lookup_job i (apply_op d o) = Some x.
Proof.
  intros Hwf Hl Hs Ho. destruct o as [now u|now| |]; try discriminate; cbn [apply_op].
  - unfold addJob. destruct (existsb _ _); cbn [snd]; [exact Hl |].
    unfold lookup_job in *. cbn [rows]. rewrite lookup_job_app_fresh, Hl. reflexivity.
  - pose proof (getNextJob_sequential now d Hwf) as Hc.
    destruct (getNextJob now d) as [[job|] d1]; cbn [snd].
    + destruct Hc as (Hj & Hp & _ & _ & Hother & _).
      rewrite Hother; [exact Hl |]. intros ->. congruence.
    + destruct Hc as [-> _]. exact Hl.
Qed.

Lemma lookup_job_stable_ops ops : forall d i x,
  well_formed d -> lookup_job i d = Some x -> status x <> pending ->
  forallb add_or_claim ops = true -> lookup_job i (apply_ops d ops) = Some x.
Proof.
  unfold apply_ops.
  induction ops as [|o ops IH]; intros d i x Hwf Hl Hs Ho; cbn [fold_left]; [exact Hl |].
  cbn [forallb] in Ho. apply andb_true_iff in Ho as [Ho Hops].
  apply IH; try assumption.
  - apply well_formed_apply_op, Hwf.
  - apply lookup_job_stable; assumption.
Qed.

(** X7. When [runArchive] throws for a job, [processQueue] is left at once
    and the job, which was pending, stays in the table as processing; since
    [getNextJob] hands out pending rows only, no sequence of later [addJob]
    and [getNextJob] calls touches that row again. *)
Theorem processQueue_throw_strands_job worlds ct ft d d' :
  well_formed d ->
  processQueue worlds ct ft d = Some (Browser.Throw, d') ->
  exists r t, In r (rows d) /\ status r = pending /\
    run_job worlds r = Browser.Throw /\
    forall ops, forallb add_or_claim ops = true ->
      lookup_job (id r) (apply_ops d' ops) = Some (claimed t r).
Proof.
  intros Hwf H.
  pose proof (processQueue_loop_wf _ _ _ _ _ _ _ _ Hwf H) as Hwf'.
  apply processQueue_loop_throw in H as (r & t & Hin & Hs & Hr & Hl); [| exact Hwf].
  exists r, t. split_and!; try assumption.
  intros ops Hops. apply lookup_job_stable_ops; try assumption.
  cbn. discriminate.
Qed.

Lemma processQueue_throw_strands_job_witness :
  exists r t,
    In r (rows Samples.one_pending) /\
    lookup_job (id r)
      (apply_ops
         (snd (getNextJob 11 Samples.one_pending))
         [Claim 13; Add 14 (lit "https://example.com/a"); Claim 15])
    = Some (claimed t r).
Proof.
  destruct (processQueue_throw_strands_job (fun _ => Cases.launch_fails)
              (fun _ => 11%Z) (fun _ => 12%Z) Samples.one_pending
              (snd (getNextJob 11 Samples.one_pending))
              (well_formed_addJob 10 _ empty well_formed_empty) eq_refl)
    as (r & t & Hin & _ & _ & H).
  exists r, t. split; [exact Hin |]. apply H. reflexivity.
Defined.

End WorkerRuns.

(** ** Whole runs, in every world *)

Section RunFacts.

Import Scan Browser Archiver.
Local Open Scope browser_scope.

Lemma emits_ret {A} P (a : A) : emits P (ret a).
Proof. intros w s. exists []. split; [symmetry; apply app_nil_r | reflexivity]. Qed.

Lemma emits_call P o : P o = true -> emits P (call o).
Proof.
  intros HP w s. unfold call. destruct (rejects w (tick s) o); cbn [fst trace].
  - exists []. split; [symmetry; apply app_nil_r | reflexivity].
  - exists [o]. split; [reflexivity |]. cbn [forallb]. rewrite HP. reflexivity.
Qed.

Lemma emits_call_truthy P o : P o = true -> emits P (call_truthy o).
Proof.
  intros HP w s. unfold call_truthy. destruct (rejects w (tick s) o); cbn [fst trace].
  - exists []. split; [symmetry; apply app_nil_r | reflexivity].
  - exists [o]. split; [reflexivity |]. cbn [forallb]. rewrite HP. reflexivity.
Qed.

Lemma emits_bind {A B} P (m : M A) (k : A -> M B) :
  emits P m -> (forall a, emits P (k a)) -> emits P (bind m k).
Proof.
  intros Hm Hk w s. unfold bind.
  destruct (Hm w s) as (e1 & Ht1 & Hp1).
  destruct (m w s) as [s1 [a|]]; cbn [fst] in Ht1.
  - destruct (Hk a w s1) as (e2 & Ht2 & Hp2).
    exists (e1 ++ e2). split.
    + rewrite Ht2, Ht1, app_assoc. reflexivity.
    + rewrite forallb_app, Hp1, Hp2. reflexivity.
  - exists e1. split; assumption.
Qed.

Lemma emits_try_catch {A} P (body handler : M A) :
  emits P body -> emits P handler -> emits P (try_catch body handler).
Proof.
  intros Hb Hh w s. unfold try_catch.
  destruct (Hb w s) as (e1 & Ht1 & Hp1).
  destruct (body w s) as [s1 [a|]]; cbn [fst] in Ht1.
  - exists e1. split; assumption.
  - destruct (Hh w s1) as (e2 & Ht2 & Hp2).
    exists (e1 ++ e2). split.
    + rewrite Ht2, Ht1, app_assoc. reflexivity.
    + rewrite forallb_app, Hp1, Hp2. reflexivity.
Qed.

Lemma emits_swallow P (m : M unit) : emits P m -> emits P (swallow m).
Proof. intros H. apply emits_try_catch; [exact H | apply emits_ret]. Qed.

Lemma emits_weaken {A} (P Q : op -> bool) (m : M A) :
  (forall o, P o = true -> Q o = true) -> emits P m -> emits Q m.
Proof.
  intros HPQ Hm w s. destruct (Hm w s) as (evs & Ht & Hp).
  exists evs. split; [exact Ht |].
  rewrite forallb_forall in *. intros o Ho. apply HPQ, Hp, Ho.
Qed.

Lemma emits_clickPopups : emits popup_op clickPopups.
Proof.
  intros w s. destruct (clickPopups_runs w s) as (s' & evs & E & Ht & Hp).
  exists evs. rewrite E. split; assumption.
Qed.

Lemma emits_expand P :
  P (Evaluate ExpandClick) = true -> P (Evaluate ExpandVerify) = true ->
  emits P clickExpandableContent.
Proof.
  intros H1 H2. apply emits_bind; [apply emits_call_truthy, H1 |].
  intros [|]; [apply emits_call, H2 | apply emits_ret].
Qed.

Lemma emits_readMore P : P (Evaluate ReadMore) = true -> emits P clickReadMore.
Proof.
  intros H. apply emits_bind; [apply emits_call_truthy, H | intros _; apply emits_ret].
Qed.

Ltac emits_stage :=
  first
    [ apply emits_call; reflexivity
    | apply emits_swallow, emits_call; reflexivity
    | apply emits_expand; reflexivity
    | apply emits_readMore; reflexivity
    | apply emits_ret
    | eapply emits_weaken; [| apply emits_clickPopups]; intros [] Ho;
      try discriminate Ho; try reflexivity;
      match goal with s : script |- _ => destruct s; try discriminate Ho; reflexivity end ].

Lemma emits_saveArchive P :
  (forall o, is_session o = false -> P o = true) -> emits P saveArchive.
Proof.
  intros HP.
  apply (emits_weaken (fun o => negb (is_session o))).
  { intros o Ho. apply HP. destruct (is_session o); [discriminate | reflexivity]. }
  unfold saveArchive, dismissOneSignalSlidedown, removeOneSignalBell,
    triggerLazyLoadScroll, clickBottomFooterButton, removeAllGoogleAds.
  repeat (apply emits_bind; [emits_stage | intros _]).
  emits_stage.
Qed.

(** Artifacts of a run, stage by stage. *)

Lemma artifacts_app a b : artifacts (a ++ b) = artifacts a ++ artifacts b.
Proof. apply List.filter_app. Qed.

Lemma artifacts_none evs :
  forallb (fun o => negb (is_artifact o)) evs = true -> artifacts evs = [].
Proof.
  induction evs as [|o evs IH]; [reflexivity |]. cbn [forallb artifacts List.filter].
  intros H. apply andb_true_iff in H as [Ho H].
  destruct (is_artifact o); [discriminate |]. apply IH, H.
Qed.

Lemma writes_quiet {A} (m : M A) :
  emits (fun o => negb (is_artifact o)) m -> writes m [].
Proof.
  intros Hm w s. destruct (Hm w s) as (evs & Ht & Hp).
  exists evs. split; [exact Ht |]. rewrite (artifacts_none _ Hp).
  destruct (snd (m w s)); [reflexivity | exists []; reflexivity].
Qed.

Lemma writes_all_last o : is_artifact o = true -> writes_all (call o) [o].
Proof.
  intros Ho w s. unfold call. destruct (rejects w (tick s) o); cbn [fst snd trace].
  - exists []. split; [symmetry; apply app_nil_r |]. exists [o]. split; [discriminate | reflexivity].
  - exists [o]. split; [reflexivity |]. cbn [artifacts List.filter]. rewrite Ho. reflexivity.
Qed.

Lemma writes_all_skip {A B} (m : M A) (k : A -> M B) post :
  writes m [] -> post <> [] -> (forall a, writes_all (k a) post) ->
  writes_all (bind m k) post.
Proof.
  intros Hm Hne Hk w s. unfold bind.
  destruct (Hm w s) as (e1 & Ht1 & H1).
  destruct (m w s) as [s1 [a|]]; cbn [fst snd] in *.
  - destruct (Hk a w s1) as (e2 & Ht2 & H2).
    exists (e1 ++ e2). split; [rewrite Ht2, Ht1, app_assoc; reflexivity |].
    rewrite artifacts_app, H1. exact H2.
  - exists e1. split; [exact Ht1 |]. destruct H1 as (rest & H1).
    symmetry in H1. apply app_eq_nil in H1 as [-> ->].
    exists post. split; [exact Hne | reflexivity].
Qed.

Lemma writes_all_take {B} o (k : unit -> M B) post :
  is_artifact o = true -> (forall a, writes_all (k a) post) ->
  writes_all (bind (call o) k) (o :: post).
Proof.
  intros Ho Hk w s. rewrite bind_call.
  destruct (rejects w (tick s) o); cbn [fst snd trace].
  - exists []. split; [symmetry; apply app_nil_r |].
    exists (o :: post). split; [discriminate | reflexivity].
  - destruct (Hk tt w {| tick := S (tick s); trace := trace s ++ [o] |})
      as (e2 & Ht2 & H2). cbn [trace] in Ht2.
    exists (o :: e2). split; [rewrite Ht2, <- app_assoc; reflexivity |].
    cbn [artifacts List.filter]. rewrite Ho. fold (artifacts e2).
    destruct (snd (k tt w _)).
    + rewrite H2. reflexivity.
    + destruct H2 as (rest & Hne & ->). exists rest. split; [exact Hne | reflexivity].
Qed.

Lemma writes_all_then_ret {A B} (m : M A) (b : B) post :
  writes_all m post -> writes_all (bind m (fun _ => ret b)) post.
Proof.
  intros Hm w s. unfold bind, ret. destruct (Hm w s) as (evs & Ht & H).
  destruct (m w s) as [s1 [a|]]; cbn [fst snd] in *; exists evs; split; assumption.
Qed.

Ltac quiet_stage :=
  apply writes_quiet;
  first
    [ apply emits_call; reflexivity
    | apply emits_swallow, emits_call; reflexivity
    | apply emits_expand; reflexivity
    | apply emits_readMore; reflexivity
    | eapply emits_weaken; [| apply emits_clickPopups]; intros [] Ho;
      try discriminate Ho; reflexivity ].

Ltac artifact_steps :=
  repeat first
    [ apply writes_all_take; [reflexivity | intros _]
    | apply writes_all_skip; [quiet_stage | discriminate | intros _] ].

Lemma writes_all_saveArchive : writes_all saveArchive all_artifacts.
Proof.
  unfold saveArchive, all_artifacts, dismissOneSignalSlidedown, removeOneSignalBell,
    triggerLazyLoadScroll, clickBottomFooterButton, removeAllGoogleAds.
  artifact_steps. apply writes_all_last. reflexivity.
Qed.

(** X8. Whatever the page and the browser do, the files a run of
    [saveArchive] writes are, in this order, the raw HTML, the sanitized
    HTML, the screenshot, the PDF and the metadata: a run that returns has
    written all five, and a run that throws has written the first few of
    them and not the metadata. [saveArchive] neither starts nor ends a
    browser. *)
Theorem saveArchive_artifacts w s :
  exists evs,
    trace (fst (saveArchive w s)) = trace s ++ evs /\
    forallb (fun o => negb (is_session o)) evs = true /\
    match snd (saveArchive w s) with
    | Ok _ => artifacts evs = all_artifacts
    | Throw => exists rest, rest <> [] /\ all_artifacts = artifacts evs ++ rest
    end.
Proof.
  destruct (writes_all_saveArchive w s) as (evs & Ht & Ha).
  destruct (emits_saveArchive (fun o => negb (is_session o))
              ltac:(intros o Ho; cbv beta; rewrite Ho; reflexivity) w s) as (evs' & Ht' & Hp).
  assert (evs' = evs) as ->
    by (rewrite Ht in Ht'; eapply app_inv_head, eq_sym, Ht').
  exists evs. split_and!; assumption.
Qed.

Lemma returns_only_bind {A B} (v : B) (m : M A) (k : A -> M B) :
  (forall a, returns_only v (k a)) -> returns_only v (bind m k).
Proof.
  intros Hk w s b. unfold bind. destruct (m w s) as [s1 [a|]]; [apply Hk | discriminate].
Qed.

Lemma returns_only_ret {A} (v : A) : returns_only v (ret v).
Proof. intros w s a H. cbn in H. congruence. Qed.

(** X9. [runArchive] throws in two cases only: the browser cannot be
    launched, and then nothing else is called; or closing it fails. Once
    launched, the browser is closed after whatever happened in between:
    closing is the last call, made once, and no call between launch and
    close starts or ends a browser. The result is [true] exactly when all
    five files of the archive were written, and [false] after any failure
    between launch and close. *)
Theorem runArchive_outcome url w :
  let run := runArchive url w start in
  if rejects w 0 Launch
  then run = ({| tick := 1; trace := [] |}, Throw)
  else
    exists evs,
      forallb (fun o => negb (is_session o)) evs = true /\
      (exists rest, all_artifacts = artifacts evs ++ rest) /\
      if rejects w (pred (tick (fst run))) Close
      then snd run = Throw /\ trace (fst run) = Launch :: evs
      else
        exists ok, snd run = Ok ok /\
          (ok = true <-> artifacts evs = all_artifacts) /\
          trace (fst run) = Launch :: evs ++ [Close].
Proof.
  cbn zeta. unfold runArchive. rewrite bind_call. cbn [start tick trace].
  destruct (rejects w 0 Launch); [reflexivity |].
  set (body := (call NewPage ;; call SetUserAgent ;; call SetExtraHTTPHeaders ;;
                call SetViewport ;; call (Goto url) ;; clickExpandableContent ;;
                clickReadMore ;; clickBottomFooterButton ;; removeAllGoogleAds ;;
                saveArchive ;; ret true)).
  set (s0 := {| tick := 1; trace := [] ++ [Launch] |}).
  assert (He : emits (fun o => negb (is_session o)) body).
  { unfold body, clickBottomFooterButton, removeAllGoogleAds.
    repeat (apply emits_bind;
            [first [emits_stage | apply emits_saveArchive;
                                  intros o Ho; rewrite Ho; reflexivity]
            | intros _]).
    apply emits_ret. }
  assert (Hw : writes_all body all_artifacts).
  { unfold body, clickBottomFooterButton, removeAllGoogleAds.
    do 9 (apply writes_all_skip; [quiet_stage | discriminate | intros _]).
    apply writes_all_then_ret, writes_all_saveArchive. }
  assert (Hr : returns_only true body).
  { unfold body. repeat (apply returns_only_bind; intros _). apply returns_only_ret. }
  destruct (He w s0) as (evs & Ht & Hp).
  destruct (Hw w s0) as (evs' & Ht' & Ha).
  assert (evs' = evs) as -> by (rewrite Ht in Ht'; eapply app_inv_head, eq_sym, Ht').
  specialize (Hr w s0). exists evs.
  unfold try_finally, try_catch, ret, call.
  destruct (body w s0) as [s1 [b|]]; cbn [fst snd] in *.
  - pose proof (Hr b eq_refl) as ->.
    split; [exact Hp |]. split; [exists []; rewrite app_nil_r; symmetry; exact Ha |].
    destruct (rejects w (tick s1) Close) eqn:Ec; cbn [fst snd tick trace Nat.pred];
      rewrite Ec.
    + split; [reflexivity | exact Ht].
    + exists true. split; [reflexivity |]. split; [tauto |].
      rewrite Ht. reflexivity.
  - split; [exact Hp |]. destruct Ha as (rest & Hne & Ha).
    split; [exists rest; exact Ha |].
    destruct (rejects w (tick s1) Close) eqn:Ec; cbn [fst snd tick trace Nat.pred];
      rewrite Ec.
    + split; [reflexivity | exact Ht].
    + exists false. split; [reflexivity |]. split.
      * split; [discriminate |]. intros E. exfalso. rewrite E in Ha.
        rewrite <- (app_nil_r all_artifacts) in Ha at 1.
        apply app_inv_head in Ha. apply Hne. symmetry. exact Ha.
      * rewrite Ht. reflexivity.
Qed.

End RunFacts.
(** ** The scan of a frame and the clicks of a pass *)

Section ScanFacts.

Import Scan Browser Archiver.
Local Open Scope browser_scope.

Lemma term_matches_defined txt term :
  term_compiles term = true -> exists b, term_matches txt term = Some b.
Proof.
  unfold term_compiles, term_matches. cbn zeta.
  destruct (N.of_nat (length (trim (toLowerCase term))) <=? 3); [eauto |].
  destruct (compile _); [eauto | discriminate].
Qed.

Lemma some_term_defined txt terms :
  forallb term_compiles terms = true -> exists b, some_term txt terms = Some b.
Proof.
  induction terms as [|t terms IH]; cbn [forallb some_term]; [eauto |].
  intros H. apply andb_true_iff in H as [Ht H].
  destruct (term_matches_defined txt t Ht) as ([|] & ->); [eauto | apply IH, H].
Qed.

Lemma scan_element_reported terms bl fr el ms :
  scan_element terms bl fr el = Some ms ->
  ms = [] \/ exists m, ms = [m] /\ reported terms bl el m.
Proof.
  unfold scan_element.
  destruct (isClickable el) eqn:Hc; cbn [negb]; [| intros [= <-]; left; reflexivity].
  destruct (str_eqb (toLowerCase (tagName el)) (lit "a")
            && (20 <? length (trim (textContent el)))%nat) eqn:Ha;
    [intros [= <-]; left; reflexivity |].
  destruct (or_trim (textContent el) (value el)) as [[|c t]|] eqn:Et;
    [intros [= <-]; left; reflexivity | | discriminate].
  destruct (some_term (normalize (c :: t)) terms) as [[|]|] eqn:Hs;
    [| intros [= <-]; left; reflexivity | discriminate].
  destruct (existsb _ bl) eqn:Hb; [intros [= <-]; left; reflexivity |].
  intros [= <-]. right. eexists. split; [reflexivity |].
  unfold reported, element_text. cbn [tag text x y].
  split_and!; try reflexivity; try assumption; try discriminate.
  - intros Htag. apply andb_false_iff in Ha as [Ha|Ha].
    + apply str_eqb_neq in Ha. contradiction.
    + apply Nat.ltb_ge in Ha. exact Ha.
  - intros bad Hbad. destruct (includes _ _) eqn:Hi; [| reflexivity].
    assert (existsb (fun bad => includes (toLowerCase (c :: t)) (toLowerCase bad)) bl = true)
      by (apply existsb_exists; eauto).
    congruence.
Qed.

Lemma scan_elements_reported terms bl fr els : forall ms,
  scan_elements terms bl fr els = Some ms ->
  exists picked,
    picked `sublist_of` els /\ Forall2 (reported terms bl) picked ms.
Proof.
  induction els as [|el els IH]; cbn [scan_elements]; intros ms H.
  - injection H as <-. exists []. split; constructor.
  - destruct (scan_element terms bl fr el) as [found|] eqn:Hf; [| discriminate].
    destruct (scan_elements terms bl fr els) as [more|]; [| discriminate].
    injection H as <-. destruct (IH more eq_refl) as (picked & Hsub & HF).
    destruct (scan_element_reported _ _ _ _ _ Hf) as [->|(m & -> & Hm)].
    + exists picked. split; [apply sublist_cons, Hsub | exact HF].
    + exists (el :: picked). split; [apply sublist_skip, Hsub |].
      constructor; assumption.
Qed.

Lemma or_trim_throws a v :
  or_trim a v = None <->
  match a, v with [], VNumber q => negb (Qnum q =? 0)%Z | _, _ => false end = true.
Proof.
  destruct a as [|c a], v as [|b|q]; cbn [or_trim];
    try (split; discriminate).
  destruct (Qnum q =? 0)%Z; cbn [negb]; split; first [discriminate | reflexivity].
Qed.

(** With terms whose patterns compile, the body of the loop throws on the
    elements [trims_number] describes and on no other. *)
Lemma scan_element_throws terms bl fr el :
  forallb term_compiles terms = true ->
  scan_element terms bl fr el = None <-> trims_number el = true.
Proof.
  intros Ht. unfold scan_element, trims_number.
  destruct (isClickable el); cbn [negb andb]; [| split; discriminate].
  destruct (str_eqb (toLowerCase (tagName el)) (lit "a")
            && (20 <? length (trim (textContent el)))%nat) eqn:Ha.
  - split; [discriminate |]. intros H. exfalso.
    apply andb_true_iff in Ha as [_ Ha]. apply Nat.ltb_lt in Ha.
    destruct (textContent el); [cbn in Ha; lia | discriminate].
  - rewrite <- or_trim_throws.
    destruct (or_trim (textContent el) (value el)) as [[|c t]|];
      [split; discriminate | | split; reflexivity].
    destruct (some_term_defined (normalize (c :: t)) terms Ht) as ([|] & ->);
      [| split; discriminate].
    destruct (existsb _ bl); split; discriminate.
Qed.

Lemma scan_elements_throws terms bl fr els :
  forallb term_compiles terms = true ->
  scan_elements terms bl fr els = None <->
  Exists (fun el => trims_number el = true) els.
Proof.
  intros Ht. induction els as [|el els IH]; cbn [scan_elements].
  - split; [discriminate | intros H; inversion H].
  - rewrite List.Exists_cons, <- IH, <- (scan_element_throws terms bl fr el Ht).
    destruct (scan_element terms bl fr el); [| split; [left; reflexivity | reflexivity]].
    destruct (scan_elements terms bl fr els);
      [split; [discriminate | intros [?|?]; discriminate] |].
    split; [right; reflexivity | reflexivity].
Qed.

(** X10. On a document whose tag names and texts are within Basic Latin and
    Latin-1 (where lower-casing is modelled), the callback of the scan, run
    for the configured search terms, throws exactly when the frame holds a
    clickable element with no text of its own and a number other than zero
    for its value (an [li], [meter] or [progress]), on which it calls
    [trim]; the scan of that frame is then lost whole. Otherwise what it
    returns are reports of elements of the frame in document order, at most
    one per element, and each report is of a clickable element with a
    non-empty trimmed text that matches a search term and contains no
    blacklisted term (the blacklist wins over the search terms), is not an
    anchor with more than 20 units of text, and carries the lower-case tag
    and that text. *)
Theorem scan_reports_checked fr :
  Forall (fun el => latin1_element el = true) (elements fr) ->
  (findMatchingClickableElements fr Config.SEARCH_TERMS = None <->
   Exists (fun el => trims_number el = true) (elements fr)) /\
  (forall ms,
     findMatchingClickableElements fr Config.SEARCH_TERMS = Some ms ->
     exists picked,
       picked `sublist_of` elements fr /\
       Forall2 (reported (map toLowerCase Config.SEARCH_TERMS) Config.BLACKLIST_TERMS)
         picked ms).
Proof.
  intros _. unfold findMatchingClickableElements. split.
  - apply scan_elements_throws. vm_compute. reflexivity.
  - intros ms E. eapply scan_elements_reported, E.
Qed.

Lemma scan_reports_checked_witness :
  let page := Pages.document [Pages.control "BUTTON" "No thanks!";
                              Pages.control "A" "Sign in"] in
  let listing := Pages.document [Pages.control "BUTTON" "No thanks!";
                              Pages.numbered_item "LI" 3] in
  findMatchingClickableElements page Config.SEARCH_TERMS <> None /\
  findMatchingClickableElements listing Config.SEARCH_TERMS = None.
Proof.
  intros page listing. split.
  - intros H.
    apply (proj1 (scan_reports_checked page ltac:(repeat constructor))) in H.
    apply List.Exists_exists in H as (el & Hin & Hel).
    destruct Hin as [<-|[<-|[]]]; discriminate Hel.
  - apply (proj1 (scan_reports_checked listing ltac:(repeat constructor))).
    apply List.Exists_cons_tl, List.Exists_cons_hd. reflexivity.
Defined.

Lemma click_step el w s :
  exists s1 e1,
    swallow
      (if str_eqb (tag el) (lit "a") && (15 <? length (text el))%nat
       then ret tt
       else
         call (Evaluate InstallNavBlock) ;;
         call (Evaluate (DispatchClick (text el))) ;;
         call (Evaluate RemoveNavBlock)) w s = (s1, Ok tt) /\
    trace s1 = trace s ++ e1 /\
    In e1 (click_events (text el)) /\
    (long_anchor el = true -> e1 = []) /\
    ((forall n o, rejects w n o = false) -> long_anchor el = false ->
     e1 = [Evaluate InstallNavBlock; Evaluate (DispatchClick (text el));
           Evaluate RemoveNavBlock]).
Proof.
  unfold long_anchor, swallow, try_catch, bind, ret.
  destruct (str_eqb (tag el) (lit "a") && (15 <? length (text el))%nat).
  { exists s, []. rewrite app_nil_r. split_and!; try done. by left. }
  unfold call. cbn [tick trace].
  destruct (rejects w (tick s) (Evaluate InstallNavBlock)) eqn:R1; cbn [tick trace].
  { eexists _, []. rewrite app_nil_r. split_and!; try done; [by left |].
    intros H. rewrite H in R1. discriminate. }
  destruct (rejects w (S (tick s)) (Evaluate (DispatchClick (text el)))) eqn:R2;
    cbn [tick trace].
  { eexists _, [Evaluate InstallNavBlock].
    split_and!; try done; [right; by left |].
    intros H. rewrite H in R2. discriminate. }
  destruct (rejects w (S (S (tick s))) (Evaluate RemoveNavBlock)) eqn:R3;
    cbn [tick trace].
  { eexists _, [Evaluate InstallNavBlock; Evaluate (DispatchClick (text el))].
    split_and!; try done.
    - cbn [trace]. by rewrite <- app_assoc.
    - right; right; by left.
    - intros H. rewrite H in R3. discriminate. }
  eexists _, [Evaluate InstallNavBlock; Evaluate (DispatchClick (text el));
              Evaluate RemoveNavBlock].
  split_and!; try done.
  - cbn [trace]. by rewrite <- !app_assoc.
  - right; right; right; by left.
Qed.

Lemma dispatched_app a b : dispatched (a ++ b) = dispatched a ++ dispatched b.
Proof. unfold dispatched. rewrite !flat_map_concat_map, map_app, concat_app. reflexivity. Qed.

Lemma guarded_app_click t e1 e2 prev :
  In e1 (click_events t) -> (forall p, guarded p e2 = true) ->
  guarded prev (e1 ++ e2) = true.
Proof.
  intros Hin H2. cbn [click_events In] in Hin.
  destruct Hin as [<-|[<-|[<-|[<-|[]]]]]; cbn [app guarded andb]; apply H2.
Qed.

Lemma clickElements_runs els : forall w s,
  exists s' evs,
    clickElements els w s = (s', Ok tt) /\
    trace s' = trace s ++ evs /\
    forallb click_op evs = true /\
    (forall prev, guarded prev evs = true) /\
    dispatched evs
      `sublist_of` map text (List.filter (fun el => negb (long_anchor el)) els) /\
    ((forall n o, rejects w n o = false) ->
     dispatched evs = map text (List.filter (fun el => negb (long_anchor el)) els)).
Proof.
  induction els as [|el els IH]; intros w s.
  - exists s, []. cbn. rewrite app_nil_r. split_and!; try done.
  - cbn [clickElements]. unfold bind at 1.
    destruct (click_step el w s) as (s1 & e1 & -> & Ht1 & Hin & Hlong & Hfull).
    destruct (IH w s1) as (s' & e2 & -> & Ht2 & Hc2 & Hg2 & Hs2 & Hf2).
    exists s', (e1 ++ e2). split_and!; try done.
    + by rewrite Ht2, Ht1, app_assoc.
    + rewrite forallb_app, Hc2, andb_true_r.
      cbn [click_events In] in Hin.
      destruct Hin as [<-|[<-|[<-|[<-|[]]]]]; reflexivity.
    + intros prev. eapply guarded_app_click; eassumption.
    + rewrite dispatched_app. cbn [List.filter].
      destruct (long_anchor el) eqn:L; cbn [negb].
      * rewrite (Hlong eq_refl). exact Hs2.
      * cbn [map]. cbn [click_events In] in Hin.
        destruct Hin as [<-|[<-|[<-|[<-|[]]]]]; cbn [dispatched flat_map app];
          first [by apply sublist_cons | by apply sublist_skip].
    + intros Hq. rewrite dispatched_app, (Hf2 Hq). cbn [List.filter].
      destruct (long_anchor el) eqn:L; cbn [negb].
      * rewrite (Hlong eq_refl). reflexivity.
      * rewrite (Hfull Hq eq_refl). reflexivity.
Qed.

(** X11. [clickElements] never throws, whatever list it is given and
    whichever of its calls fail. It evaluates no function in the page but
    its three: guard installation, click dispatch by text, flag deletion.
    Every dispatch call comes directly after a completed installation call.
    The dispatch calls are made in list order with the texts of elements of
    the list that are not anchors with more than 15 units of text, at most
    one per occurrence; and when no call fails there is one for every such
    element. *)
Theorem clickElements_guarded els w s :
  exists s' evs,
    clickElements els w s = (s', Ok tt) /\
    trace s' = trace s ++ evs /\
    forallb click_op evs = true /\
    guarded None evs = true /\
    dispatched evs
      `sublist_of` map text (List.filter (fun el => negb (long_anchor el)) els) /\
    ((forall n o, rejects w n o = false) ->
     dispatched evs = map text (List.filter (fun el => negb (long_anchor el)) els)).
Proof.
  destruct (clickElements_runs els w s) as (s' & evs & H1 & H2 & H3 & H4 & H5 & H6).
  exists s', evs. split_and!; try assumption. apply H4.
Qed.

Lemma clickElements_guarded_witness :
  let a := {| tag := lit "button"; text := lit "Close"; x := Qmake 1 1; y := Qmake 1 1 |} in
  let b := {| tag := lit "a"; text := lit "close this window"; x := Qmake 5 1; y := Qmake 5 1 |} in
  exists s' evs,
    clickElements [a; b] Samples.quiet start = (s', Ok tt) /\
    trace s' = trace start ++ evs /\ dispatched evs = [lit "Close"].
Proof.
  intros a b.
  destruct (clickElements_guarded [a; b] Samples.quiet start)
    as (s' & evs & H1 & H2 & _ & _ & _ & H6).
  exists s', evs. split_and!; [exact H1 | exact H2 |].
  rewrite H6; [reflexivity | reflexivity].
Defined.

End ScanFacts.

(** ** The resuming worker *)

Section ResumeFacts.

Import Queue Resume.

Lemma least_processing_spec rs : forall best r,
  least_processing rs best = Some r ->
  (In r rs /\ status r = processing) \/ best = Some r.
Proof.
  induction rs as [|x rs IH]; intros best r H; cbn [least_processing] in H;
    [right; exact H |].
  destruct (str_eqb (status x) processing) eqn:E.
  - apply str_eqb_eq in E.
    assert (Hx : forall b, least_processing rs (Some x) = Some r ->
                           (In r (x :: rs) /\ status r = processing) \/ best = b).
    { intros b Hb. left. destruct (IH _ _ Hb) as [[? ?]|[= <-]].
      - split; [right |]; assumption.
      - split; [left; reflexivity | exact E]. }
    destruct best as [b|].
    + destruct (id x <? id b).
      * destruct (Hx (Some b) H) as [?|?]; [left; assumption | left].
        destruct (IH _ _ H) as [[? ?]|[= <-]];
          [split; [right |]; assumption | split; [left; reflexivity | exact E]].
      * destruct (IH _ _ H) as [[? ?]|?]; [left; split; [right |]; assumption | right; assumption].
    + destruct (IH _ _ H) as [[? ?]|[= <-]]; left;
        [split; [right |]; assumption | split; [left; reflexivity | exact E]].
  - destruct (IH _ _ H) as [[? ?]|?]; [left; split; [right |]; assumption | right; assumption].
Qed.

Lemma least_processing_none rs : forall best,
  least_processing rs best = None ->
  best = None /\ forall r, In r rs -> status r <> processing.
Proof.
  induction rs as [|x rs IH]; intros best H; cbn [least_processing] in H.
  - split; [exact H | intros r []].
  - destruct (str_eqb (status x) processing) eqn:E.
    + destruct best as [b|]; [destruct (id x <? id b) |];
        apply IH in H as [H _]; discriminate H.
    + apply str_eqb_neq in E. apply IH in H as [Hb Hr]. split; [exact Hb |].
      intros r [<-|Hin]; [exact E | apply Hr, Hin].
Qed.

Lemma pickProcessing_some d r :
  pickProcessing d = Some r -> In r (rows d) /\ status r = processing.
Proof.
  intros H. destruct (least_processing_spec _ _ _ H) as [?|?]; [assumption | discriminate].
Qed.

Lemma pickProcessing_none d :
  pickProcessing d = None -> forall r, In r (rows d) -> status r <> processing.
Proof. intros H. apply (least_processing_none _ _ H). Qed.

Lemma pickPending_some d r :
  pickPending d = Some r -> In r (rows d) /\ status r = pending.
Proof.
  intros H. destruct (least_pending_spec _ _ _ _ H) as [[?|?] _];
    [assumption | discriminate].
Qed.

Lemma pickPending_none d :
  pickPending d = None -> forall r, In r (rows d) -> status r <> pending.
Proof. intros H. apply (least_pending_none _ _ _ H). Qed.

Lemma set_status_twice st st' r : set_status st (set_status st' r) = set_status st r.
Proof. reflexivity. Qed.

Lemma is_active_set_status st r :
  is_active (set_status st r) = str_eqb st pending || str_eqb st processing.
Proof. reflexivity. Qed.

(** What one handled item does to the rows: the row picked, and no other,
    gets its final status. *)
Lemma handled_rows d r st (claim : bool) :
  well_formed d -> In r (rows d) -> is_active r = true ->
  st = completed \/ st = failed ->
  Forall2 settled (rows d)
    (rows (update_where (id r) (set_status st)
             (if claim then markProcessing (id r) d else d))).
Proof.
  intros (Hnd & _) Hin Hact Hst.
  assert (Huniq : forall x, In x (rows d) -> id x = id r -> x = r)
    by (intros x Hx Ex; eapply same_id_same_row; eassumption).
  assert (Hrows : rows (update_where (id r) (set_status st)
                          (if claim then markProcessing (id r) d else d))
                  = map (fun x => if id x =? id r then set_status st x else x) (rows d)).
  { destruct claim; [| reflexivity].
    unfold markProcessing, update_where. cbn [rows]. rewrite map_map.
    apply map_ext. intros x. destruct (id x =? id r) eqn:E; cbn [id]; rewrite E; reflexivity. }
  rewrite Hrows. apply Forall2_map_r_In. intros x Hx.
  destruct (id x =? id r) eqn:E; [| left; reflexivity].
  apply N.eqb_eq in E. rewrite (Huniq x Hx E).
  right. split; [exact Hact |]. destruct Hst as [-> | ->]; [left | right]; reflexivity.
Qed.

Lemma settled_trans x y z : settled x y -> settled y z -> settled x z.
Proof.
  intros [->|[Hx Hy]] Hyz; [exact Hyz |].
  destruct Hyz as [->|[Hact _]]; [right; split; assumption |].
  destruct Hy as [-> | ->]; discriminate Hact.
Qed.

Lemma settled_refl_rows rs : Forall2 settled rs rs.
Proof. apply Forall_Forall2_diag, List.Forall_forall. intros x _. left. reflexivity. Qed.

Lemma active_count_settled rs rs' :
  Forall2 settled rs rs' ->
  (length (List.filter is_active rs') <= length (List.filter is_active rs))%nat.
Proof.
  induction 1 as [|x y l l' Hxy _ IH]; [reflexivity |]. cbn [List.filter].
  destruct Hxy as [->|[Hx Hy]].
  - destruct (is_active x); cbn [length]; lia.
  - rewrite Hx. assert (is_active y = false) as -> by (destruct Hy as [-> | ->]; reflexivity).
    cbn [length]. lia.
Qed.

Lemma active_count_handled d r st (claim : bool) :
  well_formed d -> In r (rows d) -> is_active r = true ->
  st = completed \/ st = failed ->
  S (active_count (update_where (id r) (set_status st)
                     (if claim then markProcessing (id r) d else d)))
  = active_count d.
Proof.
  intros Hwf Hin Hact Hst.
  pose proof (handled_rows d r st claim Hwf Hin Hact Hst) as HF.
  destruct Hwf as (Hnd & _).
  unfold active_count.
  assert (Hrows : rows (update_where (id r) (set_status st)
                          (if claim then markProcessing (id r) d else d))
                  = map (fun x => if id x =? id r then set_status st x else x) (rows d)).
  { destruct claim; [| reflexivity].
    unfold markProcessing, update_where. cbn [rows]. rewrite map_map.
    apply map_ext. intros x. destruct (id x =? id r) eqn:E; cbn [id]; rewrite E; reflexivity. }
  rewrite Hrows. clear Hrows HF.
  assert (Hina : is_active (set_status st r) = false)
    by (destruct Hst as [-> | ->]; reflexivity).
  induction (rows d) as [|x rs IH]; [destruct Hin |].
  cbn [map] in Hnd. apply NoDup_cons in Hnd as [Hx Hnd].
  cbn [map List.filter]. destruct Hin as [->|Hin].
  - rewrite N.eqb_refl, Hina, Hact. cbn [length]. f_equal. f_equal. f_equal.
    rewrite <- (map_id rs) at 2. apply map_ext_in. intros y Hy.
    destruct (id y =? id r) eqn:E; [| reflexivity].
    apply N.eqb_eq in E. exfalso. apply Hx. rewrite <- E.
    apply list_elem_of_In, in_map, Hy.
  - assert (Hne : (id x =? id r) = false).
    { apply N.eqb_neq. intros E. apply Hx. rewrite E.
      apply list_elem_of_In, in_map, Hin. }
    rewrite Hne. destruct (is_active x); cbn [length]; rewrite <- (IH Hnd Hin); reflexivity.
Qed.

(** The row [next_row] returns is a row of the table that asks for work. *)
Lemma next_row_some a d r d1 :
  next_row a d = (Some r, d1) ->
  In r (rows d) /\ is_active r = true /\
  exists claim : bool, d1 = (if claim then markProcessing (id r) d else d) /\
    (claim = true -> status r = pending /\
       str_eqb (mode a) (lit "processing") = false /\ noClaim a = false) /\
    (claim = false -> status r = processing).
Proof.
  unfold next_row.
  destruct (if str_eqb (mode a) (lit "processing") || str_eqb (mode a) (lit "auto")
            then pickProcessing d else None) as [p|] eqn:Hp.
  - intros [= <- <-].
    destruct (_ || _); [| discriminate].
    apply pickProcessing_some in Hp as [Hin Hs].
    split_and!; [exact Hin | unfold is_active; rewrite Hs; reflexivity |].
    exists false. split_and!; [reflexivity | discriminate | intros _; exact Hs].
  - destruct (negb (str_eqb (mode a) (lit "processing")) && negb (noClaim a)) eqn:Hc;
      [| discriminate].
    unfold claimPending. destruct (pickPending d) as [p|] eqn:Hq; [| discriminate].
    intros [= <- <-]. apply pickPending_some in Hq as [Hin Hs].
    split_and!; [exact Hin | unfold is_active; rewrite Hs; reflexivity |].
    exists true. split_and!; [reflexivity | | discriminate]. intros _.
    apply andb_true_iff in Hc as [H1 H2].
    apply negb_true_iff in H1. apply negb_true_iff in H2. auto.
Qed.

Lemma next_row_none a d d1 :
  next_row a d = (None, d1) ->
  d1 = d /\
  (str_eqb (mode a) (lit "processing") || str_eqb (mode a) (lit "auto") = true ->
   forall r, In r (rows d) -> status r <> processing) /\
  (str_eqb (mode a) (lit "processing") = false -> noClaim a = false ->
   forall r, In r (rows d) -> status r <> pending).
Proof.
  unfold next_row.
  destruct (str_eqb (mode a) (lit "processing") || str_eqb (mode a) (lit "auto")) eqn:Hm.
  - destruct (pickProcessing d) as [p|] eqn:Hp; [discriminate |].
    destruct (negb (str_eqb (mode a) (lit "processing")) && negb (noClaim a)) eqn:Hc.
    + unfold claimPending. destruct (pickPending d) eqn:Hq; [discriminate |].
      intros [= <-]. split_and!; [reflexivity | |].
      * intros _. apply pickProcessing_none, Hp.
      * intros _ _. apply pickPending_none, Hq.
    + intros [= <-]. split_and!; [reflexivity | |].
      * intros _. apply pickProcessing_none, Hp.
      * intros H1 H2. rewrite H1, H2 in Hc. discriminate.
  - destruct (negb (str_eqb (mode a) (lit "processing")) && negb (noClaim a)) eqn:Hc.
    + unfold claimPending. destruct (pickPending d) eqn:Hq; [discriminate |].
      intros [= <-]. split_and!; [reflexivity | discriminate |].
      intros _ _. apply pickPending_none, Hq.
    + intros [= <-]. split_and!; [reflexivity | discriminate |].
      intros H1 H2. rewrite H1, H2 in Hc. discriminate.
Qed.

Lemma well_formed_handled d i st (claim : bool) :
  well_formed d ->
  well_formed (update_where i (set_status st)
                 (if claim then markProcessing i d else d)).
Proof.
  intros H. apply well_formed_update_where; [reflexivity | reflexivity |].
  destruct claim; [| exact H].
  apply well_formed_update_where; [reflexivity | reflexivity | exact H].
Qed.

Lemma mark_as_update (ok : bool) i d :
  (if ok then markCompleted i d else markFailed i d)
  = update_where i (set_status (if ok then completed else failed)) d.
Proof. destruct ok; reflexivity. Qed.

Lemma db_loop_returns archiveOne a fuel : forall handled d,
  well_formed d -> (active_count d < fuel)%nat ->
  exists res, db_loop archiveOne a fuel handled d = Some res.
Proof.
  induction fuel as [|fuel IH]; intros handled d Hwf Hf; [lia |].
  cbn [db_loop].
  destruct (next_row a d) as [[r|] d1] eqn:E; [| eauto].
  destruct (archiveOne handled (url r)) as [ok|]; [| eauto].
  cbn zeta. destruct (limit_reached a (S handled)); [eauto |].
  destruct (next_row_some _ _ _ _ E) as (Hin & Hact & claim & -> & _).
  rewrite mark_as_update. apply IH.
  - apply well_formed_handled, Hwf.
  - assert (Hst : (if ok then completed else failed) = completed
                  \/ (if ok then completed else failed) = failed)
      by (destruct ok; auto).
    pose proof (active_count_handled d r _ claim Hwf Hin Hact Hst). lia.
Qed.

Lemma db_loop_ok archiveOne a fuel : forall handled d n d',
  well_formed d ->
  db_loop archiveOne a fuel handled d = Some (Browser.Ok n, d') ->
  Forall2 settled (rows d) (rows d') /\
  (n + active_count d' = handled + active_count d)%nat /\
  (forall l, limit a = Some l -> (0 < l)%Z -> (Z.of_nat handled < l)%Z ->
             (Z.of_nat n <= l)%Z) /\
  (limit a = None ->
   (str_eqb (mode a) (lit "processing") || str_eqb (mode a) (lit "auto") = true ->
    forall r, In r (rows d') -> status r <> processing) /\
   (str_eqb (mode a) (lit "processing") = false -> noClaim a = false ->
    forall r, In r (rows d') -> status r <> pending)).
Proof.
  induction fuel as [|fuel IH]; intros handled d n d' Hwf H; [discriminate |].
  cbn [db_loop] in H.
  destruct (next_row a d) as [[r|] d1] eqn:E.
  - destruct (archiveOne handled (url r)) as [ok|]; [| discriminate].
    cbn zeta in H. rewrite mark_as_update in H.
    destruct (next_row_some _ _ _ _ E) as (Hin & Hact & claim & -> & _).
    assert (Hst : (if ok then completed else failed) = completed
                  \/ (if ok then completed else failed) = failed)
      by (destruct ok; auto).
    pose proof (handled_rows d r _ claim Hwf Hin Hact Hst) as Hstep.
    pose proof (active_count_handled d r _ claim Hwf Hin Hact Hst) as Hcount.
    destruct (limit_reached a (S handled)) eqn:Hl.
    + injection H as <- <-. split_and!; [exact Hstep | lia | |].
      * intros l El Hpos Hlt. lia.
      * intros En. unfold limit_reached in Hl. rewrite En in Hl. discriminate.
    + apply IH in H as (HF & Hn & Hlim & Hend); [| apply well_formed_handled, Hwf].
      split_and!.
      * eapply Forall2_compose; [| exact Hstep | exact HF].
        intros x y z. apply settled_trans.
      * lia.
      * intros l El Hpos Hlt. apply (Hlim l El Hpos).
        unfold limit_reached in Hl. rewrite El in Hl.
        apply andb_false_iff in Hl as [Hl|Hl].
        -- apply negb_false_iff, Z.eqb_eq in Hl. lia.
        -- apply Z.leb_gt in Hl. lia.
      * exact Hend.
  - injection H as <- <-.
    apply next_row_none in E as (-> & Hp & Hq).
    split_and!; [apply settled_refl_rows | lia | intros; lia | intros _; split; assumption].
Qed.

(** X12. On the table [PersistentQueue] creates (which has none of the
    optional columns the worker tests for), the loop of the resuming worker
    ends on every table and for every
    choice of options. When it ends without an exception, each row is as it
    was or, if it was pending or processing, has become completed or failed
    and nothing else of it has changed; the number of items handled is the
    number of rows that stopped asking for work, and it does not exceed a
    positive [--limit]. *)
Theorem resume_loop_settles archiveOne a d :
  well_formed d ->
  exists res d',
    db_main archiveOne a d = Some (res, d') /\
    forall n, res = Browser.Ok n ->
      Forall2 settled (rows d) (rows d') /\
      (n + active_count d' = active_count d)%nat /\
      (forall l, limit a = Some l -> (0 < l)%Z -> (Z.of_nat n <= l)%Z).
Proof.
  intros Hwf. unfold db_main.
  destruct (db_loop_returns archiveOne a (S (active_count d)) 0 d Hwf)
    as ([res d'] & E); [lia |].
  exists res, d'. split; [exact E |]. intros n ->.
  apply db_loop_ok in E as (HF & Hn & Hlim & _); [| exact Hwf].
  split_and!; [exact HF | lia |].
  intros l El Hpos. apply (Hlim l El Hpos). lia.
Qed.

Lemma resume_loop_settles_witness :
  exists res d',
    db_main (fun _ _ => Browser.Ok true)
      {| limit := Some 1%Z; mode := lit "auto"; noClaim := false |}
      Samples.one_pending = Some (res, d') /\
    forall n, res = Browser.Ok n -> (n + active_count d' = 1)%nat.
Proof.
  destruct (resume_loop_settles (fun _ _ => Browser.Ok true)
              {| limit := Some 1%Z; mode := lit "auto"; noClaim := false |}
              Samples.one_pending
              (well_formed_addJob 10 _ empty well_formed_empty))
    as (res & d' & E & H).
  exists res, d'. split; [exact E |]. intros n Hn.
  destruct (H n Hn) as (_ & Hc & _). exact Hc.
Defined.

Lemma db_loop_no_throw archiveOne a fuel : forall h d d',
  (forall k u, archiveOne k u <> Browser.Throw) ->
  db_loop archiveOne a fuel h d <> Some (Browser.Throw, d').
Proof.
  induction fuel as [|fuel IH]; intros h d d' Hnothrow H; [discriminate |].
  cbn [db_loop] in H.
  destruct (next_row a d) as [[r|] d1]; [| discriminate].
  destruct (archiveOne h (url r)) as [ok|] eqn:Ea; [| exact (Hnothrow _ _ Ea)].
  cbn zeta in H. destruct (limit_reached a (S h)); [discriminate |].
  eapply IH; eassumption.
Qed.

(** X13. With the default options (mode [auto], claiming on, no limit) and
    an [archiveOne] that never throws, the resuming worker empties the
    queue: it handles as many items as rows were pending or processing,
    rows left processing by an interrupted run included, and afterwards no
    row is pending or processing. *)
Theorem resume_loop_drains archiveOne d :
  well_formed d ->
  (forall k u, archiveOne k u <> Browser.Throw) ->
  exists d',
    db_main archiveOne default_args d = Some (Browser.Ok (active_count d), d') /\
    active_count d' = 0%nat /\
    Forall2 settled (rows d) (rows d').
Proof.
  intros Hwf Hnothrow. unfold db_main.
  destruct (db_loop_returns archiveOne default_args (S (active_count d)) 0 d Hwf)
    as ([res d'] & E); [lia |].
  destruct res as [n|].
  - pose proof E as E'.
    apply db_loop_ok in E' as (HF & Hn & _ & Hend); [| exact Hwf].
    destruct (Hend eq_refl) as [Hp Hq].
    assert (Hz : active_count d' = 0%nat).
    { unfold active_count.
      assert (Hall : forall r, In r (rows d') -> is_active r = false).
      { intros r Hr. unfold is_active. apply orb_false_iff. split; apply str_eqb_neq.
        - apply Hq; [reflexivity | reflexivity | exact Hr].
        - apply Hp; [reflexivity | exact Hr]. }
      clear - Hall.
      induction (rows d') as [|x rs IH]; [reflexivity |]. cbn [List.filter].
      rewrite (Hall x (or_introl eq_refl)). apply IH.
      intros r Hr. apply Hall. right. exact Hr. }
    exists d'. rewrite Hz in Hn.
    assert (Hn' : n = active_count d) by lia. subst n.
    split_and!; [exact E | exact Hz | exact HF].
  - exfalso. eapply db_loop_no_throw; eassumption.
Qed.

Lemma resume_loop_drains_witness :
  exists d',
    db_main (fun _ _ => Browser.Ok false) default_args
      (snd (getNextJob 11 Samples.one_pending)) = Some (Browser.Ok 1%nat, d') /\
    active_count d' = 0%nat.
Proof.
  destruct (resume_loop_drains (fun _ _ => Browser.Ok false)
              (snd (getNextJob 11 Samples.one_pending)))
    as (d' & E & Hz & _).
  - apply well_formed_getNextJob, (well_formed_addJob 10 _ empty well_formed_empty).
  - discriminate.
  - exists d'. split; [exact E | exact Hz].
Defined.

Lemma resumed_trans x y z : resumed x y -> resumed y z -> resumed x z.
Proof.
  intros [->|[Hx Hy]] Hyz; [exact Hyz |].
  destruct Hyz as [->|[Hs _]]; [right; split; assumption |].
  destruct Hy as [-> | ->]; discriminate Hs.
Qed.

Lemma resumed_rows d r st :
  well_formed d -> In r (rows d) -> status r = processing ->
  st = completed \/ st = failed ->
  Forall2 resumed (rows d) (rows (update_where (id r) (set_status st) d)).
Proof.
  intros (Hnd & _) Hin Hs Hst. unfold update_where. cbn [rows].
  apply Forall2_map_r_In. intros x Hx.
  destruct (id x =? id r) eqn:E; [| left; reflexivity].
  apply N.eqb_eq in E. rewrite (same_id_same_row d x r Hnd Hx Hin E).
  right. split; [exact Hs |]. destruct Hst as [-> | ->]; [left | right]; reflexivity.
Qed.

Lemma db_loop_no_claim archiveOne a fuel : forall handled d res d',
  well_formed d ->
  str_eqb (mode a) (lit "processing") = true \/ noClaim a = true ->
  db_loop archiveOne a fuel handled d = Some (res, d') ->
  Forall2 resumed (rows d) (rows d').
Proof.
  induction fuel as [|fuel IH]; intros handled d res d' Hwf Hno H; [discriminate |].
  assert (Hrefl : forall rs, Forall2 resumed rs rs).
  { intros rs. apply Forall_Forall2_diag, List.Forall_forall. intros x _. left. reflexivity. }
  cbn [db_loop] in H.
  destruct (next_row a d) as [[r|] d1] eqn:E.
  - destruct (next_row_some _ _ _ _ E) as (Hin & _ & claim & -> & Hc & Hp).
    destruct claim.
    { destruct (Hc eq_refl) as (_ & H1 & H2). destruct Hno; congruence. }
    specialize (Hp eq_refl).
    destruct (archiveOne handled (url r)) as [ok|].
    + cbn zeta in H. rewrite mark_as_update in H.
      assert (Hst : (if ok then completed else failed) = completed
                    \/ (if ok then completed else failed) = failed)
        by (destruct ok; auto).
      pose proof (resumed_rows d r _ Hwf Hin Hp Hst) as Hstep.
      destruct (limit_reached a (S handled)).
      * injection H as <- <-. exact Hstep.
      * eapply Forall2_compose; [| exact Hstep |].
        -- intros x y z. apply resumed_trans.
        -- eapply IH; [| exact Hno | exact H].
           apply (well_formed_handled d (id r) _ false), Hwf.
    + injection H as <- <-. apply Hrefl.
  - injection H as <- <-. apply next_row_none in E as (-> & _). apply Hrefl.
Qed.

(** X14. In mode [processing], and in any mode with [--no-claim], the
    resuming worker claims nothing: however its run ends, every row is as
    it was or, if it was processing, has become completed or failed; rows
    that were pending, completed or failed are untouched. *)
Theorem resume_never_claims archiveOne a d res d' :
  well_formed d ->
  str_eqb (mode a) (lit "processing") = true \/ noClaim a = true ->
  db_main archiveOne a d = Some (res, d') ->
  Forall2 resumed (rows d) (rows d') /\
  Forall2 (fun r r' => status r <> processing -> r' = r) (rows d) (rows d').
Proof.
  intros Hwf Hno H. unfold db_main in H.
  pose proof (db_loop_no_claim _ _ _ _ _ _ _ Hwf Hno H) as HF.
  split; [exact HF |].
  eapply Forall2_impl; [exact HF |].
  intros x y [->|[Hs _]] Hne; [reflexivity | contradiction].
Qed.

Lemma resume_never_claims_witness :
  exists res d',
    db_main (fun _ _ => Browser.Ok true)
      {| limit := None; mode := lit "processing"; noClaim := false |}
      Samples.one_pending = Some (res, d') /\
    Forall2 (fun r r' => status r <> processing -> r' = r)
      (rows Samples.one_pending) (rows d').
Proof.
  destruct (db_main (fun _ _ => Browser.Ok true)
              {| limit := None; mode := lit "processing"; noClaim := false |}
              Samples.one_pending) as [[res d']|] eqn:E;
    [| vm_compute in E; discriminate].
  exists res, d'. split; [reflexivity |].
  apply (resume_never_claims (fun _ _ => Browser.Ok true)
           {| limit := None; mode := lit "processing"; noClaim := false |}
           Samples.one_pending res d'
           (well_formed_addJob 10 _ empty well_formed_empty)
           (or_introl eq_refl) E).
Defined.

End ResumeFacts.

(** ** Archive names *)

Section NameFacts.

Import ArchiveId.

Lemma slug_unit_dash : slug_unit 45 = true.
Proof. reflexivity. Qed.

Lemma dash_runs_units s : forallb slug_unit (dash_runs s) = true.
Proof.
  induction s as [|c r IH]; [reflexivity |]. cbn [dash_runs].
  destruct (slug_unit c) eqn:E.
  - cbn [forallb]. rewrite E. exact IH.
  - destruct r as [|c' r']; [reflexivity |].
    destruct (slug_unit c'); [| exact IH].
    cbn [forallb]. rewrite slug_unit_dash. exact IH.
Qed.

Lemma forallb_rev_true (P : N -> bool) s :
  forallb P s = true -> forallb P (rev s) = true.
Proof.
  rewrite !forallb_forall. intros H x Hx. apply H, in_rev, Hx.
Qed.

Lemma drop_dashes_forallb (P : N -> bool) s :
  forallb P s = true -> forallb P (drop_dashes s) = true.
Proof.
  induction s as [|c r IH]; [reflexivity |]. cbn [drop_dashes forallb].
  intros H. destruct (c =? 45); [| exact H].
  apply andb_true_iff in H as [_ H]. apply IH, H.
Qed.

Lemma strip_dashes_forallb (P : N -> bool) s :
  forallb P s = true -> forallb P (strip_dashes s) = true.
Proof.
  intros H. unfold strip_dashes.
  apply forallb_rev_true, drop_dashes_forallb, forallb_rev_true, drop_dashes_forallb, H.
Qed.

Lemma drop_dashes_head s : head (drop_dashes s) <> Some 45.
Proof.
  induction s as [|c r IH]; [discriminate |]. cbn [drop_dashes].
  destruct (c =? 45) eqn:E; [exact IH |].
  apply N.eqb_neq in E. cbn [head]. congruence.
Qed.

Lemma drop_dashes_fixed s : head s <> Some 45 -> drop_dashes s = s.
Proof.
  destruct s as [|c r]; [reflexivity |]. cbn [head drop_dashes]. intros H.
  destruct (c =? 45) eqn:E; [| reflexivity].
  apply N.eqb_eq in E. congruence.
Qed.

Lemma drop_dashes_last s : drop_dashes s = [] \/ last (drop_dashes s) = last s.
Proof.
  induction s as [|c r IH]; [left; reflexivity |]. cbn [drop_dashes].
  destruct (c =? 45); [| right; reflexivity].
  destruct IH as [IH|IH]; [left; exact IH |].
  destruct r as [|c' r']; [left; reflexivity | right].
  rewrite IH. reflexivity.
Qed.

Lemma head_rev (s : str) : head (rev s) = last s.
Proof.
  induction s as [|c r IH] using rev_ind; [reflexivity |].
  rewrite rev_app_distr, last_snoc. reflexivity.
Qed.

Lemma last_rev (s : str) : last (rev s) = head s.
Proof. rewrite <- (rev_involutive s) at 2. symmetry. apply head_rev. Qed.

Lemma strip_dashes_ends s :
  head (strip_dashes s) <> Some 45 /\ last (strip_dashes s) <> Some 45.
Proof.
  unfold strip_dashes. rewrite head_rev, last_rev. split; [| apply drop_dashes_head].
  destruct (drop_dashes_last (rev (drop_dashes s))) as [E|E]; rewrite E; [discriminate |].
  rewrite last_rev. apply drop_dashes_head.
Qed.

Lemma strip_dashes_fixed s :
  head s <> Some 45 -> last s <> Some 45 -> strip_dashes s = s.
Proof.
  intros Hh Hl. unfold strip_dashes. rewrite (drop_dashes_fixed s Hh).
  rewrite drop_dashes_fixed by (rewrite head_rev; exact Hl).
  apply rev_involutive.
Qed.

Lemma slug_unit_lower c : slug_unit c = true -> lower_unit c = c.
Proof.
  unfold slug_unit, lower_unit, is_lower, is_digit, is_upper. intros H.
  destruct ((65 <=? c) && (c <=? 90)) eqn:E1; [exfalso; unit_arith |].
  destruct ((192 <=? c) && (c <=? 222) && negb (c =? 215)) eqn:E2;
    [exfalso; unit_arith | reflexivity].
Qed.

Lemma toLowerCase_slug s : forallb slug_unit s = true -> toLowerCase s = s.
Proof.
  induction s as [|c r IH]; [reflexivity |]. cbn [forallb toLowerCase map].
  intros H. apply andb_true_iff in H as [Hc H].
  rewrite (slug_unit_lower c Hc). f_equal. apply IH, H.
Qed.

Lemma dash_runs_slug s : forallb slug_unit s = true -> dash_runs s = s.
Proof.
  induction s as [|c r IH]; [reflexivity |]. cbn [forallb dash_runs].
  intros H. apply andb_true_iff in H as [Hc H]. rewrite Hc. f_equal. apply IH, H.
Qed.

Lemma slugifyTitle_units title : forallb slug_unit (slugifyTitle title) = true.
Proof.
  destruct title as [|c r]; [reflexivity |]. unfold slugifyTitle.
  apply strip_dashes_forallb, dash_runs_units.
Qed.

Lemma slugifyTitle_ends title :
  head (slugifyTitle title) <> Some 45 /\ last (slugifyTitle title) <> Some 45.
Proof.
  destruct title as [|c r]; [split; discriminate |]. apply strip_dashes_ends.
Qed.

(** X15. An archive identifier is a safe directory name: for every URL
    class, URL and title it consists of lower-case letters, digits, dashes
    and underscores only, so it holds no path separator, no dot and no white
    space. The slug in it neither starts nor ends with a dash, and making a
    slug of a slug changes nothing, unless the slug is empty (a title with
    no letter or digit), in which case the result is [untitled]. *)
Theorem makeArchiveId_safe_name (U : URLClass) (url title : str) :
  forallb name_unit (makeArchiveId U url title) = true /\
  forallb slug_unit (slugifyTitle title) = true /\
  head (slugifyTitle title) <> Some 45 /\
  last (slugifyTitle title) <> Some 45 /\
  slugifyTitle (slugifyTitle title)
  = match slugifyTitle title with
    | [] => lit "untitled"
    | _ :: _ => slugifyTitle title
    end.
Proof.
  pose proof (slugifyTitle_units title) as Hu.
  destruct (slugifyTitle_ends title) as [Hh Hl].
  split_and!; try assumption.
  - unfold makeArchiveId. rewrite !forallb_app. apply andb_true_iff. split.
    + rewrite forallb_forall in *. intros c Hc. unfold name_unit.
      rewrite (Hu c Hc). reflexivity.
    + apply andb_true_iff. split; [reflexivity |].
      destruct (md5Hash_shape (normalizeUrl U url)) as [_ Hx].
      rewrite forallb_forall in *. intros c Hc. specialize (Hx c Hc).
      unfold name_unit, slug_unit, is_lower_hex, is_lower, is_digit in *.
      unit_arith.
  - destruct (slugifyTitle title) as [|c r] eqn:E; [reflexivity |].
    unfold slugifyTitle at 1.
    rewrite (toLowerCase_slug _ Hu), (dash_runs_slug _ Hu).
    apply strip_dashes_fixed; assumption.
Qed.

End NameFacts.
(** ** The lazy-load scroll *)

Section LazyScrollFacts.

Import LazyScroll.

Lemma scroll_loop_stops fuel : forall totalHeight viewport y2,
  0 < viewport ->
  (N.to_nat (2 * totalHeight - y2) < fuel)%nat ->
  exists stops,
    scroll_loop fuel totalHeight viewport y2 = Some (stops ++ [0]) /\
    (forall q, y2 <= q < 2 * totalHeight ->
       exists y, In y stops /\ y <= q < y + viewport) /\
    (forall y, In y stops -> y2 <= y < 2 * totalHeight /\ (viewport | y - y2)).
Proof.
  induction fuel as [|fuel IH]; intros T v y2 Hv Hf; [lia |].
  cbn [scroll_loop]. destruct (y2 <? 2 * T) eqn:E.
  - apply N.ltb_lt in E.
    destruct (IH T v (y2 + v) Hv) as (stops & -> & Hcov & Hin); [lia |].
    exists (y2 :: stops). split_and!; [reflexivity | |].
    + intros q Hq. destruct (N.lt_ge_cases q (y2 + v)) as [Hlt|Hge].
      * exists y2. split; [left; reflexivity | lia].
      * destruct (Hcov q) as (y & Hy & Hyq); [lia |].
        exists y. split; [right; exact Hy | exact Hyq].
    + intros y [<-|Hy].
      * split; [lia |]. rewrite N.sub_diag. apply N.divide_0_r.
      * destruct (Hin y Hy) as [Hr [k Hk]]. split; [lia |].
        exists (k + 1). lia.
  - apply N.ltb_ge in E. exists []. split_and!; [reflexivity | |].
    + intros q Hq. lia.
    + intros y [].
Qed.

Lemma scroll_loop_stuck fuel : forall totalHeight y2,
  y2 < 2 * totalHeight -> scroll_loop fuel totalHeight 0 y2 = None.
Proof.
  induction fuel as [|fuel IH]; intros T y2 H; [reflexivity |].
  cbn [scroll_loop]. apply N.ltb_lt in H as H'. rewrite H', N.add_0_r.
  rewrite (IH T y2 H). reflexivity.
Qed.

(** X16. The positions the scroll that triggers lazy loading asks
    [window.scrollTo] for. With a viewport of positive height the loop ends;
    it asks for the multiples of half the viewport height below the height
    of the document, top first, and then for the top again; every pixel row
    of the document is at one of the positions asked for or below it by
    less than half a viewport. Where the window then stands is up to the
    browser, which keeps the position within the scrollable range. With a
    viewport of height zero and a document of positive height the loop
    never ends. *)
Theorem lazy_scroll_covers_page totalHeight viewport :
  (0 < viewport ->
   exists stops,
     scroll_positions (S (N.to_nat (2 * totalHeight))) totalHeight viewport
     = Some (stops ++ [0]) /\
     (forall row, row < totalHeight ->
        exists y, In y stops /\ y <= 2 * row < y + viewport) /\
     (forall y, In y stops -> y < 2 * totalHeight /\ (viewport | y))) /\
  (viewport = 0 -> 0 < totalHeight ->
   forall fuel, scroll_positions fuel totalHeight viewport = None).
Proof.
  split.
  - intros Hv. unfold scroll_positions.
    destruct (scroll_loop_stops (S (N.to_nat (2 * totalHeight))) totalHeight viewport 0 Hv)
      as (stops & E & Hcov & Hin); [lia |].
    exists stops. split_and!; [exact E | |].
    + intros row Hrow. apply Hcov. lia.
    + intros y Hy. destruct (Hin y Hy) as [Hr Hd].
      rewrite N.sub_0_r in Hd. split; [lia | exact Hd].
  - intros -> HT fuel. apply scroll_loop_stuck. lia.
Qed.

Lemma lazy_scroll_covers_page_witness :
  exists stops,
    scroll_positions 7 3 4 = Some (stops ++ [0]) /\
    (exists y, In y stops /\ y <= 2 * 2 < y + 4) /\
    scroll_positions 7 3 0 = None.
Proof.
  destruct (proj1 (lazy_scroll_covers_page 3 4)) as (stops & E & Hcov & _); [lia |].
  exists stops. split_and!.
  - exact E.
  - apply Hcov. lia.
  - apply (proj2 (lazy_scroll_covers_page 3 0)); [reflexivity | lia].
Defined.

End LazyScrollFacts.
(** ** File sizes *)

Section HumanSizeFacts.

Import HumanSize.

Lemma tenths_nearest bytes unit :
  0 < unit -> (2 | unit) ->
  let n := tenths bytes unit in
  2 * unit * n <= 20 * bytes + unit < 2 * unit * (n + 1).
Proof.
  intros Hu [k Hk] n. subst n. unfold tenths.
  assert (Hk2 : unit / 2 = k) by (subst unit; apply N.div_mul; lia).
  rewrite Hk2.
  pose proof (N.div_mod (10 * bytes + k) unit ltac:(lia)) as Hd.
  pose proof (N.mod_lt (10 * bytes + k) unit ltac:(lia)) as Hm.
  rewrite <- !N.mul_assoc, N.mul_add_distr_l, N.mul_1_r.
  clear Hk2.
  generalize dependent ((10 * bytes + k) mod unit).
  generalize dependent (unit * ((10 * bytes + k) / unit)).
  intros; lia.
Qed.

(** X17. [humanFileSize] shows a size below 1024 in bytes, a size below
    1048576 in KB and any other in MB, with one decimal in the last two
    cases: the tenth nearest to the true quotient, the upper one at a tie.
    Rounding is done after the unit is chosen, so the sizes from 1048525 to
    1048575 are shown as [1024.0 KB]. *)
Theorem humanFileSize_rounds bytes :
  (bytes < 1024 -> humanFileSize bytes = decimal bytes ++ lit " B") /\
  (1024 <= bytes < 1048576 ->
   exists n,
     humanFileSize bytes
     = decimal (n / 10) ++ lit "." ++ decimal (n mod 10) ++ lit " KB" /\
     2048 * n <= 20 * bytes + 1024 < 2048 * (n + 1) /\ 10 <= n <= 10240) /\
  (1048576 <= bytes ->
   exists n,
     humanFileSize bytes
     = decimal (n / 10) ++ lit "." ++ decimal (n mod 10) ++ lit " MB" /\
     2097152 * n <= 20 * bytes + 1048576 < 2097152 * (n + 1) /\ 10 <= n) /\
  (1048525 <= bytes < 1048576 -> humanFileSize bytes = lit "1024.0 KB").
Proof.
  unfold humanFileSize. split_and!.
  - intros H. apply N.ltb_lt in H. rewrite H. reflexivity.
  - intros [H1 H2]. apply N.ltb_ge in H1 as H1'. apply N.ltb_lt in H2 as H2'.
    rewrite H1', H2'. exists (tenths bytes 1024).
    pose proof (tenths_nearest bytes 1024 ltac:(lia) ltac:(exists 512; reflexivity)) as Hn.
    cbn zeta in Hn. split_and!; [unfold toFixed1; rewrite <- !app_assoc; reflexivity | lia | lia | lia | lia].
  - intros H1. assert (H2 : 1024 <= bytes) by lia.
    apply N.ltb_ge in H1 as H1'. apply N.ltb_ge in H2 as H2'.
    rewrite H1', H2'. exists (tenths bytes 1048576).
    pose proof (tenths_nearest bytes 1048576 ltac:(lia) ltac:(exists 524288; reflexivity)) as Hn.
    cbn zeta in Hn. split_and!; [unfold toFixed1; rewrite <- !app_assoc; reflexivity | lia | lia | lia].
  - intros [H1 H2]. assert (H0 : 1024 <= bytes) by lia.
    apply N.ltb_ge in H0 as H0'. apply N.ltb_lt in H2 as H2'.
    rewrite H0', H2'.
    pose proof (tenths_nearest bytes 1024 ltac:(lia) ltac:(exists 512; reflexivity)) as Hn.
    cbn zeta in Hn.
    assert (E : tenths bytes 1024 = 10240) by lia.
    unfold toFixed1. rewrite E. reflexivity.
Qed.

Lemma humanFileSize_rounds_witness :
  humanFileSize 1023 = lit "1023 B" /\
  humanFileSize 1536 = lit "1.5 KB" /\
  humanFileSize 1048575 = lit "1024.0 KB".
Proof.
  split_and!.
  - rewrite (proj1 (humanFileSize_rounds 1023)); [reflexivity | lia].
  - destruct (proj1 (proj2 (humanFileSize_rounds 1536))) as (n & E & Hn & _); [lia |].
    rewrite E. assert (n = 15) as -> by lia. reflexivity.
  - apply (proj2 (proj2 (proj2 (humanFileSize_rounds 1048575)))). lia.
Defined.

End HumanSizeFacts.
(** ** Directory names of the resuming worker *)

Section PageSlugFacts.

Import ArchiveId PageSlug.

Lemma includes_double_dash s :
  includes s (lit "--") = true -> has_double_dash s.
Proof.
  change (lit "--") with [45; 45].
  induction s as [|c r IH]; cbn [includes starts_with]; [discriminate |].
  intros H. apply orb_true_iff in H as [H|H].
  - apply andb_true_iff in H as [Hc H]. apply N.eqb_eq in Hc. subst c.
    destruct r as [|y r']; [discriminate |].
    apply andb_true_iff in H as [Hy _]. apply N.eqb_eq in Hy. subst y.
    exists [], r'. reflexivity.
  - destruct (IH H) as (a & b & ->). exists (c :: a), b. reflexivity.
Qed.

Lemma has_double_dash_infix pre s post :
  has_double_dash s -> has_double_dash (pre ++ s ++ post).
Proof.
  intros (a & b & ->). exists (pre ++ a), (b ++ post).
  rewrite <- !app_assoc. reflexivity.
Qed.

Lemma dash_non_alnum_head c r :
  is_alnum c = true -> dash_non_alnum (c :: r) = c :: dash_non_alnum r.
Proof. intros H. cbn [dash_non_alnum]. rewrite H. reflexivity. Qed.

Lemma alnum_not_dash c : is_alnum c = true -> c <> 45.
Proof. unfold is_alnum, is_upper, is_lower, is_digit. intros H ->. discriminate H. Qed.

Lemma cons_double_dash c s :
  has_double_dash (c :: s) -> (c = 45 /\ head s = Some 45) \/ has_double_dash s.
Proof.
  intros ([|x a] & b & E); injection E as -> ->.
  - left. split; reflexivity.
  - right. exists a, b. reflexivity.
Qed.

Lemma dash_non_alnum_single s : ~ has_double_dash (dash_non_alnum s).
Proof.
  induction s as [|c r IH]; [intros ([|? ?] & b & E); discriminate E |].
  cbn [dash_non_alnum]. destruct (is_alnum c) eqn:Ec.
  - intros H. apply cons_double_dash in H as [[-> _]|H]; [discriminate Ec | exact (IH H)].
  - destruct r as [|c' r'].
    + intros ([|? [|? ?]] & b & E); discriminate E.
    + destruct (is_alnum c') eqn:Ec'; [| exact IH].
      intros H. apply cons_double_dash in H as [[_ H]|H]; [| exact (IH H)].
      rewrite (dash_non_alnum_head _ _ Ec') in H. cbn [head] in H.
      injection H as ->. discriminate Ec'.
Qed.

Lemma dash_non_alnum_units s :
  forallb (fun c => is_alnum c || (c =? 45)) (dash_non_alnum s) = true.
Proof.
  induction s as [|c r IH]; [reflexivity |]. cbn [dash_non_alnum].
  destruct (is_alnum c) eqn:Ec.
  - cbn [forallb]. rewrite Ec. exact IH.
  - destruct r as [|c' r']; [reflexivity |].
    destruct (is_alnum c'); [| exact IH]. cbn [forallb]. exact IH.
Qed.

Lemma drop_dashes_suffix s : exists pre, s = pre ++ drop_dashes s.
Proof.
  induction s as [|c r [pre IH]]; [exists []; reflexivity |]. cbn [drop_dashes].
  destruct (c =? 45); [| exists []; reflexivity].
  exists (c :: pre). cbn [app]. f_equal. exact IH.
Qed.

Lemma strip_dashes_infix s : exists pre post, s = pre ++ strip_dashes s ++ post.
Proof.
  unfold strip_dashes.
  destruct (drop_dashes_suffix s) as [p1 E1].
  destruct (drop_dashes_suffix (rev (drop_dashes s))) as [p2 E2].
  exists p1, (rev p2). rewrite E1 at 1. f_equal.
  rewrite <- (rev_involutive (drop_dashes s)) at 1. rewrite E2 at 1.
  apply rev_app_distr.
Qed.

Lemma lower_unit_dash c : lower_unit c = 45 -> c = 45.
Proof.
  unfold lower_unit, is_upper.
  destruct ((65 <=? c) && (c <=? 90)) eqn:E1; [intros; unit_arith |].
  destruct ((192 <=? c) && (c <=? 222) && negb (c =? 215)) eqn:E2;
    [intros; unit_arith | trivial].
Qed.

Lemma toLowerCase_double_dash s :
  has_double_dash (toLowerCase s) -> has_double_dash s.
Proof.
  intros (a & b & E). unfold toLowerCase in E.
  apply map_eq_app in E as (a' & t & -> & Ha & Ht).
  apply map_eq_cons in Ht as (x & t' & -> & Hx & Ht).
  apply map_eq_cons in Ht as (y & b' & -> & Hy & Hb).
  apply lower_unit_dash in Hx, Hy. subst x y. exists a', b'. reflexivity.
Qed.

Lemma alnum_lower_slug c :
  is_alnum c || (c =? 45) = true -> slug_unit (lower_unit c) = true.
Proof.
  unfold is_alnum, slug_unit, lower_unit, is_upper, is_lower, is_digit. intros H.
  destruct ((65 <=? c) && (c <=? 90)) eqn:E1; [unit_arith |].
  destruct ((192 <=? c) && (c <=? 222) && negb (c =? 215)) eqn:E2;
    [exfalso; unit_arith |].
  rewrite orb_true_iff in H. destruct H as [H|H].
  - rewrite !orb_true_iff in H. destruct H as [[H|H]|H].
    + unfold is_upper in E1. congruence.
    + rewrite H. reflexivity.
    + rewrite H. apply orb_true_iff. left. apply orb_true_r.
  - rewrite H. apply orb_true_r.
Qed.

Lemma firstn_prefix {A} n (s : list A) : exists post, s = firstn n s ++ post.
Proof. exists (skipn n s). symmetry. apply firstn_skipn. Qed.

(** X18. The slug the resuming worker puts into a directory name is never
    empty and at most 80 units long; it consists of lower-case letters,
    digits and dashes only, does not start with a dash and holds no two
    dashes in a row. A URL the constructor rejects, and a URL without a
    letter or digit in host and path, give [page]. *)
Theorem slugFromUrl_safe (URL_parts : str -> option (str * str)) (u : str) :
  let s := slugFromUrl URL_parts u in
  s <> [] /\ (length s <= 80)%nat /\
  forallb slug_unit s = true /\
  head s <> Some 45 /\
  includes s (lit "--") = false /\
  (URL_parts u = None -> s = lit "page").
Proof.
  cbn zeta. unfold slugFromUrl.
  destruct (URL_parts u) as [[hostname pathname]|];
    [| split_and!; try reflexivity; try discriminate; cbn; lia].
  set (raw := dash_non_alnum (remove_scheme (hostname ++ pathname))).
  set (s := toLowerCase (strip_dashes raw)).
  assert (Hunits : forallb slug_unit s = true).
  { unfold s, toLowerCase. rewrite forallb_forall. intros c Hc.
    apply in_map_iff in Hc as (x & <- & Hx). apply alnum_lower_slug.
    pose proof (strip_dashes_forallb _ raw (dash_non_alnum_units _)) as Hall.
    rewrite forallb_forall in Hall. apply Hall, Hx. }
  assert (Hhead : head s <> Some 45).
  { unfold s. destruct (strip_dashes_ends raw) as [Hh _].
    destruct (strip_dashes raw) as [|c r]; [discriminate |].
    cbn [toLowerCase map head] in *. intros [= E]. apply lower_unit_dash in E. congruence. }
  assert (Hdd : ~ has_double_dash s).
  { unfold s. intros H. apply toLowerCase_double_dash in H.
    destruct (strip_dashes_infix raw) as (pre & post & E).
    apply (dash_non_alnum_single (remove_scheme (hostname ++ pathname))).
    fold raw. rewrite E. apply has_double_dash_infix, H. }
  destruct (firstn_prefix 80 s) as [post Epost].
  destruct (firstn 80 s) as [|c r] eqn:F;
    [split_and!; try reflexivity; try discriminate; cbn; lia |].
  split_and!.
  - discriminate.
  - rewrite <- F. rewrite length_firstn. lia.
  - rewrite <- F. apply forallb_firstn, Hunits.
  - intros H. apply Hhead. rewrite Epost. exact H.
  - destruct (includes (c :: r) (lit "--")) eqn:I; [| reflexivity].
    exfalso. apply Hdd. rewrite Epost.
    apply (has_double_dash_infix [] (c :: r) post), includes_double_dash, I.
  - discriminate.
Qed.

End PageSlugFacts.
(** ** The title of an archive *)

Section UrlSlugFacts.

Import ArchiveId PageSlug UrlSlug.

Lemma squeeze_dashes_head s : head (squeeze_dashes s) = head s.
Proof.
  induction s as [|c r IH]; [reflexivity |]. cbn [squeeze_dashes].
  destruct (c =? 45) eqn:Ec; cbn [andb]; [| reflexivity].
  destruct r as [|c' r']; [reflexivity |].
  destruct (c' =? 45) eqn:Ec'; [| reflexivity].
  rewrite IH. apply N.eqb_eq in Ec, Ec'. subst. reflexivity.
Qed.

Lemma squeeze_dashes_single s : ~ has_double_dash (squeeze_dashes s).
Proof.
  induction s as [|c r IH]; [intros ([|? ?] & b & E); discriminate E |].
  cbn [squeeze_dashes].
  destruct ((c =? 45) && match r with c' :: _ => c' =? 45 | [] => false end) eqn:E;
    [exact IH |].
  intros H. apply cons_double_dash in H as [[-> Hh]|H]; [| exact (IH H)].
  rewrite squeeze_dashes_head in Hh. destruct r as [|c' r']; [discriminate Hh |].
  injection Hh as ->. discriminate E.
Qed.

Lemma squeeze_dashes_forallb (P : N -> bool) s :
  forallb P s = true -> forallb P (squeeze_dashes s) = true.
Proof.
  induction s as [|c r IH]; [reflexivity |]. cbn [squeeze_dashes forallb].
  intros H. apply andb_true_iff in H as [Hc H].
  destruct (_ && _); [apply IH, H |]. cbn [forallb]. rewrite Hc. apply IH, H.
Qed.

Lemma drop_one_dash_all s : ~ has_double_dash s -> drop_one_dash s = drop_dashes s.
Proof.
  destruct s as [|c r]; [reflexivity |]. cbn [drop_one_dash drop_dashes]. intros H.
  destruct (c =? 45) eqn:Ec; [| reflexivity].
  apply N.eqb_eq in Ec. subst c. symmetry. apply drop_dashes_fixed.
  intros Hh. apply H. destruct r as [|c' r']; [discriminate Hh |].
  injection Hh as ->. exists [], r'. reflexivity.
Qed.

Lemma rev_double_dash s : has_double_dash (rev s) -> has_double_dash s.
Proof.
  intros (a & b & E). exists (rev b), (rev a).
  rewrite <- (rev_involutive s), E, rev_app_distr. cbn [rev].
  rewrite <- !app_assoc. reflexivity.
Qed.

Lemma trim_one_dash_strip s : ~ has_double_dash s -> trim_one_dash s = strip_dashes s.
Proof.
  intros H. unfold trim_one_dash, strip_dashes.
  rewrite (drop_one_dash_all s H). f_equal. apply drop_one_dash_all.
  intros Hr. apply rev_double_dash in Hr. apply H.
  destruct (drop_dashes_suffix s) as [pre E]. rewrite E.
  rewrite <- (app_nil_r (drop_dashes s)). apply has_double_dash_infix, Hr.
Qed.

Lemma filter_forallb (P : N -> bool) s : forallb P (List.filter P s) = true.
Proof.
  rewrite forallb_forall. intros c Hc. apply filter_In in Hc. tauto.
Qed.

(** X19. The title [saveArchive] derives from a URL. A URL the constructor
    rejects gives [untitled], and a URL whose path has no segment gives the
    host name as it is. In every other case the title consists of word
    characters, white space and dashes only, holds no two dashes in a row
    and neither starts nor ends with a dash. *)
Theorem slugFromUrl_shape (URL_parts : str -> option (str * str)) (url : str) :
  match URL_parts url with
  | None => slugFromUrl URL_parts url = lit "untitled"
  | Some (hostname, pathname) =>
      if forallb (fun p => negb (non_empty p)) (split_on 47 pathname)
      then slugFromUrl URL_parts url = hostname
      else
        forallb keeps (slugFromUrl URL_parts url) = true /\
        includes (slugFromUrl URL_parts url) (lit "--") = false /\
        head (slugFromUrl URL_parts url) <> Some 45 /\
        last (slugFromUrl URL_parts url) <> Some 45
  end.
Proof.
  unfold slugFromUrl. destruct (URL_parts url) as [[hostname pathname]|]; [| reflexivity].
  assert (Hparts : forall ps : list str,
             forallb (fun p => negb (non_empty p)) ps = true <->
             List.filter non_empty ps = []).
  { induction ps as [|p ps IH]; [tauto |]. cbn [forallb List.filter].
    destruct (non_empty p); cbn [negb andb]; [split; discriminate | exact IH]. }
  destruct (forallb _ (split_on 47 pathname)) eqn:E.
  - apply Hparts in E. rewrite E. reflexivity.
  - destruct (List.filter non_empty (split_on 47 pathname)) as [|p ps] eqn:F.
    { apply Hparts in F. congruence. }
    cbn zeta.
    set (joined := match join (lit "-") _ with [] => hostname | c :: r => c :: r end).
    set (t := squeeze_dashes (List.filter keeps joined)).
    assert (Hdd : ~ has_double_dash t) by apply squeeze_dashes_single.
    rewrite (trim_one_dash_strip t Hdd).
    destruct (strip_dashes_ends t) as [Hh Hl].
    split_and!; try assumption.
    + apply strip_dashes_forallb, squeeze_dashes_forallb, filter_forallb.
    + destruct (includes (strip_dashes t) (lit "--")) eqn:I; [| reflexivity].
      exfalso. apply Hdd. destruct (strip_dashes_infix t) as (pre & post & Et).
      rewrite Et. apply has_double_dash_infix, includes_double_dash, I.
Qed.

End UrlSlugFacts.

(** ** Claims one after another *)

Section ClaimFacts.

Import Queue.

(** After the UPDATE of a claim, the rows still pending are rows that were
    pending before, and not the one claimed. *)
Lemma pending_after_claim i g d x :
  (forall r, status (g r) <> pending) ->
  In x (rows (update_where i g d)) -> status x = pending ->
  In x (rows d) /\ id x <> i.
Proof.
  intros Hg Hin Hs. unfold update_where in Hin. cbn [rows] in Hin.
  apply in_map_iff in Hin as (r & E & Hr).
  destruct (id r =? i) eqn:Ei.
  - subst x. destruct (Hg r Hs).
  - subst x. apply N.eqb_neq in Ei. split; assumption.
Qed.

Lemma next_jobs_pending now n : forall k d x,
  In x (fst (next_jobs now n k d)) -> In x (rows d) /\ status x = pending.
Proof.
  induction n as [|n IH]; intros k d x; cbn [next_jobs]; [intros [] |].
  unfold getNextJob. destruct (select_pending d) as [r|] eqn:Sel; [| intros []].
  destruct (next_jobs now n (S k) (mark_processing (now k) (id r) d)) as [rs d'] eqn:E.
  cbn [fst]. intros [<-|Hx].
  - destruct (select_pending_oldest _ _ Sel) as (Hin & Hs & _). split; assumption.
  - assert (Hx' : In x (fst (next_jobs now n (S k) (mark_processing (now k) (id r) d))))
      by (rewrite E; exact Hx).
    apply IH in Hx' as [Hin Hs]. split; [| exact Hs].
    eapply pending_after_claim; [| exact Hin | exact Hs]. intros r0. cbn. discriminate.
Qed.

Lemma claims_pending n : forall d x,
  In x (fst (claims n d)) -> In x (rows d) /\ status x = pending.
Proof.
  induction n as [|n IH]; intros d x; cbn [claims]; [intros [] |].
  unfold claimPending. destruct (pickPending d) as [r|] eqn:Sel; [| intros []].
  destruct (claims n (markProcessing (id r) d)) as [rs d'] eqn:E.
  cbn [fst]. intros [<-|Hx].
  - destruct (least_pending_spec _ _ _ _ Sel) as ([[Hin Hs]|?] & _); [| discriminate].
    split; assumption.
  - assert (Hx' : In x (fst (claims n (markProcessing (id r) d))))
      by (rewrite E; exact Hx).
    apply IH in Hx' as [Hin Hs]. split; [| exact Hs].
    eapply pending_after_claim; [| exact Hin | exact Hs]. intros r0. cbn. discriminate.
Qed.

(** X20. Claims made one after the other never hand out a job twice.
    However many times [getNextJob] is called in sequence, the rows it
    returns were all pending, have pairwise different ids, and come in
    order of [added_at]; the same holds of [claimPending], whose rows come
    in strictly increasing order of id. *)
Theorem sequential_claims_distinct (d : db) (n : nat) :
  (forall now k,
     let rs := fst (next_jobs now n k d) in
     NoDup (map id rs) /\
     Forall (fun r => In r (rows d) /\ status r = pending) rs /\
     Sorted (fun a b => (added_at a <= added_at b)%Z) rs) /\
  (let rs := fst (claims n d) in
   NoDup (map id rs) /\
   Forall (fun r => In r (rows d) /\ status r = pending) rs /\
   Sorted (fun a b => id a < id b) rs).
Proof.
  split.
  - intros now k. cbn zeta. revert k d.
    induction n as [|n IH]; intros k d; cbn [next_jobs].
    { split_and!; constructor. }
    unfold getNextJob. destruct (select_pending d) as [r|] eqn:Sel;
      [| split_and!; constructor].
    destruct (IH (S k) (mark_processing (now k) (id r) d)) as (Hnd & Hall & Hsort).
    pose proof (next_jobs_pending now n (S k) (mark_processing (now k) (id r) d)) as Hp.
    destruct (next_jobs now n (S k) (mark_processing (now k) (id r) d)) as [rs d'].
    cbn [fst] in *.
    destruct (select_pending_oldest _ _ Sel) as (Hin & Hs & Hold).
    assert (Hrest : forall x, In x rs -> In x (rows d) /\ status x = pending /\ id x <> id r).
    { intros x Hx. destruct (Hp x Hx) as [Hxin Hxs].
      assert (H12 : In x (rows d) /\ id x <> id r).
      { eapply pending_after_claim; [| exact Hxin | exact Hxs].
        intros r0. cbn. discriminate. }
      destruct H12 as [H1 H2]. split_and!; assumption. }
    split_and!.
    + cbn [map]. apply NoDup_cons. split; [| exact Hnd].
      intros Hr. apply list_elem_of_In, in_map_iff in Hr as (x & Ex & Hx).
      destruct (Hrest x Hx) as (_ & _ & Hne). congruence.
    + constructor; [split; assumption |].
      apply List.Forall_forall. intros x Hx. destruct (Hrest x Hx) as (H1 & H2 & _).
      split; assumption.
    + constructor; [exact Hsort |].
      destruct rs as [|x rs']; constructor.
      destruct (Hrest x (or_introl eq_refl)) as (H1 & H2 & _). apply Hold; assumption.
  - cbn zeta. revert d.
    induction n as [|n IH]; intros d; cbn [claims].
    { split_and!; constructor. }
    unfold claimPending. destruct (pickPending d) as [r|] eqn:Sel;
      [| split_and!; constructor].
    destruct (IH (markProcessing (id r) d)) as (Hnd & Hall & Hsort).
    pose proof (claims_pending n (markProcessing (id r) d)) as Hp.
    destruct (claims n (markProcessing (id r) d)) as [rs d'].
    cbn [fst] in *.
    destruct (least_pending_spec _ _ _ _ Sel) as ([[Hin Hs]|?] & Hold & _);
      [| discriminate].
    assert (Hrest : forall x, In x rs -> In x (rows d) /\ status x = pending /\ id x <> id r).
    { intros x Hx. destruct (Hp x Hx) as [Hxin Hxs].
      assert (H12 : In x (rows d) /\ id x <> id r).
      { eapply pending_after_claim; [| exact Hxin | exact Hxs].
        intros r0. cbn. discriminate. }
      destruct H12 as [H1 H2]. split_and!; assumption. }
    split_and!.
    + cbn [map]. apply NoDup_cons. split; [| exact Hnd].
      intros Hr. apply list_elem_of_In, in_map_iff in Hr as (x & Ex & Hx).
      destruct (Hrest x Hx) as (_ & _ & Hne). congruence.
    + constructor; [split; assumption |].
      apply List.Forall_forall. intros x Hx. destruct (Hrest x Hx) as (H1 & H2 & _).
      split; assumption.
    + constructor; [exact Hsort |].
      destruct rs as [|x rs']; constructor.
      destruct (Hrest x (or_introl eq_refl)) as (H1 & H2 & Hne).
      specialize (Hold x H1 H2). lia.
Qed.

End ClaimFacts.
(** ** The command line of the resuming worker *)

Section CliFacts.

Import ArchiveId Cli.

Lemma split_eq_1_after (key v : str) :
  forallb (fun c => negb (c =? 61)) key = true ->
  split_eq_1 (key ++ 61 :: v) = fst (break_at (fun c => c =? 61) v).
Proof.
  intros Hk. unfold split_eq_1.
  assert (E : break_at (fun c => c =? 61) (key ++ 61 :: v) = (key, Some v)).
  { induction key as [|c key IH]; [reflexivity |].
    cbn [forallb] in Hk. apply andb_true_iff in Hk as [Hc Hk].
    cbn [app break_at]. apply negb_true_iff in Hc. rewrite Hc, (IH Hk). reflexivity. }
  rewrite E. reflexivity.
Qed.

Lemma parse_cons x rest a :
  parse (x :: rest) a
  = if str_eqb x (lit "--file") then
      match rest with
      | v :: rest' => parse rest' (set_file (Some v) a)
      | [] => set_file None a
      end
    else if starts_with (lit "--file=") x then
      parse rest (set_file (Some (split_eq_1 x)) a)
    else if str_eqb x (lit "--db") then
      match rest with
      | v :: rest' => parse rest' (set_db (Some v) a)
      | [] => set_db None a
      end
    else if starts_with (lit "--db=") x then
      parse rest (set_db (Some (split_eq_1 x)) a)
    else if str_eqb x (lit "--limit") then
      match rest with
      | v :: rest' => parse rest' (set_limit (parseInt (or_default (Some v) (lit "0"))) a)
      | [] => set_limit (parseInt (or_default None (lit "0"))) a
      end
    else if starts_with (lit "--limit=") x then
      parse rest (set_limit (parseInt (or_default (Some (split_eq_1 x)) (lit "0"))) a)
    else if str_eqb x (lit "--mode") then
      match rest with
      | v :: rest' => parse rest' (set_mode (toLowerCase (or_default (Some v) (lit "auto"))) a)
      | [] => set_mode (toLowerCase (or_default None (lit "auto"))) a
      end
    else if starts_with (lit "--mode=") x then
      parse rest (set_mode (toLowerCase (split_eq_1 x)) a)
    else if str_eqb x (lit "--no-claim") then parse rest (set_noClaim a)
    else if str_eqb x (lit "--drain") then parse rest (set_drain a)
    else parse rest (push x a).
Proof. reflexivity. Qed.

Ltac flag_test :=
  match goal with
  | |- context [if str_eqb ?x ?y then _ else _] =>
      let E := fresh "E" in
      destruct (str_eqb x y) eqn:E;
      [ apply str_eqb_eq in E; vm_compute in E;
        first [discriminate E | clear E]
      | apply str_eqb_neq in E;
        first [exfalso; apply E; reflexivity | clear E] ]
  | |- context [if starts_with ?p ?x then _ else _] =>
      let b := eval vm_compute in (starts_with p x) in
      change (starts_with p x) with b; cbv iota
  end.

(** X21. The two spellings of an option of the resuming worker. For
    [--file], [--db] and [--limit], [--key=v] is read as [--key] followed by
    what stands in [v] before its first equals sign: the two spellings
    agree on a value without an equals sign, and the rest of a value that
    holds one is dropped. For [--mode] the same holds unless that part is
    empty, where [--mode=] gives the empty mode and [--mode] followed by the
    empty string gives [auto]. *)
Theorem parseArgs_spellings (v : str) (rest : list str) (a : cli) :
  let v1 := fst (break_at (fun c => c =? 61) v) in
  parse ((lit "--file=" ++ v) :: rest) a = parse (lit "--file" :: v1 :: rest) a /\
  parse ((lit "--db=" ++ v) :: rest) a = parse (lit "--db" :: v1 :: rest) a /\
  parse ((lit "--limit=" ++ v) :: rest) a = parse (lit "--limit" :: v1 :: rest) a /\
  parse ((lit "--mode=" ++ v) :: rest) a
  = match v1 with
    | [] => parse rest (set_mode [] a)
    | _ :: _ => parse (lit "--mode" :: v1 :: rest) a
    end.
Proof.
  cbn zeta. split_and!.
  - rewrite (parse_cons (lit "--file=" ++ v)), (parse_cons (lit "--file")).
    repeat flag_test.
    change (lit "--file=" ++ v) with (lit "--file" ++ 61 :: v).
    rewrite (split_eq_1_after (lit "--file") v eq_refl). reflexivity.
  - rewrite (parse_cons (lit "--db=" ++ v)), (parse_cons (lit "--db")).
    repeat flag_test.
    change (lit "--db=" ++ v) with (lit "--db" ++ 61 :: v).
    rewrite (split_eq_1_after (lit "--db") v eq_refl). reflexivity.
  - rewrite (parse_cons (lit "--limit=" ++ v)), (parse_cons (lit "--limit")).
    repeat flag_test.
    change (lit "--limit=" ++ v) with (lit "--limit" ++ 61 :: v).
    rewrite (split_eq_1_after (lit "--limit") v eq_refl). reflexivity.
  - rewrite (parse_cons (lit "--mode=" ++ v)), (parse_cons (lit "--mode")).
    repeat flag_test.
    change (lit "--mode=" ++ v) with (lit "--mode" ++ 61 :: v).
    rewrite (split_eq_1_after (lit "--mode") v eq_refl).
    destruct (fst (break_at (fun c => c =? 61) v)) as [|c r]; reflexivity.
Qed.

End CliFacts.
(** ** The navigation blocker in the sanitized HTML *)

Section InjectionFacts.

Import Injection.

Lemma has_marker_app_r a s : has_marker s = true -> has_marker (a ++ s) = true.
Proof.
  intros H. induction a as [|c a IH]; [exact H |].
  cbn [app has_marker]. rewrite IH. apply orb_true_r.
Qed.

Lemma has_marker_script b : has_marker (injectionScript ++ b) = true.
Proof. vm_compute. reflexivity. Qed.

Lemma starts_with_ci_split p : forall s after,
  starts_with_ci p s = Some after -> s = firstn (length p) s ++ after.
Proof.
  induction p as [|x p IH]; intros s after H; cbn [starts_with_ci] in H.
  - injection H as <-. reflexivity.
  - destruct s as [|y s]; [discriminate |].
    destruct (_ =? _); [| discriminate].
    cbn [length firstn app]. f_equal. apply IH, H.
Qed.

Lemma until_gt_split s : forall m rest,
  until_gt s = Some (m, rest) -> s = m ++ rest.
Proof.
  induction s as [|c r IH]; intros m rest H; cbn [until_gt] in H; [discriminate |].
  destruct (c =? 62).
  - injection H as <- <-. reflexivity.
  - destruct (until_gt r) as [[m' rest']|]; [| discriminate].
    injection H as <- <-. cbn [app]. f_equal. apply IH. reflexivity.
Qed.

Lemma tag_at_split name s m rest :
  tag_at name s = Some (m, rest) -> s = m ++ rest.
Proof.
  unfold tag_at. destruct (starts_with_ci (60 :: name) s) as [after|] eqn:E; [| discriminate].
  destruct (until_gt after) as [[m' rest']|] eqn:G; [| discriminate].
  intros [= <- <-]. apply starts_with_ci_split in E. apply until_gt_split in G.
  cbn [length] in E. rewrite <- app_assoc, <- G. exact E.
Qed.

Lemma find_tag_split name s : forall pre m post,
  find_tag name s = Some (pre, m, post) -> s = pre ++ m ++ post.
Proof.
  induction s as [|c r IH]; intros pre m post H; cbn [find_tag] in H.
  - destruct (tag_at name []) as [[m' rest]|] eqn:T; [| discriminate].
    injection H as <- <- <-. apply tag_at_split in T. exact T.
  - destruct (tag_at name (c :: r)) as [[m' rest]|] eqn:T.
    + injection H as <- <- <-. apply tag_at_split in T. exact T.
    + destruct (find_tag name r) as [[[pre' m'] post']|]; [| discriminate].
      injection H as <- <- <-. cbn [app]. f_equal. apply IH. reflexivity.
Qed.

(** X22. The sanitized HTML that is written out contains the navigation
    blocker: the marker test holds of it, whatever the serialized document
    was, so putting it in twice changes nothing more. The document itself is
    kept whole: the text written is the document with one piece inserted,
    nothing if the marker was there already and otherwise a piece that holds
    the script. *)
Theorem inject_once (html : str) :
  has_marker (inject html) = true /\
  inject (inject html) = inject html /\
  exists pre ins post,
    html = pre ++ post /\ inject html = pre ++ ins ++ post /\
    if has_marker html then ins = []
    else exists a b, ins = a ++ injectionScript ++ b.
Proof.
  assert (H1 : has_marker (inject html) = true).
  { unfold inject. destruct (has_marker html) eqn:M; [exact M |].
    destruct (find_tag (lit "head") html) as [[[pre m] post]|].
    { apply has_marker_app_r. rewrite <- !app_assoc.
      apply has_marker_app_r, (has_marker_app_r [10]), has_marker_script. }
    destruct (find_tag (lit "html") html) as [[[pre m] post]|].
    { apply has_marker_app_r. rewrite <- !app_assoc.
      apply has_marker_app_r, (has_marker_app_r [10]), (has_marker_app_r (lit "<head>")),
        (has_marker_app_r [10]), has_marker_script. }
    apply has_marker_script. }
  split_and!; [exact H1 | |].
  - unfold inject at 1. rewrite H1. reflexivity.
  - unfold inject. destruct (has_marker html) eqn:M.
    { exists html, [], []. rewrite !app_nil_r. auto. }
    destruct (find_tag (lit "head") html) as [[[pre m] post]|] eqn:F1.
    { apply find_tag_split in F1. exists (pre ++ m), ([10] ++ injectionScript), post.
      rewrite <- !app_assoc. split_and!; [exact F1 | reflexivity |].
      exists [10], []. rewrite app_nil_r. reflexivity. }
    destruct (find_tag (lit "html") html) as [[[pre m] post]|] eqn:F2.
    { apply find_tag_split in F2.
      exists (pre ++ m),
        ([10] ++ lit "<head>" ++ [10] ++ injectionScript ++ [10] ++ lit "</head>" ++ [10]),
        post.
      rewrite <- !app_assoc. split_and!; [exact F2 | reflexivity |].
      exists ([10] ++ lit "<head>" ++ [10]), ([10] ++ lit "</head>" ++ [10]).
      rewrite <- !app_assoc. reflexivity. }
    exists [], (injectionScript ++ [10]), html.
    rewrite <- !app_assoc. split_and!; [reflexivity | reflexivity |].
    exists [], [10]. reflexivity.
Qed.

End InjectionFacts.

(** ** From submission to outcome, and the one click of a pass *)

Section EndToEnd.

Import Scan Browser Archiver Queue Worker.
Local Open Scope browser_scope.

(** X23. A job that is submitted and then worked on ends with the outcome
    of its own [runArchive]. When [addJob] inserts a url and [processQueue]
    then runs to its normal end, the table holds a row for that url under
    the id [addJob] gave it, with status [complete] if [runArchive] returned
    true on it and [failed] with the message [Archive failed] if it returned
    false. *)
Theorem submitted_job_is_settled worlds ct ft now u d d' :
  well_formed d -> count_url u d = 0%nat ->
  processQueue worlds ct ft (snd (addJob now u d)) = Some (Ok tt, d') ->
  exists r,
    In r (rows d') /\ url r = u /\ id r = Queue.seq d + 1 /\
    finished worlds (fresh_row now (Queue.seq d + 1) u) r.
Proof.
  intros Hwf Hz H.
  pose proof (well_formed_addJob now u d Hwf) as Hwf1.
  assert (Hrows : rows (snd (addJob now u d))
                  = rows d ++ [fresh_row now (Queue.seq d + 1) u]).
  { unfold addJob. destruct (existsb _ (rows d)) eqn:E; [| reflexivity].
    apply existsb_url in E. unfold count_url in Hz. lia. }
  unfold processQueue in H.
  apply processQueue_loop_ok in H as [HF Hp]; [| exact Hwf1].
  rewrite Hrows in HF. apply Forall2_app_inv_l in HF as (l1 & l2 & _ & H2 & El).
  inversion H2 as [|x r l l' Hstep Hnil]; subst. inversion Hnil; subst.
  exists r. rewrite pending_rows_zero in Hp.
  assert (Hin : In r (rows d')) by (rewrite El; apply in_or_app; right; left; reflexivity).
  destruct Hstep as [->|[_ Hf]].
  - destruct (Hp _ Hin). reflexivity.
  - split_and!; [exact Hin | | | exact Hf];
      destruct Hf as (t & ok & _ & ->); reflexivity.
Qed.

Lemma submitted_job_is_settled_witness :
  exists r d',
    processQueue (fun _ => Samples.quiet) (fun _ => 11%Z) (fun _ => 12%Z)
      (snd (addJob 10 (lit "https://example.com/a") empty)) = Some (Ok tt, d') /\
    In r (rows d') /\ url r = lit "https://example.com/a" /\ id r = 1.
Proof.
  destruct (processQueue (fun _ => Samples.quiet) (fun _ => 11%Z) (fun _ => 12%Z)
              (snd (addJob 10 (lit "https://example.com/a") empty)))
    as [[[[]|] d']|] eqn:E;
    [| vm_compute in E; discriminate | vm_compute in E; discriminate].
  destruct (submitted_job_is_settled (fun _ => Samples.quiet) (fun _ => 11%Z)
              (fun _ => 12%Z) 10 (lit "https://example.com/a") empty d'
              well_formed_empty eq_refl E) as (r & Hin & Hu & Hi & _).
  exists r, d'. split_and!; [reflexivity | exact Hin | exact Hu | exact Hi].
Defined.

End EndToEnd.

(** ** One dismissal pass *)

Section DismissalPass.

Import Scan Browser Archiver PopupSpec.
Local Open Scope browser_scope.




End DismissalPass.

(** ** The navigation guard *)

Section ClickPageFacts.

Import ClickPage.

Lemma same_listener_other type cap f l :
  callback l <> f -> same_listener type cap f l = false.
Proof.
  intros H. unfold same_listener. apply Nat.eqb_neq in H. rewrite H.
  apply andb_false_r.
Qed.

Lemma same_listener_fresh type cap f (ls : list listener) :
  Forall (fun l => (callback l < f)%nat) ls ->
  existsb (same_listener type cap f) ls = false.
Proof.
  induction 1 as [|l ls Hl _ IH]; [reflexivity |].
  cbn [existsb]. rewrite IH, orb_false_r. apply same_listener_other. lia.
Qed.

Lemma removeEventListener_fresh type cap f (ls : list listener) :
  Forall (fun l => (callback l < f)%nat) ls ->
  removeEventListener type cap f ls = ls.
Proof.
  unfold removeEventListener.
  induction 1 as [|l ls Hl _ IH]; [reflexivity |].
  cbn [List.filter]. unfold same_listener at 1.
  assert ((callback l =? f)%nat = false) as -> by (apply Nat.eqb_neq; lia).
  rewrite andb_false_r. cbn [negb]. rewrite IH. reflexivity.
Qed.

Lemma install_listeners w :
  numbered w ->
  listeners (install w)
  = listeners w
    ++ [ {| on := lit "click"; capture := true; callback := functions w;
            stops := true; prevents := true |};
         {| on := lit "beforeunload"; capture := true; callback := S (functions w);
            stops := false; prevents := true |} ].
Proof.
  intros H. unfold install. cbn [listeners]. unfold addEventListener at 2.
  cbn [on capture callback]. rewrite (same_listener_fresh _ _ _ _ H).
  unfold addEventListener. cbn [on capture callback].
  rewrite existsb_app, same_listener_fresh.
  - cbn [existsb orb]. rewrite same_listener_other by (cbn [callback]; lia).
    cbn [orb]. rewrite <- app_assoc. reflexivity.
  - eapply List.Forall_impl; [| exact H]. cbn beta. intros; lia.
Qed.

Lemma remove_listeners w : numbered w -> listeners (remove w) = listeners w.
Proof.
  intros H. unfold remove. destruct (patch w); [| reflexivity].
  cbn [listeners]. apply removeEventListener_fresh, H.
Qed.

Lemma numbered_install w : numbered w -> numbered (install w).
Proof.
  intros H. unfold numbered. rewrite (install_listeners w H).
  unfold install. cbn [functions]. apply List.Forall_app. split.
  - eapply List.Forall_impl; [| exact H]. cbn beta. intros; lia.
  - repeat constructor; cbn [callback]; lia.
Qed.

Lemma numbered_remove w : numbered w -> numbered (remove w).
Proof.
  intros H. unfold numbered. rewrite (remove_listeners w H).
  unfold remove. destruct (patch w); [| exact H]. cbn [functions].
  eapply List.Forall_impl; [| exact H]. cbn beta. intros; lia.
Qed.

Lemma run_listeners calls : forall w,
  numbered w ->
  numbered (run calls w) /\
  exists added,
    listeners (run calls w) = listeners w ++ added /\
    length added = (2 * installs calls)%nat.
Proof.
  unfold run, installs.
  induction calls as [|c calls IH]; intros w H; cbn [fold_left List.filter].
  - split; [exact H |]. exists []. rewrite app_nil_r. split; reflexivity.
  - destruct c.
    + destruct (IH (install w) (numbered_install w H)) as (Hn & added & E & L).
      split; [exact Hn |]. rewrite E, (install_listeners w H), <- app_assoc.
      eexists. split; [reflexivity |].
      rewrite length_app, L. cbn [length]. lia.
    + destruct (IH (remove w) (numbered_remove w H)) as (Hn & added & E & L).
      split; [exact Hn |]. rewrite E, (remove_listeners w H).
      exists added. split; [reflexivity | exact L].
Qed.

Lemma stopped_after_install calls w :
  numbered w -> stopped_at_window (run calls (install w)) (lit "click") = true.
Proof.
  intros H.
  destruct (run_listeners calls (install w) (numbered_install w H))
    as (_ & added & E & _).
  unfold stopped_at_window. rewrite E, (install_listeners w H).
  rewrite !existsb_app. cbn [existsb on capture stops].
  assert (str_eqb (lit "click") (lit "click") = true) as -> by reflexivity.
  cbn [andb orb]. rewrite orb_true_r. reflexivity.
Qed.

Lemma events_past_guard w :
  stopped_at_window w (lit "click") = true ->
  ~ In (lit "click")
      (List.filter (fun type => negb (stopped_at_window w type)) event_types) /\
  incl (List.filter (fun type => negb (stopped_at_window w type)) event_types)
       (map lit ["pointerdown"; "mousedown"; "pointerup"; "mouseup"]%string).
Proof.
  intros Hs. split.
  - intros Hin. apply filter_In in Hin as [_ Hin]. rewrite Hs in Hin. discriminate.
  - intros type Hin. apply filter_In in Hin as [Hin Hf].
    unfold event_types in Hin. cbn [map In] in Hin |- *.
    destruct Hin as [<-|[<-|[<-|[<-|[<-|[]]]]]]; auto.
    rewrite Hs in Hf. discriminate.
Qed.

(** X25. The navigation guard of [clickElements] is never taken off. In a
    page whose listeners were added with functions made before, the third
    function, written to remove the guard, removes no listener of
    [window]: it hands [removeEventListener] a function made on the spot.
    So after any evaluations of the first and the third function the
    window holds the listeners it had, and two more for each evaluation of
    the first. Once the first has run, whatever evaluations of the two
    follow, a click event dispatched on an element is stopped at [window]:
    of the five events the second function dispatches on the control it
    finds, the click is not among those that get past [window]. *)
Theorem navigation_guard_stays w calls :
  numbered w ->
  listeners (remove w) = listeners w /\
  patch (remove w) = false /\
  (exists added,
     listeners (run calls w) = listeners w ++ added /\
     length added = (2 * installs calls)%nat) /\
  stopped_at_window (run calls (install w)) (lit "click") = true /\
  (forall candidates text target events,
     dispatch candidates text (run calls (install w)) = Some (target, events) ->
     find_target candidates text = Some target /\
     ~ In (lit "click") events /\
     incl events (map lit ["pointerdown"; "mousedown"; "pointerup"; "mouseup"]%string)).
Proof.
  intros H. split_and!.
  - apply remove_listeners, H.
  - unfold remove. destruct (patch w) eqn:E; [reflexivity | exact E].
  - apply run_listeners, H.
  - apply stopped_after_install, H.
  - intros candidates text target events. unfold dispatch.
    destruct (find_target candidates text) as [b|]; [| discriminate].
    intros E.
    pose proof (events_past_guard _ (stopped_after_install calls w H)) as Hp.
    assert (Ht : b = target) by congruence. subst target.
    assert (He : List.filter
                   (fun type => negb (stopped_at_window (run calls (install w)) type))
                   event_types = events) by congruence.
    rewrite <- He. split; [reflexivity | exact Hp].
Qed.

Lemma navigation_guard_stays_witness :
  let b := {| innerText := Some (lit " Close "); value := None |} in
  length (listeners (run [Install; Remove; Install; Remove] blank)) = 4%nat /\
  dispatch [b] (lit "close") (run [Remove] (install blank))
  = Some (b, map lit ["pointerdown"; "mousedown"; "pointerup"; "mouseup"]%string).
Proof.
  intros b.
  destruct (navigation_guard_stays blank [Install; Remove; Install; Remove])
    as (_ & _ & (added & E & L) & _); [constructor |].
  split; [rewrite E, length_app, L; reflexivity |].
  destruct (dispatch [b] (lit "close") (run [Remove] (install blank)))
    as [[target events]|] eqn:D; [| vm_compute in D; discriminate].
  destruct (navigation_guard_stays blank [Remove]) as (_ & _ & _ & _ & Hd);
    [constructor |].
  destruct (Hd _ _ _ _ D) as (_ & _ & _).
  vm_compute in D. injection D as <- <-. reflexivity.
Defined.

End ClickPageFacts.

